(** * GameMaker sprite-index replacement tool: the scan-and-replace core

    A shallow embedding of [replace_sprite_indices_gui.py] (the functions
    [load_sprite_map], [backup_file], [replace_in_file] and
    [scan_and_replace], and the methods of [SpriteReplacerGUI] that start a
    run), the properties of its natural-language specification, and
    further properties of the code.

    Conventions of the embedding:
    - a Python [str] is a list of Unicode code points ([text], a list of
      [N]); ASCII literals are written [str "..."];
    - the character classes of [re] and of [str.strip] are given in full on
      the ASCII range and by a table ([Unicode]) above it;
    - [re.sub] is embedded as a leftmost, non-overlapping scan that tries the
      pattern at every position with a greedy, backtracking matcher;
    - the file system is a finite map from paths to files, each with its
      text and whether it can be read and written; functions that touch it
      live in a state-and-exception monad, and an operation on a file that
      is missing or lacks the permission raises [IOError];
    - paths and line ends are those of POSIX ([posixpath], [os.linesep] a
      line feed); a directory is given by what [os.walk] lists for it;
    - of the window the model keeps the two entry fields, the status
      label, the output text and the error boxes shown; the thread the
      button starts is followed to its end;
    - text that does not decode as UTF-8 and a directory in which no file
      can be created are outside the model: its exceptions are
      those for a path that is missing or lacks the permission. *)

From Stdlib Require Import NArith Ascii String DecimalString Lia Bool.
From stdpp Require Import gmap list.

Local Open Scope N_scope.
Local Open Scope list_scope.

(** ** Text *)

Abbreviation text := (list N).

Definition str (s : string) : text := map N_of_ascii (list_ascii_of_string s).

(** The code points the program names. *)
Definition LF : N := 10.
Definition CR : N := 13.
Definition SPACE : N := 32.
Definition HASH : N := 35.
Definition DASH : N := 45.
Definition SEMI : N := 59.
Definition EQUALS : N := 61.
Definition ARROW : N := 8594.

(** ** Character classes

    For a [str] pattern, [\s] is [Py_UNICODE_ISSPACE], [\d] is
    [Py_UNICODE_ISDECIMAL] and [\w] is [Py_UNICODE_ISALNUM] or [_];
    [str.strip()] uses [Py_UNICODE_ISSPACE] too.  Below 128 the three
    classes are the sets written out here; above, they come from the Unicode
    database, of which the development uses only that decimal digits are
    word characters and that white space is not. *)

Class Unicode := {
  uni_space : N -> bool;
  uni_digit : N -> bool;
  uni_word : N -> bool;
  uni_digit_word : forall c, uni_digit c = true -> uni_word c = true;
  uni_space_word : forall c, uni_space c = true -> uni_word c = false
}.

(** The table that classifies no code point above 127: the classes of
    ASCII-only text. *)
#[global, refine] Instance ascii_only : Unicode :=
  {| uni_space := fun _ => false;
     uni_digit := fun _ => false;
     uni_word := fun _ => false |}.
Proof. all: intros; discriminate. Defined.

Section Classes.
Context {U : Unicode}.

Definition isspace (c : N) : bool :=
  if c <? 128 then ((9 <=? c) && (c <=? 13)) || ((28 <=? c) && (c <=? 32))
  else uni_space c.

Definition isdigit (c : N) : bool :=
  if c <? 128 then (48 <=? c) && (c <=? 57) else uni_digit c.

Definition isword (c : N) : bool :=
  if c <? 128 then
    ((48 <=? c) && (c <=? 57)) || ((65 <=? c) && (c <=? 90))
    || ((97 <=? c) && (c <=? 122)) || (c =? 95)
  else uni_word c.

(** ** String helpers of the Python runtime *)

Fixpoint take_while (f : N -> bool) (s : text) : text :=
  match s with
  | c :: s' => if f c then c :: take_while f s' else []
  | [] => []
  end.

Fixpoint drop_while (f : N -> bool) (s : text) : text :=
  match s with
  | c :: s' => if f c then drop_while f s' else s
  | [] => []
  end.

Fixpoint text_eqb (a b : text) : bool :=
  match a, b with
  | [], [] => true
  | x :: a', y :: b' => (x =? y) && text_eqb a' b'
  | _, _ => false
  end.

(** [s.startswith(p)] *)
Fixpoint startswith (p s : text) : bool :=
  match p, s with
  | [], _ => true
  | x :: p', y :: s' => (x =? y) && startswith p' s'
  | _ :: _, [] => false
  end.

(** [s.endswith(p)] *)
Definition endswith (p s : text) : bool := startswith (rev p) (rev s).

(** [p in s] for a non-empty [p] *)
Fixpoint contains (p s : text) : bool :=
  match s with
  | [] => false
  | _ :: s' => startswith p s || contains p s'
  end.

(** [s.strip()] *)
Definition lstrip (s : text) : text := drop_while isspace s.
Definition rstrip (s : text) : text := rev (drop_while isspace (rev s)).
Definition strip (s : text) : text := rstrip (lstrip s).

(** [str(n)] for a non-negative integer *)
Definition str_of_nat (n : nat) : text :=
  str (NilEmpty.string_of_uint (Nat.to_uint n)).

(** ** The regular expressions

    [re] tries alternatives in order and backtracks: a starred class first
    takes as many characters as it can, then gives them back one at a time
    until what follows matches.  A matcher takes the text at the current
    position and a continuation for what follows in the pattern. *)

Section Matchers.
Context {R : Type}.

(** [c*] for a character class [c] *)
Fixpoint re_star (f : N -> bool) (k : text -> option R) (s : text) : option R :=
  match s with
  | c :: s' =>
      if f c then
        match re_star f k s' with
        | Some r => Some r
        | None => k s
        end
      else k s
  | [] => k []
  end.

(** [c+] *)
Definition re_plus (f : N -> bool) (k : text -> option R) (s : text) : option R :=
  match s with
  | c :: s' => if f c then re_star f k s' else None
  | [] => None
  end.

(** a literal *)
Definition re_lit (l : text) (k : text -> option R) (s : text) : option R :=
  if startswith l s then k (drop (length l) s) else None.

End Matchers.

(** The text a group captured, from the text at its start and at its end. *)
Definition captured (from to : text) : text :=
  take (length from - length to)%nat from.

(** [SPRITE_VARS]: the two variable-name shapes, in the order of the list. *)
Inductive sprite_var := SpriteIndex | AnySpr.

Definition SPRITE_VARS : list sprite_var := [SpriteIndex; AnySpr].

(** The shape itself: [sprite_index], or [\w*spr\w*]. *)
Definition re_var {R} (var : sprite_var) (k : text -> option R) : text -> option R :=
  match var with
  | SpriteIndex => re_lit (str "sprite_index") k
  | AnySpr => re_star isword (re_lit (str "spr") (re_star isword k))
  end.

(** [pattern = r'(' + var + r')\s*=\s*(\d+)\s*;'], matched at the start of
    [s]: the two groups and the text after the match. *)
Definition re_match (var : sprite_var) (s : text) : option (text * text * text) :=
  re_var var (fun s1 =>
    re_star isspace (re_lit [EQUALS] (re_star isspace (fun s2 =>
      re_plus isdigit (fun s3 =>
        re_star isspace (re_lit [SEMI] (fun s4 =>
          Some (captured s s1, captured s2 s3, s4))) s3) s2))) s1) s.

End Classes.

(** ** The match at one position, without backtracking

    What follows a starred class in these patterns never starts with a
    character of that class, so giving characters back cannot help; only the
    first [\w*] of [\w*spr\w*] has a real choice, and every choice that
    succeeds captures the same text.  [match_at] is the resulting direct
    description, proved equal to [re_match] in [re_match_det]. *)

Section Deterministic.
Context {U : Unicode}.

(** [\s*=\s*(\d+)\s*;] : the digits and the text after the semicolon *)
Definition match_tail (s : text) : option (text * text) :=
  match drop_while isspace s with
  | c :: s2 =>
      if c =? EQUALS then
        let s3 := drop_while isspace s2 in
        match take_while isdigit s3 with
        | [] => None
        | num =>
            match drop_while isspace (drop_while isdigit s3) with
            | d :: rest => if d =? SEMI then Some (num, rest) else None
            | [] => None
            end
        end
      else None
  | [] => None
  end.

(** the variable name and the text after it *)
Definition match_var (var : sprite_var) (s : text) : option (text * text) :=
  match var with
  | SpriteIndex =>
      if startswith (str "sprite_index") s
      then Some (str "sprite_index", drop 12 s) else None
  | AnySpr =>
      if contains (str "spr") (take_while isword s)
      then Some (take_while isword s, drop_while isword s) else None
  end.

Definition match_at (var : sprite_var) (s : text) : option (text * text * text) :=
  match match_var var s with
  | Some (varname, t) =>
      match match_tail t with
      | Some (num, rest) => Some (varname, num, rest)
      | None => None
      end
  | None => None
  end.

End Deterministic.

(** ** [re.sub] with the callback [repl] *)

(** An element of [replacements]: [(orig_line, new_line, idx)]. *)
Abbreviation replacement := (text * text * nat)%type.

(** What one accepted substitution does besides returning its text: the
    message handed to the two log callbacks and the tuple appended to
    [replacements]. *)
Abbreviation event := (text * replacement)%type.

(** [os.path.basename], [os.path.dirname] and [os.path.join] of
    [posixpath]. *)
Definition SLASH : N := 47.

Definition basename (p : text) : text :=
  rev (take_while (fun c => negb (c =? SLASH)) (rev p)).

Definition dirname (p : text) : text :=
  let head := rev (drop_while (fun c => negb (c =? SLASH)) (rev p)) in
  if forallb (fun c => c =? SLASH) head then head
  else rev (drop_while (fun c => c =? SLASH) (rev head)).

Definition join (a b : text) : text :=
  if startswith [SLASH] b then b
  else if text_eqb a [] || endswith [SLASH] a then a ++ b
  else a ++ SLASH :: b.

Section Substitution.
Context {U : Unicode}.
Variable sprite_map : gmap text text.
Variable filename : text.

(** The closure [repl] of [replace_in_file], for the line [orig_line] at
    index [idx]; a match is given by [group(0)], [group(1)] and
    [group(2)]. *)
Definition repl (idx : nat) (orig_line : text) (group0 varname num : text)
    : text * list event :=
  match sprite_map !! num with
  | Some value =>
      let new_line := varname ++ str " = " ++ value ++ str ";" in
      let msg := str "[" ++ basename filename ++ str ":" ++ str_of_nat idx
                   ++ str "] " ++ strip orig_line ++ [SPACE; ARROW; SPACE]
                   ++ new_line in
      (new_line, [(msg, (orig_line, new_line, idx))])
  | None => (group0, [])
  end.

(** [re.sub(pattern, repl, line)]: the pattern is tried at each position
    from left to right; a match is replaced by what [repl] returns and the
    scan goes on after it, text that matches nowhere is copied.  [skip]
    counts the characters of the last match still to pass over. *)
Fixpoint re_sub_from (var : sprite_var) (idx : nat) (orig_line : text)
    (skip : nat) (s : text) : text * list event :=
  match s with
  | [] => ([], [])
  | c :: s' =>
      match skip with
      | S k => re_sub_from var idx orig_line k s'
      | O =>
          match re_match var s with
          | Some (varname, num, rest) =>
              let n := (length s - length rest)%nat in
              let '(out, ev) := repl idx orig_line (take n s) varname num in
              let '(out', ev') := re_sub_from var idx orig_line (n - 1) s' in
              (out ++ out', ev ++ ev')
          | None =>
              let '(out', ev') := re_sub_from var idx orig_line 0 s' in
              (c :: out', ev')
          end
      end
  end.

Definition re_sub (var : sprite_var) (idx : nat) (orig_line line : text)
    : text * list event :=
  re_sub_from var idx orig_line 0 line.

(** [for var in SPRITE_VARS: line = re.sub(pattern, repl, line)] *)
Fixpoint sub_vars (vars : list sprite_var) (idx : nat) (orig_line line : text)
    : text * list event :=
  match vars with
  | [] => (line, [])
  | var :: vars' =>
      let '(line1, ev1) := re_sub var idx orig_line line in
      let '(line2, ev2) := sub_vars vars' idx orig_line line1 in
      (line2, ev1 ++ ev2)
  end.

(** The body of the loop over the lines, for one line. *)
Definition sub_line (idx : nat) (line : text) : text * list event :=
  sub_vars SPRITE_VARS idx line line.

End Substitution.

(** ** Lines *)

(** [f.readlines()] on text whose line ends are all [\n]: every line keeps
    its terminator. *)
Fixpoint readlines (s : text) : list text :=
  match s with
  | [] => []
  | c :: s' =>
      if c =? LF then [c] :: readlines s'
      else match readlines s' with
           | [] => [[c]]
           | l :: ls => (c :: l) :: ls
           end
  end.

(** Reading in text mode with the default [newline=None]: [\r\n] and a lone
    [\r] become [\n]. *)
Fixpoint universal_newlines (s : text) : text :=
  match s with
  | [] => []
  | c :: s' =>
      if c =? CR then
        LF :: match s' with
              | d :: s'' => if d =? LF then universal_newlines s''
                            else universal_newlines s'
              | [] => []
              end
      else c :: universal_newlines s'
  end.

(** ** The file system, the sinks and the monad *)

Record file := File { content : text; readable : bool; writable : bool }.

(** [fs] maps a path to the file there; [log_f] is the text written so far
    to the session log opened by [scan_and_replace]; [gui_log] and
    [status_log] are the messages the caller's two callbacks were called
    with, in order. *)
Record state := State {
  fs : gmap text file;
  log_f : text;
  gui_log : list text;
  status_log : list text
}.

Inductive exn := IOError (path : text).

Inductive result (A : Type) := Ok (a : A) | Raise (e : exn).
Arguments Ok {A} a.
Arguments Raise {A} e.

Definition M (A : Type) : Type := state -> state * result A.

Definition ret {A} (a : A) : M A := fun st => (st, Ok a).

Definition bind {A B} (m : M A) (k : A -> M B) : M B :=
  fun st =>
    match m st with
    | (st', Ok a) => k a st'
    | (st', Raise e) => (st', Raise e)
    end.

Definition raise {A} (e : exn) : M A := fun st => (st, Raise e).

Notation "x <- m ;; k" := (bind m (fun x => k))
  (at level 100, m at next level, right associativity).
Notation "m ;;; k" := (bind m (fun _ => k))
  (at level 100, right associativity).

Definition set_fs (f : gmap text file -> gmap text file) : M unit :=
  fun st => (State (f (fs st)) (log_f st) (gui_log st) (status_log st), Ok tt).

(** A loop that updates local variables: [for x in l: acc = f acc x]. *)
Fixpoint foldM {A B} (f : B -> A -> M B) (acc : B) (l : list A) : M B :=
  match l with
  | [] => ret acc
  | x :: l' => acc' <- f acc x ;; foldM f acc' l'
  end.

(** [open(path, encoding='utf-8')] and reading all of it.  The text of a
    file is kept decoded: a file whose bytes are no UTF-8, for which the
    read raises [UnicodeDecodeError], has no counterpart here. *)
Definition read_text (path : text) : M text :=
  fun st =>
    match fs st !! path with
    | Some f =>
        if readable f then (st, Ok (universal_newlines (content f)))
        else (st, Raise (IOError path))
    | None => (st, Raise (IOError path))
    end.

(** [open(path, 'w', encoding='utf-8')], writing [data] and closing: an
    existing file keeps its mode, a missing one is created; line ends are
    written as they are, as on POSIX.  Creating the file is taken to
    succeed: the map has no directories, hence none that refuses a new
    file. *)
Definition write_text (path data : text) : M unit :=
  fun st =>
    match fs st !! path with
    | Some f =>
        if writable f then set_fs (insert path (File data (readable f) true)) st
        else (st, Raise (IOError path))
    | None => set_fs (insert path (File data true true)) st
    end.

(** [os.path.exists] *)
Definition path_exists (path : text) : M bool :=
  fun st => (st, Ok (bool_decide (is_Some (fs st !! path)))).

(** [shutil.copy(src, dst)]: the bytes and the permission bits.  As for
    [write_text], creating a missing [dst] is taken to succeed. *)
Definition copy (src dst : text) : M unit :=
  fun st =>
    match fs st !! src with
    | Some f =>
        if readable f then
          match fs st !! dst with
          | Some g =>
              if writable g then set_fs (insert dst f) st
              else (st, Raise (IOError dst))
          | None => set_fs (insert dst f) st
          end
        else (st, Raise (IOError src))
    | None => (st, Raise (IOError src))
    end.

(** The caller's callbacks are optional ([true]: one was given); a call is
    recorded in the list of its sink. *)
Definition gui_log_call (gui_log_callback : bool) (msg : text) : M unit :=
  fun st =>
    (if gui_log_callback
     then State (fs st) (log_f st) (gui_log st ++ [msg]) (status_log st)
     else st, Ok tt).

Definition status_call (status_callback : bool) (msg : text) : M unit :=
  fun st =>
    (if status_callback
     then State (fs st) (log_f st) (gui_log st) (status_log st ++ [msg])
     else st, Ok tt).

(** [log_f.write(data)] *)
Definition log_write (data : text) : M unit :=
  fun st => (State (fs st) (log_f st ++ data) (gui_log st) (status_log st), Ok tt).

(** The closure [file_log_callback] of [scan_and_replace], optional in
    [replace_in_file]. *)
Definition file_log_call (file_log_callback : bool) (msg : text) : M unit :=
  if file_log_callback then log_write (msg ++ [LF]) else ret tt.

(** ** [load_sprite_map] *)

Section Loader.
Context {U : Unicode}.

(** [line.split('-', 1)] on a line that contains a [-] *)
Definition split_dash (line : text) : text * text :=
  (take_while (fun c => negb (c =? DASH)) line,
   drop 1 (drop_while (fun c => negb (c =? DASH)) line)).

(** The body of the loop over the lines of the mapping file. *)
Definition load_line (mapping : gmap text text) (line : text) : gmap text text :=
  let line := strip line in
  if text_eqb line [] || startswith [HASH] line then mapping
  else if negb (contains [DASH] line) then mapping
  else
    let '(key, value) := split_dash line in
    <[strip key := strip value]> mapping.

Definition load_lines (lines : list text) : gmap text text :=
  fold_left load_line lines ∅.

Definition load_sprite_map (mapping_file : text) : M (gmap text text) :=
  data <- read_text mapping_file ;;
  ret (load_lines (readlines data)).

End Loader.

(** ** [backup_file] and [replace_in_file] *)

Definition backup_file (filepath : text) : M unit :=
  e <- path_exists (filepath ++ str ".bak") ;;
  if e then ret tt else copy filepath (filepath ++ str ".bak").

Section Rewriter.
Context {U : Unicode}.

(** The calls [repl] makes for one accepted substitution. *)
Definition log_event (gui_log_callback file_log_callback : bool) (e : event)
    : M unit :=
  gui_log_call gui_log_callback (fst e) ;;;
  file_log_call file_log_callback (fst e).

(** The loop [for idx, line in enumerate(lines, 1)], with the local
    variables [changed], [replacements] and [new_lines]. *)
Fixpoint rewrite_lines (sprite_map : gmap text text) (filename : text)
    (gui_log_callback file_log_callback : bool)
    (idx : nat) (lines : list text)
    (acc : bool * list replacement * list text)
    : M (bool * list replacement * list text) :=
  match lines with
  | [] => ret acc
  | line :: lines' =>
      let '(changed, replacements, new_lines) := acc in
      let '(line', events) := sub_line sprite_map filename idx line in
      foldM (fun _ e => log_event gui_log_callback file_log_callback e) tt events ;;;
      rewrite_lines sprite_map filename gui_log_callback file_log_callback
        (S idx) lines'
        (changed || negb (text_eqb line' line),
         replacements ++ map snd events,
         new_lines ++ [line'])
  end.

Definition replace_in_file (filename : text) (sprite_map : gmap text text)
    (gui_log_callback file_log_callback : bool) : M (bool * list replacement) :=
  data <- read_text filename ;;
  let lines := readlines data in
  r <- rewrite_lines sprite_map filename gui_log_callback file_log_callback
         1 lines (false, [], []) ;;
  let '(changed, replacements, new_lines) := r in
  (if changed then
     backup_file filename ;;;
     write_text filename (concat new_lines)
   else ret tt) ;;;
  ret (changed, replacements).

End Rewriter.

(** ** [scan_and_replace] *)

Definition CODE_EXTENSIONS : list text := [str ".gml"; str ".yy"; str ".yyp"].
Definition LOG_FILENAME : text := str "spritereplacement_log.txt".

(** A directory as [os.walk] sees it: the names of its files and its
    sub-directories. *)
#[warnings="-register-all"]
Inductive dir := Dir (files : list text) (subdirs : list (text * dir)).

(** [os.walk(top)], top-down: a triple [(root, dirs, files)] per directory. *)
Fixpoint os_walk (top : text) (d : dir) : list (text * list text * list text) :=
  match d with
  | Dir files subdirs =>
      (top, map fst subdirs, files)
      :: (fix walk_all (l : list (text * dir)) :=
            match l with
            | [] => []
            | (name, d') :: l' => os_walk (join top name) d' ++ walk_all l'
            end) subdirs
  end.

(** [any(file.endswith(ext) for ext in CODE_EXTENSIONS)] *)
Definition eligible (file : text) : bool :=
  existsb (fun ext => endswith ext file) CODE_EXTENSIONS.

(** An element of [all_replacements]: [(filepath, orig_line, new_line, idx)]. *)
Abbreviation file_replacement := (text * text * text * nat)%type.

(** [with open(log_path, "w", encoding="utf-8") as log_f: body]: the file is
    truncated or created on entry, and closed, with what was written, on the
    way out of the block, also when [body] raises. *)
Definition with_log {A} (log_path : text) (body : M A) : M A :=
  fun st =>
    match write_text log_path [] st with
    | (st0, Raise e) => (st0, Raise e)
    | (st0, Ok _) =>
        let st1 := State (fs st0) [] (gui_log st0) (status_log st0) in
        let '(st2, r) := body st1 in
        (State (alter (fun f => File (log_f st2) (readable f) (writable f))
                      log_path (fs st2))
               (log_f st2) (gui_log st2) (status_log st2), r)
    end.

Section Orchestrator.
Context {U : Unicode}.

(** The body of [for file in files], with the local variables
    [replaced_files] and [all_replacements]. *)
Definition scan_file (sprite_map : gmap text text)
    (gui_log_callback status_callback : bool) (root : text)
    (acc : list text * list file_replacement) (file : text)
    : M (list text * list file_replacement) :=
  if eligible file then
    let filepath := join root file in
    status_call status_callback (str "Scanning: " ++ filepath) ;;;
    gui_log_call gui_log_callback (str "Checking: " ++ filepath) ;;;
    r <- replace_in_file filepath sprite_map gui_log_callback true ;;
    let '(changed, replacements) := r in
    let '(replaced_files, all_replacements) := acc in
    if changed then
      ret (replaced_files ++ [filepath],
           all_replacements
             ++ map (fun rep : replacement =>
                       let '(orig_line, new_line, idx) := rep in
                       (filepath, orig_line, new_line, idx)) replacements)
    else ret acc
  else ret acc.

Definition summary (replaced_files : list text) (log_path : text) : text :=
  [LF] ++ str "Replacements done in " ++ str_of_nat (length replaced_files)
       ++ str " files." ++ [LF] ++ str "Log saved to " ++ log_path ++ [LF].

(** [scan_and_replace] from the line after the mapping is loaded; [argv0]
    is [sys.argv[0]] and [tree] is the directory at [project_dir]. *)
Definition scan_and_replace_with (sprite_map : gmap text text)
    (argv0 : text) (tree : dir) (project_dir : text)
    (gui_log_callback status_callback : bool)
    : M (list text * list file_replacement * text) :=
  let log_path := join (dirname argv0) LOG_FILENAME in
  acc <- with_log log_path (
    acc <- foldM (fun acc '(root, dirs, files) =>
                    foldM (scan_file sprite_map gui_log_callback
                             status_callback root) acc files)
             ([], []) (os_walk project_dir tree) ;;
    gui_log_call gui_log_callback (summary (fst acc) log_path) ;;;
    log_write (summary (fst acc) log_path) ;;;
    status_call status_callback (str "Done.") ;;;
    ret acc) ;;
  ret (fst acc, snd acc, log_path).

Definition scan_and_replace (argv0 : text) (tree : dir)
    (project_dir mapping_file : text)
    (gui_log_callback status_callback : bool)
    : M (list text * list file_replacement * text) :=
  sprite_map <- load_sprite_map mapping_file ;;
  scan_and_replace_with sprite_map argv0 tree project_dir
    gui_log_callback status_callback.

End Orchestrator.

(** ** The window: [SpriteReplacerGUI]

    The methods of the class that carry a run: [log], [set_status],
    [run_replacement_thread] and [run_replacement].  Of the window they see
    the two entry fields, the status label, the output text and the error
    boxes shown; scrolling and redrawing ([see], [update_idletasks]) leave
    these as they are. *)

Module SpriteReplacerGUI.

(** The [ScrolledText] widget: its [state] option ([true] for ['normal'],
    [false] for ['disabled']) and the text it holds. *)
Record scrolled := Scrolled { normal : bool; shown : text }.

(** [widget.config(state=...)], [widget.insert(tk.END, s)] and
    [widget.delete(1.0, tk.END)]; a disabled text widget ignores edits. *)
Definition config_state (b : bool) (w : scrolled) : scrolled :=
  Scrolled b (shown w).

Definition insert_end (s : text) (w : scrolled) : scrolled :=
  if normal w then Scrolled true (shown w ++ s) else w.

Definition delete_all (w : scrolled) : scrolled :=
  if normal w then Scrolled true [] else w.

(** [self]: the texts of the two entry fields and of the status label, the
    output widget, and the error boxes shown so far, each with its title
    and its message. *)
Record window := Window {
  project_dir : text;
  mapping_file : text;
  status : text;
  output : scrolled;
  boxes : list (text * text)
}.

Definition log (msg : text) (self : window) : window :=
  Window (project_dir self) (mapping_file self) (status self)
    (config_state false
       (insert_end (msg ++ [LF]) (config_state true (output self))))
    (boxes self).

Definition set_status (msg : text) (self : window) : window :=
  Window (project_dir self) (mapping_file self) (str "Status: " ++ msg)
    (output self) (boxes self).

(** [messagebox.showerror(title, message)] *)
Definition showerror (title message : text) (self : window) : window :=
  Window (project_dir self) (mapping_file self) (status self) (output self)
    (boxes self ++ [(title, message)]).

(** The window after the calls of [self.log] and of [self.set_status] that
    a run recorded in [st]; the two methods touch different widgets, so
    each sink is replayed in its own order. *)
Definition called (st : state) (self : window) : window :=
  fold_left (fun w msg => set_status msg w) (status_log st)
    (fold_left (fun w msg => log msg w) (gui_log st) self).

(** [os.path.isfile] *)
Definition isfile (path : text) (m : gmap text file) : bool :=
  bool_decide (is_Some (m !! path)).

Section Methods.
Context {U : Unicode}.

(** [sys.argv[0]]; the directory at the path of the folder field, when
    there is one ([os.path.isdir]); and [str(e)] for an exception. *)
Variable argv0 : text.
Variable tree : option dir.
Variable exn_text : exn -> text.

(** The method runs on the file system [m] and returns the one it leaves;
    both callbacks are given to [scan_and_replace], whose sinks start
    empty. *)
Definition run_replacement (self : window) (m : gmap text file)
    : window * gmap text file :=
  match tree with
  | None =>
      (showerror (str "Error")
         (str "Please select a valid GameMaker project folder.")
         (set_status (str "Ready") self), m)
  | Some d =>
      if negb (isfile (mapping_file self) m) then
        (showerror (str "Error") (str "Please select a valid mapping file.")
           (set_status (str "Ready") self), m)
      else
        let '(st, r) :=
          scan_and_replace argv0 d (project_dir self) (mapping_file self)
            true true (State m [] [] []) in
        let self1 := called st self in
        let self2 :=
          match r with
          | Ok _ => self1
          | Raise e =>
              showerror (str "Error")
                (str "An error occurred:" ++ [LF] ++ exn_text e)
                (set_status (str "Ready") self1)
          end in
        (set_status (str "Ready") self2, fs st)
  end.

(** The handler of the button; the thread it starts is followed to the end
    of its target, [run_replacement]. *)
Definition run_replacement_thread (self : window) (m : gmap text file)
    : window * gmap text file :=
  let self0 :=
    Window (project_dir self) (mapping_file self) (status self)
      (config_state false (delete_all (config_state true (output self))))
      (boxes self) in
  run_replacement (set_status (str "Working...") self0) m.

End Methods.

End SpriteReplacerGUI.

(** ** Notions the statements use *)

(** A text that does not start with a character of the class. *)
Definition stops (f : N -> bool) (s : text) : Prop :=
  match s with
  | c :: _ => f c = false
  | [] => True
  end.

Section Notions.
Context {U : Unicode}.

(** The texts a shape names: [sprite_index] itself, or a run of word
    characters with [spr] in it. *)
Definition var_shape (var : sprite_var) (varname : text) : bool :=
  match var with
  | SpriteIndex => text_eqb varname (str "sprite_index")
  | AnySpr => forallb isword varname && contains (str "spr") varname
  end.

(** The text of an assignment [varname = digits ;] with the given white
    space around [=] and before [;]. *)
Definition assignment (varname ws1 ws2 digits ws3 : text) : text :=
  varname ++ ws1 ++ EQUALS :: ws2 ++ digits ++ ws3 ++ [SEMI].

(** What [repl] returns for an accepted substitution. *)
Definition fragment (varname value : text) : text :=
  varname ++ str " = " ++ value ++ str ";".

(** The message of an accepted substitution. *)
Definition message (filename : text) (idx : nat) (orig_line new_line : text)
    : text :=
  str "[" ++ basename filename ++ str ":" ++ str_of_nat idx ++ str "] "
    ++ strip orig_line ++ [SPACE; ARROW; SPACE] ++ new_line.

(** No match of the shape in [s], at any position, has a key of the map for
    its digits. *)
Definition inactive (sprite_map : gmap text text) (var : sprite_var)
    (s : text) : Prop :=
  forall i v num rest,
    match_at var (drop i s) = Some (v, num, rest) -> sprite_map !! num = None.

(** The lines of a file as [replace_in_file] reads them. *)
Definition file_lines (f : file) : list text :=
  readlines (universal_newlines (content f)).

(** The accepted substitutions of the lines from index [idx] on, in order;
    the lines as they come out; whether one of them differs. *)
Fixpoint line_events (sprite_map : gmap text text) (filename : text)
    (idx : nat) (lines : list text) : list event :=
  match lines with
  | [] => []
  | line :: lines' =>
      snd (sub_line sprite_map filename idx line)
        ++ line_events sprite_map filename (S idx) lines'
  end.

Fixpoint new_lines_of (sprite_map : gmap text text) (filename : text)
    (idx : nat) (lines : list text) : list text :=
  match lines with
  | [] => []
  | line :: lines' =>
      fst (sub_line sprite_map filename idx line)
        :: new_lines_of sprite_map filename (S idx) lines'
  end.

Fixpoint lines_changed (sprite_map : gmap text text) (filename : text)
    (idx : nat) (lines : list text) : bool :=
  match lines with
  | [] => false
  | line :: lines' =>
      negb (text_eqb (fst (sub_line sprite_map filename idx line)) line)
        || lines_changed sprite_map filename (S idx) lines'
  end.

(** The state after the callbacks were called for [events]. *)
Definition emit (gui_log_callback file_log_callback : bool)
    (events : list event) (st : state) : state :=
  State (fs st)
    (log_f st ++ (if file_log_callback
                  then concat (map (fun e : event => fst e ++ [LF]) events)
                  else []))
    (gui_log st ++ (if gui_log_callback then map fst events else []))
    (status_log st).

(** The pass over the file [f] found at [filename]: its accepted
    substitutions, whether a line differs, and the text written back. *)
Definition file_events (sprite_map : gmap text text) (filename : text)
    (f : file) : list event :=
  line_events sprite_map filename 1 (file_lines f).

Definition file_changed (sprite_map : gmap text text) (filename : text)
    (f : file) : bool :=
  lines_changed sprite_map filename 1 (file_lines f).

Definition rewritten (sprite_map : gmap text text) (filename : text)
    (f : file) : text :=
  concat (new_lines_of sprite_map filename 1 (file_lines f)).

(** The path of the backup of [filepath]. *)
Definition bak (filepath : text) : text := filepath ++ str ".bak".

(** The file system after [backup_file] on the file [f] at [filepath]. *)
Definition with_backup (filepath : text) (f : file) (m : gmap text file)
    : gmap text file :=
  match m !! bak filepath with
  | Some _ => m
  | None => <[bak filepath := f]> m
  end.

(** The state with another file system. *)
Definition with_fs (m : gmap text file) (st : state) : state :=
  State m (log_f st) (gui_log st) (status_log st).

(** What an accepted substitution of the line [line] at index [idx] hands
    to the callbacks and appends to [replacements]. *)
Definition accepted (sprite_map : gmap text text) (filename : text)
    (idx : nat) (line : text) (e : event) : Prop :=
  exists varname num value,
    sprite_map !! num = Some value
    /\ e = (message filename idx line (fragment varname value),
            (line, fragment varname value, idx)).

(** Lines of the mapping file: those the loader passes over, and those that
    give the key [key] the value [value]. *)
Definition is_skipped (line : text) : Prop :=
  strip line = [] \/ (exists t, strip line = HASH :: t) \/ DASH ∉ strip line.

Definition is_entry (line key value : text) : Prop :=
  exists k v,
    strip line = k ++ DASH :: v /\ (DASH ∉ k)
    /\ (forall t, strip line <> HASH :: t)
    /\ key = strip k /\ value = strip v.

(** The same two kinds of line without [strip], in the words of the
    specification.  [trimmed s t]: [t] is [s] without the white space at its
    two ends.  A comment line has [#] as its first character that is no
    white space.  A line is passed over when it is all white space, a
    comment line, or without [-]; it gives [key] the value [value] when it
    is no comment line and [key] and [value] are, trimmed, what stands
    before and after its first [-]. *)
Definition trimmed (s t : text) : Prop :=
  exists ws1 ws2,
    s = ws1 ++ t ++ ws2
    /\ forallb isspace ws1 = true /\ forallb isspace ws2 = true
    /\ stops isspace t /\ stops isspace (rev t).

Definition comment_line (line : text) : Prop :=
  exists ws t, forallb isspace ws = true /\ line = ws ++ HASH :: t.

Definition skipped_line (line : text) : Prop :=
  forallb isspace line = true \/ comment_line line \/ DASH ∉ line.

Definition entry_line (line key value : text) : Prop :=
  exists a b,
    line = a ++ DASH :: b /\ (DASH ∉ a) /\ ~ comment_line line
    /\ trimmed a key /\ trimmed b value.

(** The eligible files of a directory, as paths, in the order of the loop;
    and those of a whole walk. *)
Fixpoint eligible_paths (root : text) (files : list text) : list text :=
  match files with
  | [] => []
  | file :: files' =>
      if eligible file then join root file :: eligible_paths root files'
      else eligible_paths root files'
  end.

Definition walk_paths (walk : list (text * list text * list text)) : list text :=
  concat (map (fun t : text * list text * list text =>
                 eligible_paths (fst (fst t)) (snd t)) walk).

(** The body of the loop over the files, for an eligible file at
    [filepath]. *)
Definition scan_path (sprite_map : gmap text text)
    (gui_log_callback status_callback : bool)
    (acc : list text * list file_replacement) (filepath : text)
    : M (list text * list file_replacement) :=
  status_call status_callback (str "Scanning: " ++ filepath) ;;;
  gui_log_call gui_log_callback (str "Checking: " ++ filepath) ;;;
  r <- replace_in_file filepath sprite_map gui_log_callback true ;;
  let '(changed, replacements) := r in
  let '(replaced_files, all_replacements) := acc in
  if changed then
    ret (replaced_files ++ [filepath],
         all_replacements
           ++ map (fun rep : replacement =>
                     let '(orig_line, new_line, idx) := rep in
                     (filepath, orig_line, new_line, idx)) replacements)
  else ret acc.

(** A replacement with the path of its file in front. *)
Definition tag (filepath : text) (rep : replacement) : file_replacement :=
  let '(orig_line, new_line, idx) := rep in (filepath, orig_line, new_line, idx).

(** The state after the two notifications for [filepath]. *)
Definition announce (gui_log_callback status_callback : bool)
    (filepath : text) (st : state) : state :=
  State (fs st) (log_f st)
    (gui_log st ++ (if gui_log_callback
                    then [str "Checking: " ++ filepath] else []))
    (status_log st ++ (if status_callback
                       then [str "Scanning: " ++ filepath] else [])).

(** The session log: whether it can be opened for writing, the state once
    it is, the state once it is closed, and the state after the summary. *)
Definition log_openable (log_path : text) (m : gmap text file) : bool :=
  match m !! log_path with
  | Some f => writable f
  | None => true
  end.

Definition open_log (log_path : text) (st : state) : state :=
  State (<[log_path := match fs st !! log_path with
                       | Some f => File [] (readable f) true
                       | None => File [] true true
                       end]> (fs st))
    [] (gui_log st) (status_log st).

Definition close_log (log_path : text) (st : state) : state :=
  State (alter (fun f => File (log_f st) (readable f) (writable f))
               log_path (fs st))
    (log_f st) (gui_log st) (status_log st).

Definition finish (gui_log_callback status_callback : bool)
    (replaced_files : list text) (log_path : text) (st : state) : state :=
  State (fs st) (log_f st ++ summary replaced_files log_path)
    (gui_log st ++ (if gui_log_callback
                    then [summary replaced_files log_path] else []))
    (status_log st ++ (if status_callback then [str "Done."] else [])).

(** The path of the session log. *)
Definition log_path_of (argv0 : text) : text :=
  join (dirname argv0) LOG_FILENAME.

(** What the body of the loop does to the file system, for the eligible
    file at [filepath]. *)
Definition fs_step (sprite_map : gmap text text) (filepath : text)
    (m : gmap text file) : gmap text file :=
  match m !! filepath with
  | Some f =>
      if readable f && file_changed sprite_map filepath f then
        if writable f then
          <[filepath := File (rewritten sprite_map filepath f) (readable f) true]>
            (with_backup filepath f m)
        else with_backup filepath f m
      else m
  | None => m
  end.

(** How the file system [m] reached in a run stands to the one, [m0], the
    run started from: a backup that existed is as it was; an eligible file
    whose backup does not exist is as it was; a backup the run made holds
    the file as it was. *)
Definition backups_sound (m0 m : gmap text file) : Prop :=
  (forall q b, m0 !! bak q = Some b -> m !! bak q = Some b)
  /\ (forall p, eligible p = true -> m !! bak p = None -> m !! p = m0 !! p)
  /\ (forall p b, eligible p = true -> m0 !! bak p = None ->
        m !! bak p = Some b -> m0 !! p = Some b).

(** The file at [filepath] cannot be read, or the pass changes it and it
    cannot be written. *)
Definition io_fails (sprite_map : gmap text text) (filepath : text)
    (m : gmap text file) : Prop :=
  match m !! filepath with
  | Some f =>
      readable f = false
      \/ (file_changed sprite_map filepath f = true /\ writable f = false)
  | None => True
  end.

(** For the file system [m]: whether the pass changes the file at
    [filepath], and the substitutions it accepts there. *)
Definition changed_at (sprite_map : gmap text text) (m : gmap text file)
    (filepath : text) : bool :=
  match m !! filepath with
  | Some f => file_changed sprite_map filepath f
  | None => false
  end.

Definition events_at (sprite_map : gmap text text) (m : gmap text file)
    (filepath : text) : list event :=
  match m !! filepath with
  | Some f => file_events sprite_map filepath f
  | None => []
  end.

(** The lines [file_log_callback] writes for [events]. *)
Definition log_lines (events : list event) : text :=
  concat (map (fun e : event => fst e ++ [LF]) events).

(** A value that is an identifier: word characters only, the first of them
    no digit (the empty value included). *)
Definition identifier (value : text) : Prop :=
  forallb isword value = true /\ stops isdigit value.

Definition identifiers (sprite_map : gmap text text) : Prop :=
  forall key value, sprite_map !! key = Some value -> identifier value.

(** The lines [readlines] gives: none is empty, each but the last ends with
    the one line feed it holds, the last may have none. *)
Inductive lines_wf : list text -> Prop :=
  | wf_nil : lines_wf []
  | wf_last body : LF ∉ body -> body <> [] -> lines_wf [body]
  | wf_cons body ls :
      LF ∉ body -> lines_wf ls -> lines_wf ((body ++ [LF]) :: ls).

(** The file at [filepath] is there, can be read, and the pass leaves all
    its lines as they are. *)
Definition stable (sprite_map : gmap text text) (m : gmap text file)
    (filepath : text) : Prop :=
  exists f,
    m !! filepath = Some f /\ readable f = true
    /\ file_changed sprite_map filepath f = false.

End Notions.

(** ** Notions of the further properties *)

Section FurtherNotions.
Context {U : Unicode}.

(** The file at [path] is there and can be read. *)
Definition can_read (m : gmap text file) (path : text) : bool :=
  match m !! path with
  | Some f => readable f
  | None => false
  end.

(** The two notifications for an eligible file. *)
Definition scanning (filepath : text) : text := str "Scanning: " ++ filepath.
Definition checking (filepath : text) : text := str "Checking: " ++ filepath.

(** What the log callback is called with while the files at [paths] are
    scanned: for each, the line [Checking: <path>] and then the messages of
    its accepted substitutions. *)
Definition feed (sprite_map : gmap text text) (m : gmap text file)
    (paths : list text) : list text :=
  flat_map (fun p => checking p :: map fst (events_at sprite_map m p)) paths.

(** A text in which the pattern can match nowhere: it lacks [spr], the
    semicolon, the equals sign, or any digit. *)
Definition cannot_match (s : text) : Prop :=
  contains (str "spr") s = false \/ SEMI ∉ s \/ EQUALS ∉ s
  \/ (forall c, c ∈ s -> isdigit c = false).

(** No key of the map is a run of digits. *)
Definition no_digit_key (sprite_map : gmap text text) : Prop :=
  forall key value,
    sprite_map !! key = Some value -> forallb isdigit key = true -> key = [].

(** No value of the map holds a line feed or a carriage return. *)
Definition line_break_free (sprite_map : gmap text text) : Prop :=
  forall key value,
    sprite_map !! key = Some value -> (LF ∉ value) /\ (CR ∉ value).

(** The text the output widget gets for the messages [self.log] is called
    with: each on a line of its own. *)
Definition printed (msgs : list text) : text :=
  concat (map (fun msg => msg ++ [LF]) msgs).

(** A directory whose listing, and the listings below it, name each entry
    once, with names that are not empty and hold no slash. *)
Fixpoint listed (d : dir) : Prop :=
  match d with
  | Dir files subdirs =>
      NoDup files /\ NoDup (map fst subdirs)
      /\ (forall name,
            name ∈ files ++ map fst subdirs -> name <> [] /\ SLASH ∉ name)
      /\ (fix all (l : list (text * dir)) : Prop :=
            match l with
            | [] => True
            | (_, d') :: l' => listed d' /\ all l'
            end) subdirs
  end.

(** What [os.path.join] puts before a name that starts with no slash. *)
Definition joined_before (a : text) : text :=
  if text_eqb a [] || endswith [SLASH] a then a else a ++ [SLASH].

End FurtherNotions.

(** ** Example data *)

Definition ex_map : gmap text text := {[ str "12" := str "spr_player_idle" ]}.

(** A state with the given readable and writable files and empty sinks. *)
Definition ex_state (files : list (text * text)) : state :=
  State (list_to_map (map (fun pc : text * text => (fst pc, File (snd pc) true true))
                        files))
    [] [] [].

(** A state with the given project files and, outside the project, the
    mapping file [/m/map.txt] with the one line [12-spr_player_idle]. *)
Definition ex_project (files : list (text * text)) : state :=
  ex_state ((str "/m/map.txt", str "12-spr_player_idle") :: files).

(** The same with the two lines [1-2] and [2-1] in the mapping file. *)
Definition ex_swapped (files : list (text * text)) : state :=
  ex_state ((str "/m/map.txt", str "1-2" ++ [LF] ++ str "2-1") :: files).

(** A state with the given files and empty sinks. *)
Definition ex_files (files : list (text * file)) : state :=
  State (list_to_map files) [] [] [].

(** A project with an unreadable [a.gml] before a [b.gml] that holds a
    mapped index, and the mapping file. *)
Definition ex_unreadable : state :=
  ex_files [(str "/p/a.gml", File (str "sprite_index = 12;") false true);
            (str "/p/b.gml", File (str "sprite_index = 12;") true true);
            (str "/p/map.txt", File (str "12-spr_player_idle") true true)].

(** The same project with an [a.gml] that can be read but not written,
    listed after [b.gml]. *)
Definition ex_unwritable : state :=
  ex_files [(str "/p/a.gml", File (str "sprite_index = 12;") true false);
            (str "/p/b.gml", File (str "my_spr = 12;") true true);
            (str "/p/map.txt", File (str "12-spr_player_idle") true true)].

(** A mapping whose two values are each other's keys. *)
Definition ex_swap : gmap text text :=
  {[ str "1" := str "2"; str "2" := str "1" ]}.

(** * Properties *)

(** ** Character classes *)

Ltac bool_hyps :=
  repeat match goal with
  | H : _ && _ = true |- _ => apply andb_true_iff in H; destruct H
  | H : _ || _ = true |- _ => apply orb_true_iff in H; destruct H
  | H : (_ <=? _) = true |- _ => apply N.leb_le in H
  | H : (_ <? _) = true |- _ => apply N.ltb_lt in H
  | H : (_ <? _) = false |- _ => apply N.ltb_ge in H
  | H : (_ =? _) = true |- _ => apply N.eqb_eq in H
  end.

Ltac bool_goal :=
  rewrite ?orb_true_iff, ?andb_true_iff, ?N.leb_le, ?N.eqb_eq.

Section ClassFacts.
Context {U : Unicode}.

Lemma isdigit_isword c : isdigit c = true -> isword c = true.
Proof.
  unfold isdigit, isword. destruct (c <? 128) eqn:E.
  - intros H. bool_hyps. bool_goal. lia.
  - apply uni_digit_word.
Qed.

Lemma isspace_not_isword c : isspace c = true -> isword c = false.
Proof.
  unfold isspace, isword. destruct (c <? 128) eqn:E.
  - intros H. apply not_true_is_false. intros H'. bool_hyps; lia.
  - apply uni_space_word.
Qed.

Lemma isspace_not_isdigit c : isspace c = true -> isdigit c = false.
Proof.
  intros H. apply not_true_is_false. intros H'.
  apply isdigit_isword in H'. apply isspace_not_isword in H. congruence.
Qed.

Lemma isdigit_not_isspace c : isdigit c = true -> isspace c = false.
Proof.
  intros H. apply not_true_is_false. intros H'.
  apply isspace_not_isdigit in H'. congruence.
Qed.

Lemma isword_not_isspace c : isword c = true -> isspace c = false.
Proof.
  intros H. apply not_true_is_false. intros H'.
  apply isspace_not_isword in H'. congruence.
Qed.

(** The punctuation of the pattern and of the replacement is in no class
    that could swallow it. *)
Lemma isword_punct c :
  isword c = true -> c <> EQUALS /\ c <> SEMI /\ c <> SPACE /\ c <> LF /\ c <> CR.
Proof.
  unfold isword, EQUALS, SEMI, SPACE, LF, CR. destruct (c <? 128) eqn:E.
  - intros H. bool_hyps; lia.
  - intros _. bool_hyps. lia.
Qed.

Lemma isspace_punct c : isspace c = true -> c <> EQUALS /\ c <> SEMI.
Proof.
  unfold isspace, EQUALS, SEMI. destruct (c <? 128) eqn:E.
  - intros H. bool_hyps; lia.
  - intros _. bool_hyps. lia.
Qed.

Lemma isdigit_punct c : isdigit c = true -> c <> EQUALS /\ c <> SEMI.
Proof. intros H. apply isdigit_isword, isword_punct in H. tauto. Qed.

Lemma isspace_SPACE : isspace SPACE = true.
Proof. reflexivity. Qed.

Lemma isword_SEMI : isword SEMI = false.
Proof. reflexivity. Qed.

End ClassFacts.

(** ** Prefixes and runs *)

Lemma startswith_spec (p s : text) :
  startswith p s = true <-> exists t, s = p ++ t.
Proof.
  revert s. induction p as [|x p IH]; intros s; simpl.
  - split; eauto.
  - destruct s as [|y s].
    + split; [discriminate | intros [t Ht]; discriminate].
    + rewrite andb_true_iff, N.eqb_eq, IH. split.
      * intros [-> [t ->]]. eauto.
      * intros [t Ht]. injection Ht as -> ->. eauto.
Qed.

Lemma text_eqb_spec (a b : text) : text_eqb a b = true <-> a = b.
Proof.
  revert b. induction a as [|x a IH]; intros [|y b]; simpl;
    try (split; [discriminate | discriminate]); [tauto|].
  rewrite andb_true_iff, N.eqb_eq, IH. split.
  - now intros [-> ->].
  - intros H. now injection H.
Qed.

Lemma text_eqb_refl (a : text) : text_eqb a a = true.
Proof. now apply text_eqb_spec. Qed.

Lemma take_drop_while f (s : text) : take_while f s ++ drop_while f s = s.
Proof. induction s as [|c s IH]; simpl; [|destruct (f c); simpl]; congruence. Qed.

Lemma take_while_all f (s : text) : forallb f (take_while f s) = true.
Proof.
  induction s as [|c s IH]; simpl; [|destruct (f c) eqn:E; simpl; rewrite ?E];
    auto.
Qed.

Lemma drop_while_head f (s : text) c t : drop_while f s = c :: t -> f c = false.
Proof.
  induction s as [|d s IH]; simpl; [discriminate|].
  destruct (f d) eqn:E; [auto|]. congruence.
Qed.

Lemma run_app f (a b : text) :
  forallb f a = true -> stops f b ->
  take_while f (a ++ b) = a /\ drop_while f (a ++ b) = b.
Proof.
  intros Ha Hb. induction a as [|c a IH]; simpl in *.
  - destruct b as [|d b]; simpl in *; [auto|]. now rewrite Hb.
  - apply andb_true_iff in Ha as [-> Ha]. destruct (IH Ha) as [-> ->]. auto.
Qed.

Lemma captured_app (a b : text) : captured (a ++ b) b = a.
Proof.
  unfold captured. rewrite length_app.
  replace (length a + length b - length b)%nat with (length a) by lia.
  apply take_app_length.
Qed.

(** ** The backtracking matcher is deterministic on these patterns *)

Section Determinism.
Context {U : Unicode}.

(** When what follows rejects every text that starts in the class, a star
    takes the whole run. *)
Lemma re_star_det {R} f (k : text -> option R) (s : text) :
  (forall c t, f c = true -> k (c :: t) = None) ->
  re_star f k s = k (drop_while f s).
Proof.
  intros Hk. induction s as [|c s IH]; simpl; [reflexivity|].
  destruct (f c) eqn:E; [|reflexivity].
  rewrite IH. destruct (k (drop_while f s)); [reflexivity|]. now apply Hk.
Qed.

Lemma re_lit1_reject {R} x (k : text -> option R) c t :
  c <> x -> re_lit [x] k (c :: t) = None.
Proof.
  intros H. unfold re_lit. simpl.
  destruct (N.eqb_spec x c); [congruence|reflexivity].
Qed.

Lemma re_lit1 {R} x (k : text -> option R) (s : text) :
  re_lit [x] k s =
  match s with
  | c :: t => if c =? x then k t else None
  | [] => None
  end.
Proof.
  unfold re_lit. destruct s as [|c t]; simpl; [reflexivity|].
  rewrite (N.eqb_sym x c). destruct (c =? x); reflexivity.
Qed.

Lemma re_plus_det {R} f (k : text -> option R) (s : text) :
  (forall c t, f c = true -> k (c :: t) = None) ->
  re_plus f k s =
  match take_while f s with
  | [] => None
  | _ => k (drop_while f s)
  end.
Proof.
  intros Hk. destruct s as [|c s]; simpl; [reflexivity|].
  destruct (f c); [|reflexivity]. now apply re_star_det.
Qed.

(** [\s*=\s*(\d+)\s*;] after a first group [g] *)
Lemma re_tail_det (g : text) (s1 : text) :
  re_star isspace (re_lit [EQUALS] (re_star isspace (fun s2 =>
    re_plus isdigit (fun s3 =>
      re_star isspace (re_lit [SEMI] (fun s4 =>
        Some (g, captured s2 s3, s4))) s3) s2))) s1
  = match match_tail s1 with
    | Some (num, rest) => Some (g, num, rest)
    | None => None
    end.
Proof.
  unfold match_tail.
  rewrite re_star_det
    by (intros c t H; apply re_lit1_reject, (isspace_punct c H)).
  rewrite re_lit1. destruct (drop_while isspace s1) as [|c s2]; [reflexivity|].
  destruct (c =? EQUALS); [|reflexivity].
  rewrite re_star_det.
  2:{ intros d t H. simpl. now rewrite (isspace_not_isdigit d H). }
  set (s3 := drop_while isspace s2).
  rewrite re_plus_det.
  2:{ intros d t H. simpl. rewrite (isdigit_not_isspace d H).
      apply re_lit1_reject, (isdigit_punct d H). }
  assert (Hc : captured s3 (drop_while isdigit s3) = take_while isdigit s3).
  { rewrite <- (take_drop_while isdigit s3) at 1. apply captured_app. }
  destruct (take_while isdigit s3) as [|d num] eqn:E; [reflexivity|].
  rewrite re_star_det
    by (intros c' t H; apply re_lit1_reject, (isspace_punct c' H)).
  rewrite re_lit1, Hc.
  destruct (drop_while isspace (drop_while isdigit s3)) as [|e rest];
    [reflexivity|].
  destruct (e =? SEMI); reflexivity.
Qed.

Lemma startswith_spr_word (s : text) :
  startswith (str "spr") s = true ->
  startswith (str "spr") (take_while isword s) = true
  /\ drop_while isword (drop 3 s) = drop_while isword s.
Proof.
  intros H. apply startswith_spec in H as [t ->]. split; reflexivity.
Qed.

Lemma startswith_take_while f p (s : text) :
  startswith p (take_while f s) = true -> startswith p s = true.
Proof.
  intros H. apply startswith_spec in H as [t Ht]. apply startswith_spec.
  exists (t ++ drop_while f s).
  rewrite <- (take_drop_while f s) at 1. rewrite Ht. now rewrite <- app_assoc.
Qed.

(** [\w*spr\w*]: whichever occurrence of [spr] the first star settles on,
    the group is the whole run of word characters. *)
Lemma re_var_anyspr_det {R} (k : text -> option R) (s : text) :
  (forall c t, isword c = true -> k (c :: t) = None) ->
  re_star isword (re_lit (str "spr") (re_star isword k)) s
  = if contains (str "spr") (take_while isword s)
    then k (drop_while isword s) else None.
Proof.
  intros Hk.
  assert (Hlit : forall t : text,
    re_lit (str "spr") (re_star isword k) t
    = if startswith (str "spr") t then k (drop_while isword t) else None).
  { intros t. unfold re_lit. destruct (startswith (str "spr") t) eqn:E;
      [|reflexivity].
    rewrite re_star_det by exact Hk.
    change (length (str "spr")) with 3%nat.
    now destruct (startswith_spr_word t E) as [_ ->]. }
  induction s as [|c s IH].
  - simpl. rewrite Hlit. reflexivity.
  - cbn [re_star]. rewrite IH, Hlit. cbn [take_while drop_while].
    destruct (isword c) eqn:Ec.
    + cbn [contains].
      destruct (contains (str "spr") (take_while isword s)) eqn:Es.
      * rewrite orb_true_r.
        destruct (k (drop_while isword s)) eqn:Ek; [reflexivity|].
        now destruct (startswith (str "spr") (c :: s)).
      * rewrite orb_false_r.
        destruct (startswith (str "spr") (c :: s)) eqn:E1.
        -- destruct (startswith_spr_word _ E1) as [H1 _].
           cbn [take_while] in H1. rewrite Ec in H1. now rewrite H1.
        -- destruct (startswith (str "spr") (c :: take_while isword s)) eqn:E2;
             [|reflexivity].
           assert (H2 : startswith (str "spr") (take_while isword (c :: s)) = true)
             by (cbn [take_while]; now rewrite Ec).
           apply startswith_take_while in H2. congruence.
    + cbn [contains]. destruct (startswith (str "spr") (c :: s)) eqn:E1;
        [|reflexivity].
      apply startswith_spec in E1 as [t Ht]. injection Ht as -> _.
      discriminate Ec.
Qed.

(** The match [re] finds at a position is the one [match_at] describes. *)
Lemma re_match_det (var : sprite_var) (s : text) :
  re_match var s = match_at var s.
Proof.
  unfold re_match, match_at, match_var, re_var. destruct var.
  - unfold re_lit at 1. destruct (startswith (str "sprite_index") s) eqn:E;
      [|reflexivity].
    change (length (str "sprite_index")) with 12%nat.
    rewrite re_tail_det.
    apply startswith_spec in E as [t ->].
    change (drop 12 (str "sprite_index" ++ t)) with t.
    destruct (match_tail t) as [[num rest]|]; [|reflexivity].
    now rewrite captured_app.
  - rewrite re_var_anyspr_det.
    + destruct (contains (str "spr") (take_while isword s)); [|reflexivity].
      rewrite re_tail_det.
      destruct (match_tail (drop_while isword s)) as [[num rest]|];
        [|reflexivity].
      rewrite <- (take_drop_while isword s) at 1. now rewrite captured_app.
    + intros c t H. cbn [re_star]. rewrite (isword_not_isspace c H).
      apply re_lit1_reject. apply (isword_punct c H).
Qed.

End Determinism.

(** ** What a match looks like *)

Section MatchShape.
Context {U : Unicode}.

Lemma forallb_app_true (f : N -> bool) (a b : text) :
  forallb f (a ++ b) = true <-> forallb f a = true /\ forallb f b = true.
Proof. rewrite forallb_app, andb_true_iff. tauto. Qed.

Lemma match_tail_intro (ws1 ws2 num ws3 rest : text) :
  forallb isspace ws1 = true -> forallb isspace ws2 = true ->
  forallb isdigit num = true -> num <> [] -> forallb isspace ws3 = true ->
  match_tail (ws1 ++ EQUALS :: ws2 ++ num ++ ws3 ++ SEMI :: rest)
  = Some (num, rest).
Proof.
  intros H1 H2 Hn Hne H3. unfold match_tail.
  destruct (run_app isspace ws1 (EQUALS :: ws2 ++ num ++ ws3 ++ SEMI :: rest))
    as [_ ->]; [assumption|reflexivity|].
  rewrite N.eqb_refl. cbv zeta.
  assert (Hs : stops isdigit (ws3 ++ SEMI :: rest)).
  { destruct ws3 as [|c ws3]; simpl; [reflexivity|].
    simpl in H3. apply andb_true_iff in H3 as [H3 _].
    now apply isspace_not_isdigit. }
  assert (Hs2 : stops isspace (num ++ ws3 ++ SEMI :: rest)).
  { destruct num as [|c num]; [congruence|]. simpl in *.
    apply andb_true_iff in Hn as [Hn _]. now apply isdigit_not_isspace. }
  destruct (run_app isspace ws2 _ H2 Hs2) as [_ ->].
  destruct (run_app isdigit num _ Hn Hs) as [-> ->].
  destruct num as [|c num]; [congruence|].
  destruct (run_app isspace ws3 (SEMI :: rest)) as [_ ->];
    [assumption|reflexivity|].
  now rewrite N.eqb_refl.
Qed.

Lemma match_tail_elim (s num rest : text) :
  match_tail s = Some (num, rest) ->
  exists ws1 ws2 ws3,
    s = ws1 ++ EQUALS :: ws2 ++ num ++ ws3 ++ SEMI :: rest
    /\ forallb isspace ws1 = true /\ forallb isspace ws2 = true
    /\ forallb isdigit num = true /\ num <> []
    /\ forallb isspace ws3 = true.
Proof.
  unfold match_tail. intros H.
  destruct (drop_while isspace s) as [|c s2] eqn:E1; [discriminate|].
  destruct (N.eqb_spec c EQUALS) as [->|]; [|discriminate]. cbv zeta in H.
  set (s3 := drop_while isspace s2) in *.
  destruct (take_while isdigit s3) as [|d n] eqn:E2; [discriminate|].
  destruct (drop_while isspace (drop_while isdigit s3)) as [|e r] eqn:E3;
    [discriminate|].
  destruct (N.eqb_spec e SEMI) as [->|]; [|discriminate].
  injection H as <- <-.
  exists (take_while isspace s), (take_while isspace s2),
    (take_while isspace (drop_while isdigit s3)).
  repeat split; try apply take_while_all.
  - rewrite <- E3, take_drop_while, <- E2, take_drop_while.
    unfold s3. now rewrite take_drop_while, <- E1, take_drop_while.
  - rewrite <- E2. apply take_while_all.
  - discriminate.
Qed.

Lemma var_shape_nonempty var (v : text) : var_shape var v = true -> v <> [].
Proof.
  destruct var; simpl; intros H ->; [discriminate|].
  now rewrite andb_false_r in H.
Qed.

Lemma var_shape_word var (v : text) :
  var_shape var v = true -> forallb isword v = true.
Proof.
  destruct var; simpl; intros H.
  - apply text_eqb_spec in H as ->. reflexivity.
  - now apply andb_true_iff in H as [H _].
Qed.

Lemma stops_word_tail (ws1 : text) t :
  forallb isspace ws1 = true -> stops isword (ws1 ++ EQUALS :: t).
Proof.
  destruct ws1 as [|c ws1]; simpl; [reflexivity|]. intros H.
  apply andb_true_iff in H as [H _]. now apply isspace_not_isword.
Qed.

(** Every text that starts with an assignment of the shape matches there,
    with these groups. *)
Lemma match_at_intro var (v ws1 ws2 num ws3 rest : text) :
  var_shape var v = true ->
  forallb isspace ws1 = true -> forallb isspace ws2 = true ->
  forallb isdigit num = true -> num <> [] -> forallb isspace ws3 = true ->
  match_at var (v ++ ws1 ++ EQUALS :: ws2 ++ num ++ ws3 ++ SEMI :: rest)
  = Some (v, num, rest).
Proof.
  intros Hv H1 H2 Hn Hne H3. unfold match_at.
  assert (Hvar : match_var var
            (v ++ ws1 ++ EQUALS :: ws2 ++ num ++ ws3 ++ SEMI :: rest)
          = Some (v, ws1 ++ EQUALS :: ws2 ++ num ++ ws3 ++ SEMI :: rest)).
  { destruct var; simpl in Hv |- *.
    - apply text_eqb_spec in Hv as ->. reflexivity.
    - apply andb_true_iff in Hv as [Hw Hc].
      destruct (run_app isword v
                  (ws1 ++ EQUALS :: ws2 ++ num ++ ws3 ++ SEMI :: rest))
        as [-> ->]; [assumption|now apply stops_word_tail|].
      now rewrite Hc. }
  rewrite Hvar. now rewrite match_tail_intro.
Qed.

(** And these are the only matches. *)
Lemma match_at_elim var (s v num rest : text) :
  match_at var s = Some (v, num, rest) ->
  exists ws1 ws2 ws3,
    s = v ++ ws1 ++ EQUALS :: ws2 ++ num ++ ws3 ++ SEMI :: rest
    /\ var_shape var v = true
    /\ forallb isspace ws1 = true /\ forallb isspace ws2 = true
    /\ forallb isdigit num = true /\ num <> []
    /\ forallb isspace ws3 = true.
Proof.
  unfold match_at. intros H.
  destruct (match_var var s) as [[v' t]|] eqn:Ev; [|discriminate].
  destruct (match_tail t) as [[n r]|] eqn:Et; [|discriminate].
  assert (v' = v /\ n = num /\ r = rest) as (-> & -> & ->)
    by (repeat split; congruence).
  assert (Hs : s = v ++ t /\ var_shape var v = true).
  { destruct var; unfold match_var in Ev.
    - destruct (startswith (str "sprite_index") s) eqn:E; [|discriminate].
      assert (v = str "sprite_index" /\ t = drop 12 s) as [-> ->]
        by (split; congruence).
      apply startswith_spec in E as [t' ->]. split; reflexivity.
    - destruct (contains (str "spr") (take_while isword s)) eqn:E;
        [|discriminate].
      assert (v = take_while isword s /\ t = drop_while isword s) as [-> ->]
        by (split; congruence).
      split; [symmetry; apply take_drop_while|].
      simpl. now rewrite take_while_all, E. }
  destruct Hs as [-> Hv].
  apply match_tail_elim in Et as (ws1 & ws2 & ws3 & -> & H1 & H2 & Hn & Hne & H3).
  exists ws1, ws2, ws3. repeat split; assumption.
Qed.

(** A match does not look past its semicolon. *)
Lemma match_at_app var (s v num rest t : text) :
  match_at var s = Some (v, num, rest) ->
  match_at var (s ++ t) = Some (v, num, rest ++ t).
Proof.
  intros H.
  apply match_at_elim in H as (ws1 & ws2 & ws3 & -> & Hv & H1 & H2 & Hn & Hne & H3).
  repeat (rewrite <- app_assoc; simpl).
  now apply match_at_intro.
Qed.

End MatchShape.

(** ** [re.sub], one match at a time *)

Section SubFacts.
Context {U : Unicode}.
Variable sprite_map : gmap text text.
Variable filename : text.
Variable var : sprite_var.
Variable idx : nat.
Variable orig_line : text.

Local Abbreviation sub := (re_sub sprite_map filename var idx orig_line).
Local Abbreviation sub_from := (re_sub_from sprite_map filename var idx orig_line).

Lemma re_sub_from_skip (k : nat) (s : text) : sub_from k s = sub (drop k s).
Proof.
  revert k. induction s as [|c s IH]; intros [|k]; try reflexivity.
  simpl. apply IH.
Qed.

Lemma re_sub_nil : sub [] = ([], []).
Proof. reflexivity. Qed.

Lemma re_sub_nomatch c (s : text) :
  match_at var (c :: s) = None ->
  sub (c :: s) = (c :: fst (sub s), snd (sub s)).
Proof.
  intros H. unfold re_sub. cbn [re_sub_from]. rewrite re_match_det, H.
  now destruct (re_sub_from _ _ _ _ _ 0 s).
Qed.

Lemma match_at_length (s v num rest : text) :
  match_at var s = Some (v, num, rest) ->
  exists m, s = m ++ rest /\ m <> [].
Proof.
  intros H.
  apply match_at_elim in H as (ws1 & ws2 & ws3 & -> & Hv & _).
  exists (v ++ ws1 ++ EQUALS :: ws2 ++ num ++ ws3 ++ [SEMI]). split.
  - repeat (rewrite <- app_assoc; simpl). reflexivity.
  - apply var_shape_nonempty in Hv. now destruct v.
Qed.

Lemma re_sub_match (s v num rest : text) :
  match_at var s = Some (v, num, rest) ->
  sub s =
  (fst (repl sprite_map filename idx orig_line (captured s rest) v num)
     ++ fst (sub rest),
   snd (repl sprite_map filename idx orig_line (captured s rest) v num)
     ++ snd (sub rest)).
Proof.
  intros H. destruct (match_at_length _ _ _ _ H) as (m & -> & Hm).
  destruct m as [|c m]; [congruence|].
  unfold re_sub. cbn [re_sub_from app].
  change (c :: m ++ rest) with ((c :: m) ++ rest).
  rewrite re_match_det, H. cbv zeta. unfold captured.
  destruct (repl _ _ _ _ _ _ _) as [out ev].
  rewrite re_sub_from_skip.
  replace (length ((c :: m) ++ rest) - length rest - 1)%nat with (length m)
    by (rewrite length_app; simpl; lia).
  rewrite drop_app_length. unfold re_sub.
  now destruct (re_sub_from _ _ _ _ _ 0 rest).
Qed.

(** Induction along the scan. *)
Lemma re_sub_ind (P : text -> Prop) :
  P [] ->
  (forall c s, match_at var (c :: s) = None -> P s -> P (c :: s)) ->
  (forall s v num rest,
     match_at var s = Some (v, num, rest) -> P rest -> P s) ->
  forall s, P s.
Proof.
  intros Hnil Hno Hyes s.
  induction s as [s IH] using (induction_ltof1 _ (@length N)).
  unfold ltof in IH.
  destruct (match_at var s) as [[[v num] rest]|] eqn:E.
  - apply (Hyes _ _ _ _ E), IH.
    destruct (match_at_length _ _ _ _ E) as (m & -> & Hm).
    rewrite length_app. destruct m; [congruence|simpl; lia].
  - destruct s as [|c s]; [assumption|]. apply (Hno _ _ E), IH. simpl. lia.
Qed.

(** What [repl] does with a match. *)
Lemma repl_key (g0 v num value : text) :
  sprite_map !! num = Some value ->
  repl sprite_map filename idx orig_line g0 v num
  = (fragment v value,
     [(message filename idx orig_line (fragment v value),
       (orig_line, fragment v value, idx))]).
Proof. unfold repl. now intros ->. Qed.

Lemma repl_no_key (g0 v num : text) :
  sprite_map !! num = None ->
  repl sprite_map filename idx orig_line g0 v num = (g0, []).
Proof. unfold repl. now intros ->. Qed.

End SubFacts.

(** ** Lines of one assignment *)

Section OneAssignment.
Context {U : Unicode}.
Variable sprite_map : gmap text text.
Variable filename : text.
Variable idx : nat.
Variable orig_line : text.

Local Abbreviation sub var := (re_sub sprite_map filename var idx orig_line).

Lemma match_at_head var c (s v num rest : text) :
  match_at var (c :: s) = Some (v, num, rest) -> isword c = true.
Proof.
  intros H.
  apply match_at_elim in H as (ws1 & ws2 & ws3 & E & Hv & _).
  pose proof (var_shape_nonempty _ _ Hv) as Hne.
  apply var_shape_word in Hv. destruct v as [|d v]; [congruence|].
  injection E as <- _. simpl in Hv. now apply andb_true_iff in Hv as [Hv _].
Qed.

Lemma match_at_not_word var c (s : text) :
  isword c = false -> match_at var (c :: s) = None.
Proof.
  intros H. destruct (match_at var (c :: s)) as [[[v num] rest]|] eqn:E;
    [|reflexivity].
  apply match_at_head in E. congruence.
Qed.

(** Text outside the word class is copied. *)
Lemma re_sub_skip var (a s : text) :
  forallb (fun c => negb (isword c)) a = true ->
  sub var (a ++ s) = (a ++ fst (sub var s), snd (sub var s)).
Proof.
  intros Ha. induction a as [|c a IH]; simpl.
  - now destruct (sub var s).
  - simpl in Ha. apply andb_true_iff in Ha as [Hc Ha].
    rewrite re_sub_nomatch, (IH Ha); [reflexivity|].
    apply match_at_not_word. now apply negb_true_iff.
Qed.

Lemma spaces_not_word (a : text) :
  forallb isspace a = true -> forallb (fun c => negb (isword c)) a = true.
Proof.
  induction a as [|c a IH]; simpl; [reflexivity|].
  intros H. apply andb_true_iff in H as [Hc Ha].
  now rewrite (isspace_not_isword c Hc), IH.
Qed.

(** The substitution at an assignment the scan has reached. *)
Lemma re_sub_assignment var (v ws1 ws2 digits ws3 rest : text) :
  var_shape var v = true ->
  forallb isspace ws1 = true -> forallb isspace ws2 = true ->
  forallb isdigit digits = true -> digits <> [] ->
  forallb isspace ws3 = true ->
  sub var (assignment v ws1 ws2 digits ws3 ++ rest)
  = (fst (repl sprite_map filename idx orig_line
            (assignment v ws1 ws2 digits ws3) v digits)
       ++ fst (sub var rest),
     snd (repl sprite_map filename idx orig_line
            (assignment v ws1 ws2 digits ws3) v digits)
       ++ snd (sub var rest)).
Proof.
  intros Hv H1 H2 Hn Hne H3.
  assert (E : assignment v ws1 ws2 digits ws3 ++ rest
              = v ++ ws1 ++ EQUALS :: ws2 ++ digits ++ ws3 ++ SEMI :: rest).
  { unfold assignment. repeat (rewrite <- app_assoc; simpl). reflexivity. }
  rewrite (re_sub_match _ _ _ _ _ _ v digits rest).
  - now rewrite captured_app.
  - rewrite E. now apply match_at_intro.
Qed.

(** [sprite_index] does not match where more word characters follow it. *)
Lemma sprite_index_inside_word (w t : text) :
  forallb isword w = true -> w <> [] ->
  match_at SpriteIndex (w ++ str "sprite_index" ++ t) = None.
Proof.
  intros Hw Hne. unfold match_at, match_var.
  destruct (startswith _ _); [|reflexivity].
  rewrite app_assoc, drop_app_le by (rewrite length_app; simpl; lia).
  assert (Hd : forallb isword (drop 12 (w ++ str "sprite_index")) = true).
  { assert (Hall : forallb isword (w ++ str "sprite_index") = true)
      by (apply forallb_app_true; split; [assumption|reflexivity]).
    rewrite <- (take_drop 12 (w ++ str "sprite_index")) in Hall.
    now apply forallb_app_true in Hall as [_ Hall]. }
  destruct (drop 12 (w ++ str "sprite_index")) as [|c r] eqn:E.
  - apply (f_equal length) in E. rewrite length_drop, length_app in E.
    destruct w; [congruence|simpl in E; lia].
  - simpl in Hd. apply andb_true_iff in Hd as [Hc _].
    unfold match_tail. cbn [app drop_while].
    rewrite (isword_not_isspace c Hc).
    destruct (N.eqb_spec c EQUALS) as [->|]; [discriminate|reflexivity].
Qed.

(** Word characters in front of [sprite_index] are passed over, and the
    match starts at [sprite_index]. *)
Lemma re_sub_inside_identifier (prefix ws1 ws2 digits ws3 rest value : text) :
  forallb isword prefix = true ->
  forallb isspace ws1 = true -> forallb isspace ws2 = true ->
  forallb isdigit digits = true -> digits <> [] ->
  forallb isspace ws3 = true ->
  sprite_map !! digits = Some value ->
  sub SpriteIndex
    (prefix ++ assignment (str "sprite_index") ws1 ws2 digits ws3 ++ rest)
  = (prefix ++ fragment (str "sprite_index") value
       ++ fst (sub SpriteIndex rest),
     (message filename idx orig_line (fragment (str "sprite_index") value),
      (orig_line, fragment (str "sprite_index") value, idx))
       :: snd (sub SpriteIndex rest)).
Proof.
  intros Hp H1 H2 Hn Hne H3 Hk. induction prefix as [|c p IH].
  - cbn [app]. rewrite re_sub_assignment by (assumption || reflexivity).
    now rewrite (repl_key _ _ _ _ _ _ _ _ Hk).
  - pose proof Hp as Hp'. simpl in Hp'.
    apply andb_true_iff in Hp' as [_ Hp'].
    cbn [app]. rewrite re_sub_nomatch, (IH Hp'); [reflexivity|].
    change (c :: p ++ assignment (str "sprite_index") ws1 ws2 digits ws3
              ++ rest)
      with ((c :: p) ++ str "sprite_index"
              ++ (ws1 ++ EQUALS :: ws2 ++ digits ++ ws3 ++ [SEMI]) ++ rest).
    now apply sprite_index_inside_word.
Qed.

End OneAssignment.

(** ** Lines with a single [=] *)

Section SingleEquals.
Context {U : Unicode}.

Lemma class_not_elem (f : N -> bool) x (l : text) :
  forallb f l = true -> f x = false -> x ∉ l.
Proof.
  intros Hl Hx Hin. induction l as [|c l IH]; [inversion Hin|].
  simpl in Hl. apply andb_true_iff in Hl as [Hc Hl].
  apply elem_of_cons in Hin as [->|Hin]; [congruence|auto].
Qed.

Lemma split_unique x (a b a' b' : text) :
  a ++ x :: b = a' ++ x :: b' -> x ∉ a -> x ∉ b -> a = a' /\ b = b'.
Proof.
  revert a'. induction a as [|c a IH]; intros a' E Ha Hb.
  - destruct a' as [|c' a']; simpl in E.
    + split; congruence.
    + exfalso. apply Hb. injection E as -> ->. set_solver.
  - apply not_elem_of_cons in Ha as [Hc Ha].
    destruct a' as [|c' a']; simpl in E; [congruence|].
    injection E as -> E. destruct (IH _ E Ha Hb) as [-> ->]. auto.
Qed.

Lemma tail_digits_unique (ws2 d ws3 r ws2' d' ws3' r' : text) :
  ws2 ++ d ++ ws3 ++ SEMI :: r = ws2' ++ d' ++ ws3' ++ SEMI :: r' ->
  forallb isspace ws2 = true -> forallb isspace ws2' = true ->
  forallb isdigit d = true -> forallb isdigit d' = true ->
  d <> [] -> d' <> [] ->
  forallb isspace ws3 = true -> forallb isspace ws3' = true ->
  d = d'.
Proof.
  intros E H2 H2' Hd Hd' Hne Hne' H3 H3'.
  assert (Hs : forall (n w q : text), forallb isdigit n = true -> n <> [] ->
            stops isspace (n ++ w ++ SEMI :: q)).
  { intros [|c n] w q Hn Hq; [congruence|]. simpl in *.
    apply andb_true_iff in Hn as [Hn _]. now apply isdigit_not_isspace. }
  assert (Ht : forall (w q : text), forallb isspace w = true ->
            stops isdigit (w ++ SEMI :: q)).
  { intros [|c w] q Hw; simpl in *; [reflexivity|].
    apply andb_true_iff in Hw as [Hw _]. now apply isspace_not_isdigit. }
  apply (f_equal (drop_while isspace)) in E.
  destruct (run_app isspace ws2 _ H2 (Hs d ws3 r Hd Hne)) as [_ E1].
  destruct (run_app isspace ws2' _ H2' (Hs d' ws3' r' Hd' Hne')) as [_ E1'].
  rewrite E1, E1' in E.
  apply (f_equal (take_while isdigit)) in E.
  destruct (run_app isdigit d _ Hd (Ht ws3 r H3)) as [E2 _].
  destruct (run_app isdigit d' _ Hd' (Ht ws3' r' H3')) as [E2' _].
  congruence.
Qed.

(** In a line that is one assignment between white space, every match of
    either shape, wherever it starts, has the digits of the assignment. *)
Lemma one_assignment_digits var (v ws1 ws2 digits ws3 indent eol : text)
    var' i (v' num rest : text) :
  var_shape var v = true ->
  forallb isspace ws1 = true -> forallb isspace ws2 = true ->
  forallb isdigit digits = true -> digits <> [] ->
  forallb isspace ws3 = true ->
  forallb isspace indent = true -> forallb isspace eol = true ->
  match_at var' (drop i (indent ++ assignment v ws1 ws2 digits ws3 ++ eol))
  = Some (v', num, rest) ->
  num = digits.
Proof.
  intros Hv H1 H2 Hn Hne H3 Hi He Hm.
  apply match_at_elim in Hm
    as (ws1' & ws2' & ws3' & E & Hv' & H1' & H2' & Hn' & Hne' & H3').
  set (line := indent ++ assignment v ws1 ws2 digits ws3 ++ eol) in *.
  assert (El : line = (indent ++ v ++ ws1)
                 ++ EQUALS :: (ws2 ++ digits ++ ws3 ++ SEMI :: eol)).
  { unfold line, assignment. repeat (rewrite <- app_assoc; simpl). reflexivity. }
  assert (El' : line = (take i line ++ v' ++ ws1')
                  ++ EQUALS :: (ws2' ++ num ++ ws3' ++ SEMI :: rest)).
  { rewrite <- (take_drop i line) at 1. rewrite E.
    repeat (rewrite <- app_assoc; simpl). reflexivity. }
  rewrite El in El'.
  pose proof (var_shape_word _ _ Hv) as Hw.
  apply split_unique in El' as [_ Et].
  - symmetry. eapply tail_digits_unique; eauto.
  - rewrite !not_elem_of_app. repeat split.
    + apply (class_not_elem isspace); [assumption|reflexivity].
    + apply (class_not_elem isword); [assumption|reflexivity].
    + apply (class_not_elem isspace); [assumption|reflexivity].
  - rewrite !not_elem_of_app, not_elem_of_cons. repeat split.
    + apply (class_not_elem isspace); [assumption|reflexivity].
    + apply (class_not_elem isdigit); [assumption|reflexivity].
    + apply (class_not_elem isspace); [assumption|reflexivity].
    + discriminate.
    + apply (class_not_elem isspace); [assumption|reflexivity].
Qed.

Lemma inactive_drop sprite_map var (s : text) k :
  inactive sprite_map var s -> inactive sprite_map var (drop k s).
Proof.
  intros H i v num rest Hm. rewrite drop_drop in Hm. eapply H; eauto.
Qed.

(** Without an accepted match the text is returned as it is, and [repl]
    records nothing. *)
Lemma re_sub_inactive sprite_map filename var idx orig_line (s : text) :
  inactive sprite_map var s ->
  re_sub sprite_map filename var idx orig_line s = (s, []).
Proof.
  induction s as [|c s Hno IH|s v num rest Hm IH] using (re_sub_ind var);
    intros Hin.
  - reflexivity.
  - rewrite re_sub_nomatch by assumption.
    now rewrite IH by apply (inactive_drop _ _ _ 1 Hin).
  - rewrite (re_sub_match _ _ _ _ _ _ _ _ _ Hm).
    rewrite repl_no_key by apply (Hin 0%nat _ _ _ Hm).
    destruct (match_at_length _ _ _ _ _ Hm) as (m & -> & _).
    rewrite captured_app, IH; [now rewrite app_nil_r|].
    replace rest with (drop (length m) (m ++ rest)) by apply drop_app_length.
    now apply inactive_drop.
Qed.

End SingleEquals.

(** ** The substitution rule *)

(** C10: the shape [sprite_index] has no word boundary.  In a line where
    [sprite_index = digits;] follows directly on more word characters and
    the digits are a key, the rule matches inside the longer identifier:
    the prefix stays where it is, only the span from [sprite_index] on is
    rewritten, and the replacement recorded names [sprite_index], not the
    whole identifier.  So [my_sprite_index = 12;] becomes
    [my_sprite_index = spr_player_idle;] with the recorded new text
    [sprite_index = spr_player_idle;]. *)
Theorem C10_sprite_index_inside_identifier {U : Unicode}
    (sprite_map : gmap text text) (filename : text) (idx : nat)
    (orig_line prefix ws1 ws2 digits ws3 rest value : text) :
  forallb isword prefix = true ->
  forallb isspace ws1 = true -> forallb isspace ws2 = true ->
  forallb isdigit digits = true -> digits <> [] ->
  forallb isspace ws3 = true ->
  sprite_map !! digits = Some value ->
  re_sub sprite_map filename SpriteIndex idx orig_line
    (prefix ++ assignment (str "sprite_index") ws1 ws2 digits ws3 ++ rest)
  = (prefix ++ fragment (str "sprite_index") value
       ++ fst (re_sub sprite_map filename SpriteIndex idx orig_line rest),
     (message filename idx orig_line (fragment (str "sprite_index") value),
      (orig_line, fragment (str "sprite_index") value, idx))
       :: snd (re_sub sprite_map filename SpriteIndex idx orig_line rest))
  /\ sub_line {[ str "12" := str "spr_player_idle" ]} filename idx
       (str "my_sprite_index = 12;")
     = (str "my_sprite_index = spr_player_idle;",
        [(message filename idx (str "my_sprite_index = 12;")
            (str "sprite_index = spr_player_idle;"),
          (str "my_sprite_index = 12;",
           str "sprite_index = spr_player_idle;", idx))]).
Proof.
  intros Hp H1 H2 Hn Hne H3 Hk. split.
  - now apply re_sub_inside_identifier.
  - unfold sub_line, SPRITE_VARS, sub_vars, re_sub. now vm_compute.
Qed.

Lemma C10_witness :
  re_sub (U := ascii_only) {[ str "12" := str "spr_player_idle" ]}
    (str "obj_player.gml") SpriteIndex 3 (str "my_sprite_index = 12;")
    (str "my_" ++ assignment (str "sprite_index") [SPACE] [SPACE] (str "12") []
       ++ [])
  = (str "my_sprite_index = spr_player_idle;",
     [(message (str "obj_player.gml") 3 (str "my_sprite_index = 12;")
         (str "sprite_index = spr_player_idle;"),
       (str "my_sprite_index = 12;", str "sprite_index = spr_player_idle;",
        3%nat))]).
Proof.
  apply (C10_sprite_index_inside_identifier (U := ascii_only)
           {[ str "12" := str "spr_player_idle" ]} (str "obj_player.gml") 3
           (str "my_sprite_index = 12;") (str "my_") [SPACE] [SPACE]
           (str "12") [] [] (str "spr_player_idle"));
    try reflexivity.
  discriminate.
Defined.

(** ** The pass over a file *)

Section FilePass.
Context {U : Unicode}.
Variable sprite_map : gmap text text.
Variable filename : text.
Variables gui_log_callback file_log_callback : bool.

Lemma state_eta (st : state) :
  State (fs st) (log_f st) (gui_log st) (status_log st) = st.
Proof. now destruct st. Qed.

Lemma emit_nil (st : state) :
  emit gui_log_callback file_log_callback [] st = st.
Proof.
  unfold emit. destruct st, gui_log_callback, file_log_callback; simpl;
    now rewrite !app_nil_r.
Qed.

Lemma emit_app (ev1 ev2 : list event) (st : state) :
  emit gui_log_callback file_log_callback ev2
    (emit gui_log_callback file_log_callback ev1 st)
  = emit gui_log_callback file_log_callback (ev1 ++ ev2) st.
Proof.
  unfold emit. simpl. f_equal.
  - destruct file_log_callback; [|now rewrite !app_nil_r].
    now rewrite map_app, concat_app, app_assoc.
  - destruct gui_log_callback; [|now rewrite !app_nil_r].
    now rewrite map_app, app_assoc.
Qed.

Lemma log_events_spec (events : list event) (st : state) :
  foldM (fun _ e => log_event gui_log_callback file_log_callback e) tt
    events st
  = (emit gui_log_callback file_log_callback events st, Ok tt).
Proof.
  revert st. induction events as [|e events IH]; intros st.
  - now rewrite emit_nil.
  - cbn [foldM]. unfold bind at 1.
    assert (E : log_event gui_log_callback file_log_callback e st
                = (emit gui_log_callback file_log_callback [e] st, Ok tt)).
    { unfold log_event, bind, gui_log_call, file_log_call, log_write, ret, emit.
      destruct st, gui_log_callback, file_log_callback; simpl;
        now rewrite ?app_nil_r. }
    rewrite E, IH, emit_app. reflexivity.
Qed.

Lemma rewrite_lines_spec (idx : nat) (lines : list text)
    (changed : bool) (replacements : list replacement)
    (new_lines : list text) (st : state) :
  rewrite_lines sprite_map filename gui_log_callback file_log_callback
    idx lines (changed, replacements, new_lines) st
  = (emit gui_log_callback file_log_callback
       (line_events sprite_map filename idx lines) st,
     Ok (changed || lines_changed sprite_map filename idx lines,
         replacements ++ map snd (line_events sprite_map filename idx lines),
         new_lines ++ new_lines_of sprite_map filename idx lines)).
Proof.
  revert idx changed replacements new_lines st.
  induction lines as [|line lines IH]; intros idx ch reps nl st.
  - cbn. now rewrite emit_nil, orb_false_r, !app_nil_r.
  - cbn [rewrite_lines line_events new_lines_of lines_changed].
    destruct (sub_line sprite_map filename idx line) as [line' events].
    unfold bind at 1. rewrite log_events_spec, IH, emit_app. cbn [fst snd].
    now rewrite orb_assoc, map_app, !app_assoc, <- (app_assoc nl).
Qed.

End FilePass.

(** ** [replace_in_file], case by case *)

Section ReplaceInFile.
Context {U : Unicode}.
Variable sprite_map : gmap text text.
Variable filename : text.
Variables gui_log_callback file_log_callback : bool.

Lemma bak_ne (p : text) : bak p <> p.
Proof.
  unfold bak. intros H. apply (f_equal length) in H.
  rewrite length_app in H. simpl in H. lia.
Qed.

Lemma bak_inj (p q : text) : bak p = bak q -> p = q.
Proof. unfold bak. apply app_inv_tail. Qed.

Lemma backup_file_spec (f : file) (st : state) :
  fs st !! filename = Some f -> readable f = true ->
  backup_file filename st = (with_fs (with_backup filename f (fs st)) st, Ok tt).
Proof.
  intros Hf Hr. unfold backup_file, bind, path_exists, with_backup, with_fs.
  fold (bak filename).
  destruct (fs st !! bak filename) as [g|] eqn:E.
  - rewrite bool_decide_eq_true_2 by eauto. unfold ret. now rewrite state_eta.
  - rewrite bool_decide_eq_false_2 by (intros [? ?]; congruence).
    unfold copy. now rewrite Hf, Hr, E.
Qed.

Lemma with_backup_lookup (f : file) (m : gmap text file) :
  with_backup filename f m !! filename = m !! filename.
Proof.
  unfold with_backup. destruct (m !! bak filename); [reflexivity|].
  apply lookup_insert_ne, bak_ne.
Qed.

(** The whole of [replace_in_file] on a state. *)
Lemma replace_in_file_spec (st : state) :
  replace_in_file filename sprite_map gui_log_callback file_log_callback st
  = match fs st !! filename with
    | Some f =>
        if readable f then
          let st1 := emit gui_log_callback file_log_callback
                       (file_events sprite_map filename f) st in
          let replacements := map snd (file_events sprite_map filename f) in
          if file_changed sprite_map filename f then
            let m := with_backup filename f (fs st) in
            if writable f then
              (with_fs (<[filename := File (rewritten sprite_map filename f)
                                         (readable f) true]> m) st1,
               Ok (true, replacements))
            else (with_fs m st1, Raise (IOError filename))
          else (st1, Ok (false, replacements))
        else (st, Raise (IOError filename))
    | None => (st, Raise (IOError filename))
    end.
Proof.
  unfold replace_in_file, bind at 1, read_text.
  destruct (fs st !! filename) as [f|] eqn:Hf; [|reflexivity].
  destruct (readable f) eqn:Hr; [|reflexivity].
  unfold bind at 1. fold (file_lines f).
  rewrite rewrite_lines_spec. cbn [orb app].
  fold (file_events sprite_map filename f).
  fold (file_changed sprite_map filename f).
  unfold rewritten.
  set (st1 := emit _ _ _ st). cbv zeta.
  destruct (file_changed sprite_map filename f).
  - unfold bind at 1. unfold bind at 1.
    rewrite (backup_file_spec f st1) by assumption.
    unfold write_text. cbn [fs with_fs].
    change (fs st1) with (fs st). rewrite with_backup_lookup, Hf.
    destruct (writable f); [|reflexivity].
    unfold set_fs, ret, with_fs. cbn. now rewrite Hr.
  - unfold bind, ret. reflexivity.
Qed.

End ReplaceInFile.

(** ** What is recorded *)

Section Events.
Context {U : Unicode}.
Variable sprite_map : gmap text text.
Variable filename : text.

Local Abbreviation accepted := (accepted sprite_map filename).

Lemma re_sub_events var idx orig_line (s : text) e :
  e ∈ snd (re_sub sprite_map filename var idx orig_line s) ->
  accepted idx orig_line e.
Proof.
  induction s as [|c s Hno IH|s v num rest Hm IH] using (re_sub_ind var).
  - cbn. intros H. inversion H.
  - rewrite re_sub_nomatch by assumption. exact IH.
  - rewrite (re_sub_match _ _ _ _ _ _ _ _ _ Hm). cbn [snd].
    rewrite elem_of_app. intros [H|H]; [|auto].
    destruct (sprite_map !! num) as [value|] eqn:Hk.
    + rewrite (repl_key _ _ _ _ _ _ _ _ Hk) in H. cbn in H.
      apply list_elem_of_singleton in H as ->. exists v, num, value. auto.
    + rewrite repl_no_key in H by assumption. inversion H.
Qed.

(** A pass that records nothing changes nothing. *)
Lemma re_sub_no_events var idx orig_line (s : text) :
  snd (re_sub sprite_map filename var idx orig_line s) = [] ->
  fst (re_sub sprite_map filename var idx orig_line s) = s.
Proof.
  induction s as [|c s Hno IH|s v num rest Hm IH] using (re_sub_ind var).
  - reflexivity.
  - rewrite re_sub_nomatch by assumption. cbn. intros H. now rewrite IH.
  - rewrite (re_sub_match _ _ _ _ _ _ _ _ _ Hm). cbn [fst snd]. intros H.
    apply app_eq_nil in H as [H1 H2].
    destruct (sprite_map !! num) as [value|] eqn:Hk.
    + rewrite (repl_key _ _ _ _ _ _ _ _ Hk) in H1. discriminate.
    + rewrite repl_no_key by assumption. cbn [fst]. rewrite (IH H2).
      destruct (match_at_length _ _ _ _ _ Hm) as (m & -> & _).
      now rewrite captured_app.
Qed.

Lemma sub_vars_events vars idx orig_line (s : text) e :
  e ∈ snd (sub_vars sprite_map filename vars idx orig_line s) ->
  accepted idx orig_line e.
Proof.
  revert s. induction vars as [|var vars IH]; intros s; cbn [sub_vars].
  - intros H. inversion H.
  - destruct (re_sub _ _ var idx orig_line s) as [l1 e1] eqn:E1.
    destruct (sub_vars _ _ vars idx orig_line l1) as [l2 e2] eqn:E2.
    cbn [snd]. rewrite elem_of_app. intros [H|H].
    + apply (re_sub_events var idx orig_line s). now rewrite E1.
    + apply (IH l1). now rewrite E2.
Qed.

Lemma sub_vars_no_events vars idx orig_line (s : text) :
  snd (sub_vars sprite_map filename vars idx orig_line s) = [] ->
  fst (sub_vars sprite_map filename vars idx orig_line s) = s.
Proof.
  revert s. induction vars as [|var vars IH]; intros s; cbn [sub_vars].
  - reflexivity.
  - pose proof (re_sub_no_events var idx orig_line s) as H1.
    destruct (re_sub _ _ var idx orig_line s) as [l1 e1].
    pose proof (IH l1) as H2.
    destruct (sub_vars _ _ vars idx orig_line l1) as [l2 e2].
    cbn [fst snd] in *. intros H. apply app_eq_nil in H as [-> ->].
    now rewrite H2, H1.
Qed.

Lemma line_events_accepted idx (lines : list text) e :
  e ∈ line_events sprite_map filename idx lines ->
  exists i line,
    lines !! i = Some line /\ accepted (idx + i) line e.
Proof.
  revert idx. induction lines as [|l lines IH]; intros idx; cbn [line_events].
  - intros H. inversion H.
  - rewrite elem_of_app. intros [H|H].
    + exists 0%nat, l. split; [reflexivity|]. rewrite Nat.add_0_r.
      now apply (sub_vars_events SPRITE_VARS idx l l).
    + destruct (IH _ H) as (i & line & Hl & Ha).
      exists (S i), line. split; [assumption|].
      now replace (idx + S i)%nat with (S idx + i)%nat by lia.
Qed.

(** A file in which a line differs has a recorded substitution. *)
Lemma lines_changed_events idx (lines : list text) :
  lines_changed sprite_map filename idx lines = true ->
  line_events sprite_map filename idx lines <> [].
Proof.
  revert idx. induction lines as [|l lines IH]; intros idx;
    cbn [lines_changed line_events]; [discriminate|].
  intros H E. apply app_eq_nil in E as [E1 E2].
  apply orb_true_iff in H as [H|H]; [|now apply (IH _ H)].
  unfold sub_line in *. apply sub_vars_no_events in E1.
  now rewrite E1, text_eqb_refl in H.
Qed.

Lemma lines_unchanged idx (lines : list text) :
  (forall i line, lines !! i = Some line ->
     fst (sub_line sprite_map filename (idx + i) line) = line) ->
  lines_changed sprite_map filename idx lines = false.
Proof.
  revert idx. induction lines as [|l lines IH]; intros idx H;
    cbn [lines_changed]; [reflexivity|].
  rewrite IH.
  - specialize (H 0%nat l eq_refl). rewrite Nat.add_0_r in H.
    now rewrite H, text_eqb_refl.
  - intros i line Hl. specialize (H (S i) line Hl).
    now replace (idx + S i)%nat with (S idx + i)%nat in H by lia.
Qed.

End Events.

(** ** The File Rewriter *)

(** C8: a file none of whose lines differs after the passes is not written:
    [replace_in_file] reports it unchanged and leaves the file system as it
    was, so the file is not opened for writing and no [.bak] appears. *)
Theorem C8_unchanged_file_not_written {U : Unicode}
    (sprite_map : gmap text text) (filename : text)
    (gui_log_callback file_log_callback : bool) (st : state) (f : file) :
  fs st !! filename = Some f -> readable f = true ->
  (forall i line, file_lines f !! i = Some line ->
     fst (sub_line sprite_map filename (S i) line) = line) ->
  exists st' replacements,
    replace_in_file filename sprite_map gui_log_callback file_log_callback st
    = (st', Ok (false, replacements))
    /\ fs st' = fs st.
Proof.
  intros Hf Hr Hl. rewrite replace_in_file_spec, Hf, Hr. cbv zeta.
  unfold file_changed. rewrite lines_unchanged by exact Hl.
  eexists _, _. split; reflexivity.
Qed.

Lemma C8_witness :
  exists st' replacements,
    replace_in_file (U := ascii_only) (str "/p/a.gml") ex_map true true
      (ex_state [(str "/p/a.gml", str "x = 1;")])
    = (st', Ok (false, replacements))
    /\ fs st' = fs (ex_state [(str "/p/a.gml", str "x = 1;")]).
Proof.
  apply (C8_unchanged_file_not_written (U := ascii_only) ex_map
           (str "/p/a.gml") true true
           (ex_state [(str "/p/a.gml", str "x = 1;")])
           (File (str "x = 1;") true true)); try reflexivity.
  intros [|i] line H; [|discriminate].
  injection H as <-. reflexivity.
Defined.




(** ** The Mapping Loader *)

Section LoaderFacts.
Context {U : Unicode}.

Lemma contains1_spec x (s : text) : contains [x] s = true <-> x ∈ s.
Proof.
  induction s as [|c s IH]; simpl.
  - split; [discriminate|]. intros H. inversion H.
  - rewrite orb_true_iff, andb_true_r, N.eqb_eq, IH, elem_of_cons. tauto.
Qed.

Lemma split_dash_spec (k v : text) :
  DASH ∉ k -> split_dash (k ++ DASH :: v) = (k, v).
Proof.
  intros Hk. unfold split_dash.
  destruct (run_app (fun c => negb (c =? DASH)) k (DASH :: v)) as [-> ->];
    [|reflexivity|reflexivity].
  induction k as [|c k IH]; [reflexivity|].
  apply not_elem_of_cons in Hk as [Hc Hk]. simpl. rewrite (IH Hk), andb_true_r.
  apply negb_true_iff. now apply N.eqb_neq.
Qed.

Lemma load_line_skipped (mapping : gmap text text) (line : text) :
  is_skipped line -> load_line mapping line = mapping.
Proof.
  unfold load_line. intros [H|[[t H]|H]].
  - now rewrite H.
  - rewrite H. cbn. reflexivity.
  - destruct (text_eqb (strip line) [] || startswith [HASH] (strip line));
      [reflexivity|].
    destruct (contains [DASH] (strip line)) eqn:E; [|reflexivity].
    apply contains1_spec in E. contradiction.
Qed.

Lemma load_line_entry (mapping : gmap text text) (line key value : text) :
  is_entry line key value -> load_line mapping line = <[key := value]> mapping.
Proof.
  intros (k & v & Hs & Hk & Hh & -> & ->). unfold load_line. rewrite Hs.
  assert (E1 : text_eqb (k ++ DASH :: v) [] = false)
    by now destruct k.
  assert (E2 : startswith [HASH] (k ++ DASH :: v) = false).
  { destruct (startswith [HASH] (k ++ DASH :: v)) eqn:E; [|reflexivity].
    apply startswith_spec in E as [t Ht]. rewrite Hs in Hh.
    now destruct (Hh t). }
  assert (E3 : contains [DASH] (k ++ DASH :: v) = true)
    by (apply contains1_spec; set_solver).
  rewrite E1, E2, E3. cbn [orb negb]. now rewrite split_dash_spec.
Qed.

Lemma line_cases (line : text) :
  is_skipped line \/ exists key value, is_entry line key value.
Proof.
  destruct (strip line) as [|c s] eqn:Hs; [left; now left|].
  destruct (N.eqb_spec c HASH) as [->|Hc]; [left; right; left; eauto|].
  destruct (contains [DASH] (c :: s)) eqn:E.
  - right.
    pose (k := take_while (fun c => negb (c =? DASH)) (c :: s)).
    pose (r := drop_while (fun c => negb (c =? DASH)) (c :: s)).
    assert (Hkr : k ++ r = c :: s) by apply take_drop_while.
    assert (Hk : DASH ∉ k).
    { apply (class_not_elem (fun c => negb (c =? DASH)));
        [apply take_while_all|reflexivity]. }
    destruct r as [|d v] eqn:Hr.
    + exfalso. rewrite app_nil_r in Hkr. apply contains1_spec in E.
      now rewrite <- Hkr in E.
    + assert (d = DASH) as ->.
      { pose proof (drop_while_head _ _ _ _ Hr) as Hd. cbv beta in Hd.
        apply negb_false_iff in Hd. now apply N.eqb_eq. }
      exists (strip k), (strip v), k, v. rewrite Hs, <- Hkr.
      repeat split; try assumption. intros t Ht. rewrite Hkr in Ht.
      congruence.
  - left. right. right. rewrite Hs, <- contains1_spec, E. discriminate.
Qed.

Lemma load_lines_app (lines lines' : list text) :
  load_lines (lines ++ lines') = fold_left load_line lines' (load_lines lines).
Proof. unfold load_lines. apply fold_left_app. Qed.

Lemma fold_load_line_keep (lines : list text) (mapping : gmap text text)
    (key : text) :
  (forall l key' value', l ∈ lines -> is_entry l key' value' -> key' <> key) ->
  fold_left load_line lines mapping !! key = mapping !! key.
Proof.
  revert mapping. induction lines as [|l lines IH]; intros mapping H;
    [reflexivity|].
  cbn [fold_left]. rewrite IH by (intros; eapply H; eauto; set_solver).
  destruct (line_cases l) as [Hs|(k & v & He)].
  - now rewrite load_line_skipped.
  - rewrite (load_line_entry _ _ _ _ He). apply lookup_insert_ne.
    eapply H; eauto. set_solver.
Qed.

Lemma fold_load_line_from (lines : list text) (mapping : gmap text text)
    (key value : text) :
  fold_left load_line lines mapping !! key = Some value ->
  mapping !! key = Some value
  \/ exists l, l ∈ lines /\ is_entry l key value.
Proof.
  revert mapping. induction lines as [|l lines IH]; intros mapping H;
    [now left|].
  cbn [fold_left] in H. apply IH in H as [H|(l' & Hl & He)].
  - destruct (line_cases l) as [Hs|(k & v & He)].
    + rewrite load_line_skipped in H by assumption. now left.
    + rewrite (load_line_entry _ _ _ _ He) in H.
      destruct (decide (k = key)) as [->|Hne].
      * rewrite lookup_insert_eq in H. injection H as ->.
        right. exists l. split; [set_solver|assumption].
      * rewrite lookup_insert_ne in H by assumption. now left.
  - right. exists l'. split; [set_solver|assumption].
Qed.

End LoaderFacts.

(** ** The walk *)

Section Walk.
Context {U : Unicode}.
Variable sprite_map : gmap text text.
Variables gui_log_callback status_callback : bool.

Lemma foldM_app {A B} (f : B -> A -> M B) (l1 l2 : list A) acc st :
  foldM f acc (l1 ++ l2) st
  = match foldM f acc l1 st with
    | (st', Ok acc') => foldM f acc' l2 st'
    | (st', Raise e) => (st', Raise e)
    end.
Proof.
  revert acc st. induction l1 as [|x l1 IH]; intros acc st; [reflexivity|].
  cbn [app foldM]. unfold bind.
  destruct (f acc x st) as [st1 [acc1|e]]; [apply IH|reflexivity].
Qed.

Lemma scan_file_eq root acc (file : text) :
  scan_file sprite_map gui_log_callback status_callback root acc file
  = if eligible file
    then scan_path sprite_map gui_log_callback status_callback acc
           (join root file)
    else ret acc.
Proof. unfold scan_file, scan_path. now destruct (eligible file). Qed.

Lemma scan_files_paths root (files : list text) acc st :
  foldM (scan_file sprite_map gui_log_callback status_callback root) acc files st
  = foldM (scan_path sprite_map gui_log_callback status_callback) acc
      (eligible_paths root files) st.
Proof.
  revert acc st. induction files as [|file files IH]; intros acc st;
    [reflexivity|].
  cbn [foldM eligible_paths]. rewrite scan_file_eq.
  destruct (eligible file).
  - cbn [foldM]. unfold bind.
    destruct (scan_path _ _ _ acc (join root file) st) as [st1 [acc1|e]];
      [apply IH|reflexivity].
  - unfold bind, ret. apply IH.
Qed.

Lemma walk_fold (walk : list (text * list text * list text)) acc st :
  foldM (fun acc '(root, dirs, files) =>
           foldM (scan_file sprite_map gui_log_callback status_callback root)
             acc files) acc walk st
  = foldM (scan_path sprite_map gui_log_callback status_callback) acc
      (walk_paths walk) st.
Proof.
  revert acc st. induction walk as [|[[root dirs] files] walk IH];
    intros acc st; [reflexivity|].
  cbn [foldM]. unfold walk_paths. cbn [map concat fst snd].
  rewrite foldM_app. unfold bind. rewrite scan_files_paths.
  destruct (foldM _ acc (eligible_paths root files) st) as [st1 [acc1|e]];
    [apply IH|reflexivity].
Qed.

(** The body of the loop for one eligible file, case by case. *)
Lemma scan_path_spec acc (filepath : text) (st : state) :
  scan_path sprite_map gui_log_callback status_callback acc filepath st
  = let st0 := announce gui_log_callback status_callback filepath st in
    match fs st !! filepath with
    | Some f =>
        if readable f then
          let st1 := emit gui_log_callback true
                       (file_events sprite_map filepath f) st0 in
          if file_changed sprite_map filepath f then
            let m := with_backup filepath f (fs st) in
            if writable f then
              (with_fs (<[filepath := File (rewritten sprite_map filepath f)
                                         (readable f) true]> m) st1,
               Ok (fst acc ++ [filepath],
                   snd acc ++ map (tag filepath)
                                (map snd (file_events sprite_map filepath f))))
            else (with_fs m st1, Raise (IOError filepath))
          else (st1, Ok acc)
        else (st0, Raise (IOError filepath))
    | None => (st0, Raise (IOError filepath))
    end.
Proof.
  unfold scan_path. unfold bind at 1. unfold bind at 1.
  assert (E : forall st',
    gui_log_call gui_log_callback (str "Checking: " ++ filepath)
      (fst (status_call status_callback (str "Scanning: " ++ filepath) st'))
    = (announce gui_log_callback status_callback filepath st', Ok tt)).
  { intros st'. unfold gui_log_call, status_call, announce.
    destruct st', gui_log_callback, status_callback; cbn;
      now rewrite ?app_nil_r. }
  unfold status_call at 1.
  match goal with
  | |- context [gui_log_call ?g ?m ?s] =>
      change (gui_log_call g m s)
        with (gui_log_call gui_log_callback (str "Checking: " ++ filepath)
                (fst (status_call status_callback
                        (str "Scanning: " ++ filepath) st)))
  end.
  rewrite E. unfold bind at 1. rewrite replace_in_file_spec.
  cbv zeta. change (fs (announce _ _ filepath st)) with (fs st).
  destruct (fs st !! filepath) as [f|]; [|reflexivity].
  destruct (readable f); [|reflexivity].
  destruct acc as [replaced_files all_replacements].
  destruct (file_changed sprite_map filepath f); [|reflexivity].
  destruct (writable f); reflexivity.
Qed.

(** [with_log] *)
Lemma with_log_spec {A} (log_path : text) (body : M A) (st : state) :
  with_log log_path body st
  = if log_openable log_path (fs st) then
      (close_log log_path (fst (body (open_log log_path st))),
       snd (body (open_log log_path st)))
    else (st, Raise (IOError log_path)).
Proof.
  unfold with_log, write_text, log_openable, open_log.
  destruct (fs st !! log_path) as [f|].
  - destruct (writable f); [|reflexivity].
    unfold set_fs. cbn [fs gui_log status_log].
    now destruct (body _).
  - unfold set_fs. cbn [fs gui_log status_log]. now destruct (body _).
Qed.

(** [scan_and_replace] after the mapping was loaded. *)
Lemma scan_and_replace_with_spec (argv0 : text) (tree : dir)
    (project_dir : text) (st : state) :
  scan_and_replace_with sprite_map argv0 tree project_dir
    gui_log_callback status_callback st
  = let log_path := log_path_of argv0 in
    if log_openable log_path (fs st) then
      match foldM (scan_path sprite_map gui_log_callback status_callback)
              ([], []) (walk_paths (os_walk project_dir tree))
              (open_log log_path st) with
      | (st', Ok acc) =>
          (close_log log_path
             (finish gui_log_callback status_callback (fst acc) log_path st'),
           Ok (fst acc, snd acc, log_path))
      | (st', Raise e) => (close_log log_path st', Raise e)
      end
    else (st, Raise (IOError log_path)).
Proof.
  unfold scan_and_replace_with. fold (log_path_of argv0). cbv zeta.
  match goal with |- context [with_log _ ?b] => set (body := b) end.
  assert (Hb : forall st0,
    body st0
    = match foldM (scan_path sprite_map gui_log_callback status_callback)
              ([], []) (walk_paths (os_walk project_dir tree)) st0 with
      | (st', Ok acc) =>
          (finish gui_log_callback status_callback (fst acc)
             (log_path_of argv0) st', Ok acc)
      | (st', Raise e) => (st', Raise e)
      end).
  { intros st0. unfold body. unfold bind at 1. rewrite walk_fold.
    destruct (foldM _ _ _ st0) as [st1 [acc|e]]; [|reflexivity].
    unfold bind, gui_log_call, log_write, status_call, ret, finish.
    f_equal. destruct st1, gui_log_callback, status_callback; cbn;
      now rewrite ?app_nil_r. }
  unfold bind. rewrite with_log_spec.
  destruct (log_openable (log_path_of argv0) (fs st)); [|reflexivity].
  rewrite Hb.
  now destruct (foldM _ _ _ (open_log (log_path_of argv0) st))
    as [st1 [acc|e]].
Qed.

End Walk.

(** ** Paths *)

Lemma endswith_spec (e s : text) :
  endswith e s = true <-> exists q, s = q ++ e.
Proof.
  unfold endswith. rewrite startswith_spec. split.
  - intros [t Ht]. exists (rev t).
    apply (f_equal (@rev N)) in Ht.
    now rewrite rev_involutive, rev_app_distr, rev_involutive in Ht.
  - intros [q ->]. exists (rev q). apply rev_app_distr.
Qed.

Lemma endswith_app (e a b : text) :
  endswith e b = true -> endswith e (a ++ b) = true.
Proof.
  rewrite !endswith_spec. intros [q ->]. exists (a ++ q).
  now rewrite app_assoc.
Qed.

Lemma join_suffix (a b : text) : exists x, join a b = x ++ b.
Proof.
  unfold join. destruct (startswith [SLASH] b); [now exists []|].
  destruct (text_eqb a [] || endswith [SLASH] a); [now exists a|].
  exists (a ++ [SLASH]). now rewrite <- app_assoc.
Qed.

Lemma eligible_join (root file : text) :
  eligible file = true -> eligible (join root file) = true.
Proof.
  unfold eligible. rewrite !existsb_exists.
  intros (ext & Hin & He). exists ext. split; [assumption|].
  destruct (join_suffix root file) as [x ->]. now apply endswith_app.
Qed.

Lemma eligible_paths_eligible root (files : list text) p :
  p ∈ eligible_paths root files -> eligible p = true.
Proof.
  induction files as [|file files IH]; cbn [eligible_paths].
  - intros H. inversion H.
  - destruct (eligible file) eqn:E; [|assumption].
    rewrite elem_of_cons. intros [->|H]; [now apply eligible_join|auto].
Qed.

Lemma walk_paths_eligible (walk : list (text * list text * list text)) p :
  p ∈ walk_paths walk -> eligible p = true.
Proof.
  unfold walk_paths. induction walk as [|t walk IH]; cbn [map concat].
  - intros H. inversion H.
  - rewrite elem_of_app. intros [H|H]; [|auto].
    eapply eligible_paths_eligible; eauto.
Qed.

Lemma eligible_bak (q : text) : eligible (bak q) = false.
Proof.
  unfold eligible, CODE_EXTENSIONS, endswith, bak.
  now rewrite rev_app_distr.
Qed.

Lemma eligible_not_bak (p q : text) : eligible p = true -> p <> bak q.
Proof. intros H ->. now rewrite eligible_bak in H. Qed.

Lemma eligible_log_path (argv0 : text) : eligible (log_path_of argv0) = false.
Proof.
  unfold log_path_of. destruct (join_suffix (dirname argv0) LOG_FILENAME)
    as [x ->].
  unfold eligible, CODE_EXTENSIONS, endswith. now rewrite rev_app_distr.
Qed.

Lemma log_path_not_bak (argv0 q : text) : log_path_of argv0 <> bak q.
Proof.
  unfold log_path_of, bak.
  destruct (join_suffix (dirname argv0) LOG_FILENAME) as [x ->].
  intros H. apply (f_equal (@rev N)) in H. rewrite !rev_app_distr in H.
  discriminate.
Qed.

Lemma eligible_not_log (argv0 p : text) :
  eligible p = true -> p <> log_path_of argv0.
Proof. intros H ->. now rewrite eligible_log_path in H. Qed.

(** ** The file system along a run *)

Section RunFs.
Context {U : Unicode}.
Variable sprite_map : gmap text text.
Variables gui_log_callback status_callback : bool.

Lemma foldM_state_inv {A B} (f : B -> A -> M B) (I : state -> Prop)
    (l : list A) :
  (forall acc x st, x ∈ l -> I st -> I (fst (f acc x st))) ->
  forall acc st, I st -> I (fst (foldM f acc l st)).
Proof.
  induction l as [|x l IH]; intros Hf acc st Hst; [assumption|].
  cbn [foldM]. unfold bind.
  pose proof (Hf acc x st ltac:(set_solver) Hst) as H1.
  destruct (f acc x st) as [st1 [acc1|e]]; [|assumption].
  apply IH; [|assumption]. intros. apply Hf; [set_solver|assumption].
Qed.

Lemma scan_path_fs acc (filepath : text) (st : state) :
  fs (fst (scan_path sprite_map gui_log_callback status_callback acc
             filepath st))
  = fs_step sprite_map filepath (fs st).
Proof.
  rewrite scan_path_spec. cbv zeta. unfold fs_step.
  destruct (fs st !! filepath) as [f|]; [|reflexivity].
  destruct (readable f); [|reflexivity]. cbn [andb].
  destruct (file_changed sprite_map filepath f); [|reflexivity].
  destruct (writable f); reflexivity.
Qed.

Lemma with_backup_other (p : text) (f : file) (m : gmap text file) (k : text) :
  k <> bak p -> with_backup p f m !! k = m !! k.
Proof.
  intros H. unfold with_backup. destruct (m !! bak p); [reflexivity|].
  now apply lookup_insert_ne.
Qed.

Lemma with_backup_kept (p : text) (f : file) (m : gmap text file) (k : text)
    (b : file) :
  m !! k = Some b -> with_backup p f m !! k = Some b.
Proof.
  intros H. unfold with_backup. destruct (m !! bak p) eqn:E; [assumption|].
  rewrite lookup_insert_ne; [assumption|congruence].
Qed.

(** A step changes nothing but the file and its backup. *)
Lemma fs_step_other (p k : text) (m : gmap text file) :
  k <> p -> k <> bak p -> fs_step sprite_map p m !! k = m !! k.
Proof.
  intros H1 H2. unfold fs_step. destruct (m !! p) as [f|]; [|reflexivity].
  destruct (readable f && file_changed sprite_map p f); [|reflexivity].
  destruct (writable f).
  - rewrite lookup_insert_ne by congruence. now apply with_backup_other.
  - now apply with_backup_other.
Qed.

(** A backup that exists stays as it is. *)
Lemma fs_step_bak_kept (p q : text) (m : gmap text file) (b : file) :
  p <> bak q -> m !! bak q = Some b -> fs_step sprite_map p m !! bak q = Some b.
Proof.
  intros Hp Hb. unfold fs_step. destruct (m !! p) as [f|]; [|assumption].
  destruct (readable f && file_changed sprite_map p f); [|assumption].
  destruct (writable f).
  - rewrite lookup_insert_ne by assumption. now apply with_backup_kept.
  - now apply with_backup_kept.
Qed.

Lemma load_sprite_map_state (mapping_file : text) (st : state) :
  fst (load_sprite_map mapping_file st) = st.
Proof.
  unfold load_sprite_map, bind, read_text.
  destruct (fs st !! mapping_file) as [f|]; [|reflexivity].
  now destruct (readable f).
Qed.

(** A run is the load of the mapping, then the walk with it. *)
Lemma scan_and_replace_loaded (argv0 : text) (tree : dir)
    (project_dir mapping_file : text) (st st' : state) r :
  scan_and_replace argv0 tree project_dir mapping_file
    gui_log_callback status_callback st = (st', Ok r) ->
  exists sm,
    load_sprite_map mapping_file st = (st, Ok sm)
    /\ scan_and_replace_with sm argv0 tree project_dir
         gui_log_callback status_callback st = (st', Ok r).
Proof.
  unfold scan_and_replace, bind.
  pose proof (load_sprite_map_state mapping_file st) as Hl.
  destruct (load_sprite_map mapping_file st) as [st1 [sm|e]];
    cbn [fst] in Hl; subst st1; [|discriminate].
  eauto.
Qed.

Lemma scan_and_replace_with_loaded (argv0 : text) (tree : dir)
    (project_dir mapping_file : text) (st : state) :
  load_sprite_map mapping_file st = (st, Ok sprite_map) ->
  scan_and_replace argv0 tree project_dir mapping_file
    gui_log_callback status_callback st
  = scan_and_replace_with sprite_map argv0 tree project_dir
      gui_log_callback status_callback st.
Proof. unfold scan_and_replace, bind. now intros ->. Qed.

(** The file system after a run, away from the session log, is the one the
    walk leaves. *)
Lemma run_fs_inv (I : gmap text file -> Prop) (argv0 : text) (tree : dir)
    (project_dir : text) (st : state) :
  I (fs st) ->
  (forall m f, I m -> I (<[log_path_of argv0 := f]> m)) ->
  (forall m g, I m -> I (alter g (log_path_of argv0) m)) ->
  (forall m p, eligible p = true -> I m -> I (fs_step sprite_map p m)) ->
  I (fs (fst (scan_and_replace_with sprite_map argv0 tree project_dir
                gui_log_callback status_callback st))).
Proof.
  intros Hst Hins Halt Hstep. rewrite scan_and_replace_with_spec. cbv zeta.
  destruct (log_openable (log_path_of argv0) (fs st)); [|assumption].
  pose proof (foldM_state_inv
                (scan_path sprite_map gui_log_callback status_callback)
                (fun s => I (fs s))
                (walk_paths (os_walk project_dir tree))) as H.
  specialize (H ltac:(intros acc x s Hx Hs; cbv beta in *;
                      rewrite scan_path_fs; apply Hstep;
                      [eapply walk_paths_eligible; eauto|assumption])
                ([], []) (open_log (log_path_of argv0) st)
                ltac:(apply Hins; assumption)).
  cbv beta in H.
  destruct (foldM _ _ _ (open_log (log_path_of argv0) st)) as [st1 [acc|e]];
    cbn [fst] in *; now apply Halt.
Qed.

End RunFs.

(** ** Backups *)

Section Backups.
Context {U : Unicode}.
Variable sprite_map : gmap text text.
Variables gui_log_callback status_callback : bool.

Lemma foldM_acc_inv {A B} (f : B -> A -> M B) (I : B -> state -> Prop)
    (l : list A) :
  (forall acc x st acc' st',
     x ∈ l -> I acc st -> f acc x st = (st', Ok acc') -> I acc' st') ->
  forall acc st acc' st',
    I acc st -> foldM f acc l st = (st', Ok acc') -> I acc' st'.
Proof.
  induction l as [|x l IH]; intros Hf acc st acc' st' Hst H.
  - cbn in H. unfold ret in H. now injection H as <- <-.
  - cbn [foldM] in H. unfold bind in H.
    destruct (f acc x st) as [st1 [acc1|e]] eqn:E; [|discriminate].
    eapply IH; [| |exact H].
    + intros. eapply Hf; eauto. set_solver.
    + eapply Hf; eauto. set_solver.
Qed.

Lemma fs_step_own_bak (p : text) (m : gmap text file) :
  fs_step sprite_map p m !! bak p
  = match m !! bak p with
    | Some b => Some b
    | None =>
        match m !! p with
        | Some f =>
            if readable f && file_changed sprite_map p f then Some f else None
        | None => None
        end
    end.
Proof.
  unfold fs_step. destruct (m !! p) as [f|] eqn:Hp;
    [|now destruct (m !! bak p)].
  destruct (readable f && file_changed sprite_map p f);
    [|now destruct (m !! bak p)].
  assert (E : with_backup p f m !! bak p
              = match m !! bak p with Some b => Some b | None => Some f end).
  { unfold with_backup. destruct (m !! bak p) eqn:Hb; [assumption|].
    apply lookup_insert_eq. }
  destruct (writable f); [|assumption].
  rewrite lookup_insert_ne by (symmetry; apply bak_ne). assumption.
Qed.

Lemma fs_step_own (p : text) (m : gmap text file) :
  fs_step sprite_map p m !! bak p = None -> fs_step sprite_map p m = m.
Proof.
  rewrite fs_step_own_bak. unfold fs_step.
  destruct (m !! bak p); [discriminate|].
  destruct (m !! p) as [f|]; [|reflexivity].
  now destruct (readable f && file_changed sprite_map p f).
Qed.

Lemma backups_sound_refl (m0 : gmap text file) : backups_sound m0 m0.
Proof. repeat split; auto. intros p b _ H1 H2. congruence. Qed.

Lemma backups_sound_step (m0 m : gmap text file) (p : text) :
  eligible p = true -> backups_sound m0 m ->
  backups_sound m0 (fs_step sprite_map p m).
Proof.
  intros Hp (HL & HJ & HK). repeat split.
  - intros q b Hb. apply fs_step_bak_kept; [now apply eligible_not_bak|auto].
  - intros p' Hp' Hb. destruct (decide (p' = p)) as [->|Hne].
    + rewrite (fs_step_own _ _ Hb) in Hb |- *. auto.
    + rewrite fs_step_other in Hb.
      * rewrite fs_step_other; [auto|assumption|now apply eligible_not_bak].
      * intros E. symmetry in E. now apply eligible_not_bak in E.
      * intros E. now apply bak_inj in E.
  - intros p' b Hp' H0 Hb. destruct (decide (p' = p)) as [->|Hne].
    + rewrite fs_step_own_bak in Hb.
      destruct (m !! bak p) as [b'|] eqn:E; [injection Hb as ->; eauto|].
      destruct (m !! p) as [f|] eqn:Ef; [|discriminate].
      destruct (readable f && file_changed sprite_map p f); [|discriminate].
      injection Hb as <-. now rewrite <- (HJ p Hp E).
    + rewrite fs_step_other in Hb; [eauto| |].
      * intros E. symmetry in E. now apply eligible_not_bak in E.
      * intros E. now apply bak_inj in E.
Qed.

Lemma backups_sound_ext (argv0 : text) (m0 m m' : gmap text file) :
  (forall k, k <> log_path_of argv0 -> m' !! k = m !! k) ->
  backups_sound m0 m -> backups_sound m0 m'.
Proof.
  intros Hext (HL & HJ & HK).
  assert (Hb : forall q, m' !! bak q = m !! bak q).
  { intros q. apply Hext. intros E. symmetry in E.
    now apply log_path_not_bak in E. }
  assert (He : forall p, eligible p = true -> m' !! p = m !! p).
  { intros p Hp. apply Hext. now apply eligible_not_log. }
  repeat split.
  - intros q b H. rewrite Hb. auto.
  - intros p Hp H. rewrite Hb in H. rewrite He by assumption. auto.
  - intros p b Hp H0 H. rewrite Hb in H. eauto.
Qed.

(** What a successful run leaves for the files it reports. *)
Lemma run_backups (argv0 : text) (tree : dir) (project_dir : text)
    (st st' : state) replaced_files all_replacements log_path :
  scan_and_replace_with sprite_map argv0 tree project_dir
    gui_log_callback status_callback st
  = (st', Ok (replaced_files, all_replacements, log_path)) ->
  backups_sound (fs st) (fs st')
  /\ forall p, p ∈ replaced_files ->
       eligible p = true /\ is_Some (fs st' !! bak p).
Proof.
  rewrite scan_and_replace_with_spec. cbv zeta.
  destruct (log_openable (log_path_of argv0) (fs st)); [|discriminate].
  destruct (foldM _ _ _ (open_log (log_path_of argv0) st))
    as [st1 [acc|e]] eqn:E; [|discriminate].
  intros H. injection H as <- <- <- <-.
  pose (I := fun (acc : list text * list file_replacement) (s : state) =>
               backups_sound (fs st) (fs s)
               /\ forall p, p ∈ fst acc ->
                    eligible p = true /\ is_Some (fs s !! bak p)).
  assert (HI : I acc st1).
  { eapply (foldM_acc_inv _ I); [| |exact E].
    - intros a x s a' s' Hx [Hs Ha] Hstep.
      pose proof (walk_paths_eligible _ _ Hx) as Hel.
      pose proof (scan_path_fs sprite_map gui_log_callback status_callback
                    a x s) as Hfs.
      rewrite Hstep in Hfs. cbn [fst] in Hfs. split.
      + rewrite Hfs. now apply backups_sound_step.
      + intros p Hp. rewrite scan_path_spec in Hstep. cbv zeta in Hstep.
        assert (Hold : p ∈ fst a ->
                       eligible p = true /\ is_Some (fs s' !! bak p)).
        { intros Hin. destruct (Ha p Hin) as [Hpe [b Hb]]. split; [assumption|].
          exists b. rewrite Hfs. apply fs_step_bak_kept;
            [now apply eligible_not_bak|assumption]. }
        destruct (fs s !! x) as [f|] eqn:Ef; [|discriminate].
        destruct (readable f) eqn:Er; [|discriminate].
        destruct (file_changed sprite_map x f) eqn:Ec.
        * destruct (writable f); [|discriminate].
          injection Hstep as _ <-. cbn [fst] in Hp.
          apply elem_of_app in Hp as [Hp|Hp]; [auto|].
          apply list_elem_of_singleton in Hp as ->. split; [assumption|].
          rewrite Hfs, fs_step_own_bak, Ef, Er, Ec. cbn [andb].
          destruct (fs s !! bak x); eauto.
        * injection Hstep as _ <-. auto.
    - split.
      + apply (backups_sound_ext argv0 _ (fs st)); [|apply backups_sound_refl].
        intros k Hk. cbn. now apply lookup_insert_ne.
      + intros p Hp. inversion Hp. }
  destruct HI as [Hs Ha]. split.
  - apply (backups_sound_ext argv0 _ (fs st1)); [|assumption].
    intros k Hk. cbn. now apply lookup_alter_ne.
  - intros p Hp. destruct (Ha p Hp) as [He [b Hb]]. split; [assumption|].
    exists b. cbn. rewrite lookup_alter_ne; [assumption|].
    apply log_path_not_bak.
Qed.

End Backups.

(** C3, as the code has it: after a run, every file reported as changed has
    a [.bak] next to it; when no [.bak] of that file existed before the
    run, it is the file as it was when the run began, which is what the
    run overwrote; when one existed, it is that one, untouched. *)
Theorem C3_backup_invariant {U : Unicode}
    (argv0 : text) (tree : dir) (project_dir mapping_file : text)
    (gui_log_callback status_callback : bool)
    (st st' : state) (replaced_files : list text)
    (all_replacements : list file_replacement) (log_path filepath : text) :
  scan_and_replace argv0 tree project_dir mapping_file
    gui_log_callback status_callback st
  = (st', Ok (replaced_files, all_replacements, log_path)) ->
  filepath ∈ replaced_files ->
  exists b,
    fs st' !! bak filepath = Some b
    /\ match fs st !! bak filepath with
       | Some b0 => b = b0
       | None => fs st !! filepath = Some b
       end.
Proof.
  intros Hrun Hin.
  apply scan_and_replace_loaded in Hrun as (sm & _ & Hrun).
  destruct (run_backups _ _ _ _ _ _ _ _ _ _ _ Hrun) as [(HL & HJ & HK) Ha].
  destruct (Ha _ Hin) as [He [b Hb]]. exists b. split; [assumption|].
  destruct (fs st !! bak filepath) as [b0|] eqn:E.
  - apply HL in E. congruence.
  - eauto.
Qed.

Lemma C3_witness :
  exists b,
    fs (fst (scan_and_replace (U := ascii_only) (str "/tool/gui.py")
               (Dir [str "a.gml"] []) (str "/p") (str "/m/map.txt")
               true true (ex_project [(str "/p/a.gml", str "sprite_index = 12;")])))
      !! bak (str "/p/a.gml") = Some b
    /\ match fs (ex_project [(str "/p/a.gml", str "sprite_index = 12;")])
               !! bak (str "/p/a.gml") with
       | Some b0 => b = b0
       | None =>
           fs (ex_project [(str "/p/a.gml", str "sprite_index = 12;")])
             !! str "/p/a.gml" = Some b
       end.
Proof.
  eapply (C3_backup_invariant (U := ascii_only) (str "/tool/gui.py")
            (Dir [str "a.gml"] []) (str "/p") (str "/m/map.txt") true true
            (ex_project [(str "/p/a.gml", str "sprite_index = 12;")]) _
            [str "/p/a.gml"]).
  - now vm_compute.
  - apply list_elem_of_singleton. reflexivity.
Defined.

(** Against C3 as stated: with [a.gml.bak] already there, the run rewrites
    [a.gml] and reports it, and the backup still holds its old text, not
    the text of [a.gml] the run overwrote. *)
Lemma C3_counterexample :
  (exists all_replacements log_path,
     snd (scan_and_replace (U := ascii_only) (str "/tool/gui.py")
            (Dir [str "a.gml"; str "a.gml.bak"] []) (str "/p")
            (str "/m/map.txt") true true
            (ex_project [(str "/p/a.gml", str "sprite_index = 12;");
                         (str "/p/a.gml.bak", str "sprite_index = 7;")]))
     = Ok ([str "/p/a.gml"], all_replacements, log_path))
  /\ content <$> fs (ex_project [(str "/p/a.gml", str "sprite_index = 12;");
                                 (str "/p/a.gml.bak", str "sprite_index = 7;")])
                   !! str "/p/a.gml"
     = Some (str "sprite_index = 12;")
  /\ content <$> fs (fst (scan_and_replace (U := ascii_only)
                            (str "/tool/gui.py")
                            (Dir [str "a.gml"; str "a.gml.bak"] []) (str "/p")
                            (str "/m/map.txt") true true
                            (ex_project
                               [(str "/p/a.gml", str "sprite_index = 12;");
                                (str "/p/a.gml.bak", str "sprite_index = 7;")])))
                   !! bak (str "/p/a.gml")
     = Some (str "sprite_index = 7;")
  /\ str "sprite_index = 7;" <> str "sprite_index = 12;".
Proof.
  vm_compute. split; [eexists _, _; reflexivity|].
  repeat split; discriminate.
Qed.

(** C4: [replace_in_file] changes the file system, by a backup or a write,
    only when the pass over the file recorded a replacement, and then
    returns them; a [.bak] of the file that exists is left as it is, by
    [replace_in_file] and, whatever file it belongs to, by every run of
    [scan_and_replace]. *)
Theorem C4_backup_only_with_records_and_once {U : Unicode}
    (sprite_map : gmap text text) :
  (forall filename gui_log_callback file_log_callback st st' r,
     replace_in_file filename sprite_map gui_log_callback file_log_callback st
     = (st', r) ->
     fs st' <> fs st ->
     exists f,
       fs st !! filename = Some f
       /\ file_events sprite_map filename f <> []
       /\ forall changed replacements,
            r = Ok (changed, replacements) ->
            changed = true
            /\ replacements = map snd (file_events sprite_map filename f)
            /\ replacements <> [])
  /\ (forall filename gui_log_callback file_log_callback st b,
        fs st !! bak filename = Some b ->
        fs (fst (replace_in_file filename sprite_map gui_log_callback
                   file_log_callback st)) !! bak filename = Some b)
  /\ (forall argv0 tree project_dir gui_log_callback status_callback st q b,
        fs st !! bak q = Some b ->
        fs (fst (scan_and_replace_with sprite_map argv0 tree project_dir
                   gui_log_callback status_callback st)) !! bak q = Some b)
  /\ (forall argv0 tree project_dir mapping_file gui_log_callback
        status_callback st q b,
        fs st !! bak q = Some b ->
        fs (fst (scan_and_replace argv0 tree project_dir mapping_file
                   gui_log_callback status_callback st)) !! bak q = Some b).
Proof.
  assert (Hrun : forall sm argv0 tree project_dir gui_log_callback
                   status_callback st q b,
    fs st !! bak q = Some b ->
    fs (fst (scan_and_replace_with sm argv0 tree project_dir
               gui_log_callback status_callback st)) !! bak q = Some b).
  { intros sm argv0 tree project_dir g s st q b Hb.
    apply (run_fs_inv sm g s (fun m => m !! bak q = Some b)); auto.
    - intros m f H. rewrite lookup_insert_ne; [assumption|].
      apply log_path_not_bak.
    - intros m h H. rewrite lookup_alter_ne; [assumption|].
      apply log_path_not_bak.
    - intros m p Hp H. apply fs_step_bak_kept;
        [now apply eligible_not_bak|assumption]. }
  repeat apply conj.
  - intros filename g fl st st' r H Hne.
    rewrite replace_in_file_spec in H.
    destruct (fs st !! filename) as [f|] eqn:Hf;
      [|injection H as <- _; congruence].
    destruct (readable f); [|injection H as <- _; congruence].
    cbv zeta in H.
    destruct (file_changed sprite_map filename f) eqn:Ec;
      [|injection H as <- _; now destruct Hne].
    exists f. split; [reflexivity|].
    pose proof (lines_changed_events _ _ _ _ Ec) as Hev.
    split; [assumption|]. intros changed replacements ->.
    destruct (writable f); [|discriminate].
    injection H as _ <- <-. repeat split.
    intros E. apply map_eq_nil in E. contradiction.
  - intros filename g fl st b Hb. rewrite replace_in_file_spec.
    destruct (fs st !! filename) as [f|]; [|assumption].
    destruct (readable f); [|assumption]. cbv zeta.
    destruct (file_changed sprite_map filename f); [|assumption].
    destruct (writable f); cbn [fst fs with_fs].
    + rewrite lookup_insert_ne by (symmetry; apply bak_ne).
      now apply with_backup_kept.
    + now apply with_backup_kept.
  - apply Hrun.
  - intros argv0 tree project_dir mapping_file g s st q b Hb.
    unfold scan_and_replace, bind.
    pose proof (load_sprite_map_state mapping_file st) as Hl.
    destruct (load_sprite_map mapping_file st) as [st1 [sm|e]];
      cbn [fst] in Hl; subst st1; [now apply Hrun|assumption].
Qed.

Lemma C4_witness :
  fs (fst (scan_and_replace (U := ascii_only) (str "/tool/gui.py")
             (Dir [str "a.gml"; str "a.gml.bak"; str "map.txt"] [])
             (str "/p") (str "/p/map.txt") true true
             (ex_state [(str "/p/a.gml", str "sprite_index = 12;");
                        (str "/p/a.gml.bak", str "sprite_index = 7;");
                        (str "/p/map.txt", str "12-spr_player_idle")])))
    !! bak (str "/p/a.gml")
  = Some (File (str "sprite_index = 7;") true true).
Proof.
  apply (proj2 (proj2 (proj2
           (C4_backup_only_with_records_and_once (U := ascii_only) ∅)))).
  reflexivity.
Defined.

(** ** Failure of one file *)

Section Failure.
Context {U : Unicode}.
Variable sprite_map : gmap text text.
Variables gui_log_callback status_callback : bool.

Lemma scan_path_fails acc (filepath : text) (st : state) :
  io_fails sprite_map filepath (fs st) ->
  snd (scan_path sprite_map gui_log_callback status_callback acc filepath st)
  = Raise (IOError filepath).
Proof.
  unfold io_fails. rewrite scan_path_spec. cbv zeta.
  destruct (fs st !! filepath) as [f|]; [|reflexivity].
  intros [->|[-> ->]]; [reflexivity|]. now destruct (readable f).
Qed.

Lemma fs_step_eligible_other (p k : text) (m : gmap text file) :
  eligible k = true -> k <> p -> fs_step sprite_map p m !! k = m !! k.
Proof.
  intros Hk Hne. apply fs_step_other; [assumption|].
  now apply eligible_not_bak.
Qed.

(** A failing step does not write the file itself either. *)
Lemma fs_step_fails (p k : text) (m : gmap text file) :
  io_fails sprite_map p m -> eligible k = true ->
  fs_step sprite_map p m !! k = m !! k.
Proof.
  intros Hf Hk. unfold io_fails, fs_step in *.
  destruct (m !! p) as [f|] eqn:E; [|reflexivity].
  destruct Hf as [->|[-> ->]]; [reflexivity|].
  destruct (readable f); cbn [andb]; [|reflexivity].
  apply with_backup_other. now apply eligible_not_bak.
Qed.

Lemma foldM_fails (pre post : list text) (filepath : text) acc (st : state) :
  (forall p, p ∈ pre -> eligible p = true) -> eligible filepath = true ->
  io_fails sprite_map filepath (fs st) ->
  exists st' e,
    foldM (scan_path sprite_map gui_log_callback status_callback) acc
      (pre ++ filepath :: post) st = (st', Raise e)
    /\ forall k, eligible k = true -> k ∉ pre -> fs st' !! k = fs st !! k.
Proof.
  intros Hpre Hel. revert acc st.
  induction pre as [|p pre IH]; intros acc st Hf; cbn [app foldM]; unfold bind.
  - pose proof (scan_path_fails acc filepath st Hf) as Hr.
    pose proof (scan_path_fs sprite_map gui_log_callback status_callback
                  acc filepath st) as Hfs.
    destruct (scan_path _ _ _ acc filepath st) as [st1 r]. cbn [fst snd] in *.
    subst r. exists st1, (IOError filepath). split; [reflexivity|].
    intros k Hk _. rewrite Hfs. now apply fs_step_fails.
  - pose proof (scan_path_fs sprite_map gui_log_callback status_callback
                  acc p st) as Hfs.
    pose proof (scan_path_fails acc p st) as Hr.
    destruct (scan_path _ _ _ acc p st) as [st1 [acc1|e]]; cbn [fst snd] in *.
    + assert (Hne : filepath <> p).
      { intros ->. specialize (Hr Hf). discriminate. }
      destruct (IH ltac:(intros; apply Hpre; set_solver) acc1 st1)
        as (st' & e & Hrun & Hk).
      { unfold io_fails. rewrite Hfs.
        now rewrite fs_step_eligible_other. }
      exists st', e. split; [assumption|]. intros k Hel' Hnin.
      apply not_elem_of_cons in Hnin as [Hkp Hnin].
      rewrite (Hk k Hel' Hnin), Hfs. now apply fs_step_eligible_other.
    + exists st1, e. split; [reflexivity|]. intros k Hel' Hnin.
      apply not_elem_of_cons in Hnin as [Hkp Hnin].
      rewrite Hfs. now apply fs_step_eligible_other.
Qed.

Lemma io_fails_ext (filepath : text) (m m' : gmap text file) :
  m' !! filepath = m !! filepath ->
  io_fails sprite_map filepath m -> io_fails sprite_map filepath m'.
Proof. unfold io_fails. now intros ->. Qed.

Lemma run_fails (argv0 : text) (tree : dir) (project_dir : text)
    (pre post : list text) (filepath : text) (st : state) :
  walk_paths (os_walk project_dir tree) = pre ++ filepath :: post ->
  io_fails sprite_map filepath (fs st) ->
  exists st' e,
    scan_and_replace_with sprite_map argv0 tree project_dir
      gui_log_callback status_callback st = (st', Raise e)
    /\ forall k, eligible k = true -> k ∉ pre -> fs st' !! k = fs st !! k.
Proof.
  intros Hw Hf. rewrite scan_and_replace_with_spec. cbv zeta.
  destruct (log_openable (log_path_of argv0) (fs st));
    [|now exists st, (IOError (log_path_of argv0))].
  assert (Hall : forall p, p ∈ pre ++ filepath :: post -> eligible p = true).
  { intros p Hp. rewrite <- Hw in Hp. eapply walk_paths_eligible; eauto. }
  assert (Hel : eligible filepath = true) by (apply Hall; set_solver).
  rewrite Hw.
  destruct (foldM_fails pre post filepath ([], [])
              (open_log (log_path_of argv0) st)) as (st1 & e & -> & Hk).
  - intros p Hp. apply Hall. set_solver.
  - assumption.
  - eapply io_fails_ext; [|exact Hf]. cbn.
    apply lookup_insert_ne. intros E. symmetry in E.
    now apply eligible_not_log in E.
  - exists (close_log (log_path_of argv0) st1), e. split; [reflexivity|].
    intros k Hk1 Hk2. cbn.
    rewrite lookup_alter_ne
      by (intros E; symmetry in E; now apply eligible_not_log in E).
    rewrite (Hk k Hk1 Hk2). cbn. apply lookup_insert_ne.
    intros E. symmetry in E. now apply eligible_not_log in E.
Qed.

End Failure.




(** ** The report of a run *)

Lemma flat_map_ext_in {A B} (f g : A -> list B) (l : list A) :
  (forall a, In a l -> f a = g a) -> flat_map f l = flat_map g l.
Proof.
  intros H. rewrite !flat_map_concat_map. f_equal. now apply map_ext_in.
Qed.

Section Report.
Context {U : Unicode}.
Variable sprite_map : gmap text text.
Variables gui_log_callback status_callback : bool.

Local Abbreviation changed m := (changed_at sprite_map m).
Local Abbreviation events m := (events_at sprite_map m).
Local Abbreviation records m :=
  (fun p => map (tag p) (map snd (events_at sprite_map m p))).

Lemma fold_report (paths : list text) acc (st : state) acc' (st' : state) :
  NoDup paths -> (forall p, p ∈ paths -> eligible p = true) ->
  foldM (scan_path sprite_map gui_log_callback status_callback) acc paths st
  = (st', Ok acc') ->
  fst acc' = fst acc ++ List.filter (changed (fs st)) paths
  /\ snd acc' = snd acc
       ++ flat_map (records (fs st)) (List.filter (changed (fs st)) paths)
  /\ log_f st' = log_f st ++ log_lines (flat_map (events (fs st)) paths).
Proof.
  revert acc st. induction paths as [|p paths IH]; intros acc st Hnd Hel H.
  - cbn in H. unfold ret in H. injection H as <- <-. cbn.
    now rewrite !app_nil_r.
  - cbn [foldM] in H. unfold bind in H.
    pose proof (scan_path_fs sprite_map gui_log_callback status_callback
                  acc p st) as Hfs.
    destruct (scan_path _ _ _ acc p st) as [st1 [acc1|e]] eqn:E;
      [|discriminate].
    cbn [fst] in Hfs. apply NoDup_cons in Hnd as [Hp Hnd].
    assert (Hsame : forall q, q ∈ paths -> fs st1 !! q = fs st !! q).
    { intros q Hq. rewrite Hfs. apply fs_step_eligible_other.
      - apply Hel. set_solver.
      - intros ->. contradiction. }
    apply IH in H as (H1 & H2 & H3); [|assumption|intros; apply Hel; set_solver].
    assert (Hc : List.filter (changed (fs st1)) paths
                 = List.filter (changed (fs st)) paths).
    { apply filter_ext_in. intros q Hq. unfold changed_at.
      now rewrite Hsame by now apply list_elem_of_In. }
    assert (Hr : forall l : list text, (forall q, q ∈ l -> q ∈ paths) ->
              flat_map (records (fs st1)) l = flat_map (records (fs st)) l).
    { intros l Hl. apply flat_map_ext_in. intros q Hq. unfold events_at.
      now rewrite Hsame by (apply Hl; now apply list_elem_of_In). }
    assert (He : flat_map (events (fs st1)) paths
                 = flat_map (events (fs st)) paths).
    { apply flat_map_ext_in. intros q Hq. unfold events_at.
      now rewrite Hsame by now apply list_elem_of_In. }
    rewrite Hc in H1, H2. rewrite Hr in H2.
    2:{ intros q Hq. apply list_elem_of_In in Hq.
        apply filter_In in Hq as [Hq _]. now apply list_elem_of_In. }
    rewrite He in H3. clear Hc Hr He.
    rewrite scan_path_spec in E. cbv zeta in E.
    destruct (fs st !! p) as [f|] eqn:Ef; [|discriminate].
    assert (Hcp : changed (fs st) p = file_changed sprite_map p f)
      by (unfold changed_at; now rewrite Ef).
    assert (Hep : events (fs st) p = file_events sprite_map p f)
      by (unfold events_at; now rewrite Ef).
    cbn [List.filter flat_map]. rewrite Hcp. unfold log_lines in *.
    destruct (readable f); [|discriminate].
    destruct (file_changed sprite_map p f).
    + destruct (writable f); [|discriminate].
      injection E as <- <-. cbn [fst snd flat_map] in *.
      rewrite H1, H2, H3, Hep. cbn [log_f with_fs emit announce].
      now rewrite map_app, concat_app, <- !app_assoc.
    + injection E as <- <-. cbn [fst snd] in *.
      rewrite H1, H2, H3, Hep. cbn [log_f emit announce].
      now rewrite map_app, concat_app, <- !app_assoc.
Qed.

Lemma run_report (argv0 : text) (tree : dir) (project_dir : text)
    (st st' : state) replaced_files all_replacements log_path :
  NoDup (walk_paths (os_walk project_dir tree)) ->
  scan_and_replace_with sprite_map argv0 tree project_dir
    gui_log_callback status_callback st
  = (st', Ok (replaced_files, all_replacements, log_path)) ->
  let paths := walk_paths (os_walk project_dir tree) in
  log_path = log_path_of argv0
  /\ replaced_files = List.filter (changed (fs st)) paths
  /\ all_replacements = flat_map (records (fs st)) replaced_files
  /\ content <$> fs st' !! log_path
     = Some (log_lines (flat_map (events (fs st)) paths)
               ++ summary replaced_files log_path).
Proof.
  intros Hnd. rewrite scan_and_replace_with_spec. cbv zeta.
  destruct (log_openable (log_path_of argv0) (fs st)); [|discriminate].
  pose proof (foldM_state_inv
                (scan_path sprite_map gui_log_callback status_callback)
                (fun s => is_Some (fs s !! log_path_of argv0))
                (walk_paths (os_walk project_dir tree))) as Hlog.
  specialize (Hlog ltac:(intros acc x s Hx Hs; cbv beta in *;
                         rewrite scan_path_fs, fs_step_other;
                         [assumption
                         |symmetry; apply eligible_not_log;
                          eapply walk_paths_eligible; eauto
                         |apply log_path_not_bak])
                ([], []) (open_log (log_path_of argv0) st)
                ltac:(cbn; rewrite lookup_insert_eq; eauto)).
  cbv beta in Hlog.
  destruct (foldM _ _ _ (open_log (log_path_of argv0) st))
    as [st1 [acc|e]] eqn:E; [|discriminate].
  cbn [fst] in Hlog. destruct Hlog as [lf Hlf].
  intros H. injection H as <- <- <- <-.
  apply fold_report in E as (H1 & H2 & H3);
    [|assumption|apply walk_paths_eligible].
  cbn [fst snd app log_f open_log] in H1, H2, H3.
  assert (Hsame : forall q, eligible q = true ->
            fs (open_log (log_path_of argv0) st) !! q = fs st !! q).
  { intros q Hq. cbn. apply lookup_insert_ne. intros Eq. symmetry in Eq.
    now apply eligible_not_log in Eq. }
  assert (Hc : List.filter (changed (fs (open_log (log_path_of argv0) st)))
                 (walk_paths (os_walk project_dir tree))
               = List.filter (changed (fs st))
                   (walk_paths (os_walk project_dir tree))).
  { apply filter_ext_in. intros q Hq. unfold changed_at.
    rewrite Hsame; [reflexivity|].
    eapply walk_paths_eligible. apply list_elem_of_In. eauto. }
  assert (He : forall l : list text,
            (forall q, q ∈ l -> eligible q = true) ->
            flat_map (events (fs (open_log (log_path_of argv0) st))) l
            = flat_map (events (fs st)) l).
  { intros l Hl. apply flat_map_ext_in. intros q Hq. unfold events_at.
    rewrite Hsame; [reflexivity|]. apply Hl. now apply list_elem_of_In. }
  assert (Hr : forall l : list text,
            (forall q, q ∈ l -> eligible q = true) ->
            flat_map (records (fs (open_log (log_path_of argv0) st))) l
            = flat_map (records (fs st)) l).
  { intros l Hl. apply flat_map_ext_in. intros q Hq. unfold events_at.
    rewrite Hsame; [reflexivity|]. apply Hl. now apply list_elem_of_In. }
  rewrite Hc in H1, H2. rewrite He in H3 by apply walk_paths_eligible.
  rewrite Hr in H2.
  2:{ intros q Hq. apply list_elem_of_In, filter_In in Hq as [Hq _].
      eapply walk_paths_eligible. apply list_elem_of_In. eauto. }
  repeat split.
  - assumption.
  - now rewrite H2, H1.
  - cbn [fs close_log finish log_f].
    rewrite lookup_alter_eq, Hlf. cbn. now rewrite H3.
Qed.

End Report.

Lemma length_tagged {U : Unicode} (sprite_map : gmap text text)
    (m : gmap text file) (l : list text) :
  length (flat_map (fun p => map (tag p)
                                (map snd (events_at sprite_map m p))) l)
  = length (flat_map (events_at sprite_map m) l).
Proof.
  induction l as [|p l IH]; [reflexivity|].
  cbn [flat_map]. now rewrite !length_app, !length_map, IH.
Qed.

(** C9, as the code has it: after a run over a walk without repeated
    paths, the list of changed files is the list of the eligible files in
    which a line differs, in walk order; the list of replacements holds the
    substitutions accepted in those files, and only those; the session log
    holds one line for every substitution accepted in any eligible file,
    also in a file that is left as it was, and then the summary, which is
    an empty line, [Replacements done in N files.] and
    [Log saved to <log path>]. *)
Theorem C9_aggregate_reporting {U : Unicode}
    (sprite_map : gmap text text) (argv0 : text) (tree : dir)
    (project_dir mapping_file : text) (gui_log_callback status_callback : bool)
    (st st' : state) (replaced_files : list text)
    (all_replacements : list file_replacement) (log_path : text) :
  NoDup (walk_paths (os_walk project_dir tree)) ->
  load_sprite_map mapping_file st = (st, Ok sprite_map) ->
  scan_and_replace argv0 tree project_dir mapping_file
    gui_log_callback status_callback st
  = (st', Ok (replaced_files, all_replacements, log_path)) ->
  let paths := walk_paths (os_walk project_dir tree) in
  replaced_files = List.filter (changed_at sprite_map (fs st)) paths
  /\ all_replacements
     = flat_map (fun p => map (tag p)
                            (map snd (events_at sprite_map (fs st) p)))
         replaced_files
  /\ length all_replacements
     = length (flat_map (events_at sprite_map (fs st)) replaced_files)
  /\ content <$> fs st' !! log_path
     = Some (log_lines (flat_map (events_at sprite_map (fs st)) paths)
               ++ [LF] ++ str "Replacements done in "
               ++ str_of_nat (length replaced_files) ++ str " files."
               ++ [LF] ++ str "Log saved to " ++ log_path ++ [LF]).
Proof.
  intros Hnd Hload Hrun.
  rewrite (scan_and_replace_with_loaded sprite_map) in Hrun by assumption.
  destruct (run_report _ _ _ _ _ _ _ _ _ _ _ Hnd Hrun) as (_ & H1 & H2 & H3).
  cbv zeta. repeat split; try assumption.
  rewrite H2. apply length_tagged.
Qed.

Lemma C9_witness :
  [str "/p/a.gml"]
  = List.filter
      (changed_at (U := ascii_only) ex_map
         (fs (ex_project [(str "/p/a.gml", str "sprite_index = 12;");
                          (str "/p/b.gml", str "x = 12;")])))
      (walk_paths (os_walk (str "/p") (Dir [str "a.gml"; str "b.gml"] [])))
  /\ [(str "/p/a.gml", str "sprite_index = 12;",
       str "sprite_index = spr_player_idle;", 1%nat)]
     = flat_map
         (fun p => map (tag p)
                     (map snd
                        (events_at ex_map
                           (fs (ex_project
                                  [(str "/p/a.gml", str "sprite_index = 12;");
                                   (str "/p/b.gml", str "x = 12;")])) p)))
         [str "/p/a.gml"]
  /\ length [(str "/p/a.gml", str "sprite_index = 12;",
              str "sprite_index = spr_player_idle;", 1%nat)]
     = length
         (flat_map
            (events_at ex_map
               (fs (ex_project [(str "/p/a.gml", str "sprite_index = 12;");
                                (str "/p/b.gml", str "x = 12;")])))
            [str "/p/a.gml"])
  /\ content <$> fs (fst (scan_and_replace (U := ascii_only)
                            (str "/tool/gui.py")
                            (Dir [str "a.gml"; str "b.gml"] []) (str "/p")
                            (str "/m/map.txt") true true
                            (ex_project
                               [(str "/p/a.gml", str "sprite_index = 12;");
                                (str "/p/b.gml", str "x = 12;")])))
                   !! str "/tool/spritereplacement_log.txt"
     = Some (log_lines
               (flat_map
                  (events_at ex_map
                     (fs (ex_project
                            [(str "/p/a.gml", str "sprite_index = 12;");
                             (str "/p/b.gml", str "x = 12;")])))
                  (walk_paths (os_walk (str "/p")
                                 (Dir [str "a.gml"; str "b.gml"] []))))
               ++ [LF] ++ str "Replacements done in "
               ++ str_of_nat (length [str "/p/a.gml"]) ++ str " files."
               ++ [LF] ++ str "Log saved to "
               ++ str "/tool/spritereplacement_log.txt" ++ [LF]).
Proof.
  apply (C9_aggregate_reporting (U := ascii_only) ex_map (str "/tool/gui.py")
           (Dir [str "a.gml"; str "b.gml"] []) (str "/p") (str "/m/map.txt")
           true true
           (ex_project [(str "/p/a.gml", str "sprite_index = 12;");
                        (str "/p/b.gml", str "x = 12;")])).
  - vm_compute. apply NoDup_cons. split; [|apply NoDup_singleton].
    intros H. apply list_elem_of_singleton in H. discriminate.
  - now vm_compute.
  - now vm_compute.
Defined.

(** Against C9 as stated: with the mapping [1] to [2] and [2] to [1], the
    line [sprite_index = 1;] has two accepted substitutions, one per shape,
    and ends as it was.  No file is changed and the run returns no
    replacement, not two; the session log has the two substitution lines,
    and its summary is three lines, the first of them empty. *)
Lemma C9_counterexample :
  snd (scan_and_replace (U := ascii_only) (str "/tool/gui.py")
         (Dir [str "a.gml"] []) (str "/p") (str "/m/map.txt") true true
         (ex_swapped [(str "/p/a.gml", str "sprite_index = 1;")]))
  = Ok ([], [], str "/tool/spritereplacement_log.txt")
  /\ load_sprite_map (U := ascii_only) (str "/m/map.txt")
       (ex_swapped [(str "/p/a.gml", str "sprite_index = 1;")])
     = (ex_swapped [(str "/p/a.gml", str "sprite_index = 1;")], Ok ex_swap)
  /\ length (snd (sub_line (U := ascii_only) ex_swap (str "/p/a.gml") 1
                    (str "sprite_index = 1;"))) = 2%nat
  /\ content <$> fs (fst (scan_and_replace (U := ascii_only)
                            (str "/tool/gui.py") (Dir [str "a.gml"] [])
                            (str "/p") (str "/m/map.txt") true true
                            (ex_swapped
                               [(str "/p/a.gml", str "sprite_index = 1;")])))
                   !! str "/tool/spritereplacement_log.txt"
     = Some (str "[a.gml:1] sprite_index = 1; " ++ [ARROW]
               ++ str " sprite_index = 2;" ++ [LF]
               ++ str "[a.gml:1] sprite_index = 1; " ++ [ARROW]
               ++ str " sprite_index = 1;" ++ [LF]
               ++ [LF] ++ str "Replacements done in 0 files." ++ [LF]
               ++ str "Log saved to /tool/spritereplacement_log.txt" ++ [LF]).
Proof. vm_compute. repeat split. Qed.

(** ** Matches in rewritten text *)

Section Runs.

Lemma take_while_app f (a b : text) :
  take_while f (a ++ b)
  = if forallb f a then a ++ take_while f b else take_while f a.
Proof.
  induction a as [|c a IH]; [reflexivity|]. simpl.
  destruct (f c); [|reflexivity]. simpl. rewrite IH.
  now destruct (forallb f a).
Qed.

Lemma drop_while_app f (a b : text) :
  drop_while f (a ++ b)
  = if forallb f a then drop_while f b else drop_while f a ++ b.
Proof.
  induction a as [|c a IH]; [reflexivity|]. simpl.
  destruct (f c); [|reflexivity]. simpl. exact IH.
Qed.

Lemma forallb_false_drop f (a : text) :
  forallb f a = false -> exists c t, drop_while f a = c :: t /\ f c = false.
Proof.
  induction a as [|c a IH]; [discriminate|]. simpl.
  destruct (f c) eqn:E; [exact IH|]. intros _. eauto.
Qed.

Lemma forallb_drop_while (f g : N -> bool) (a : text) :
  forallb f a = true -> forallb f (drop_while g a) = true.
Proof.
  induction a as [|c a IH]; [reflexivity|]. simpl. intros H.
  apply andb_true_iff in H as [Hc Ha].
  destruct (g c); [auto|]. simpl. now rewrite Hc, Ha.
Qed.

Lemma forallb_drop (f : N -> bool) (a : text) i :
  forallb f a = true -> forallb f (drop i a) = true.
Proof.
  revert i. induction a as [|c a IH]; intros [|i]; try reflexivity; auto.
  simpl. intros H. apply andb_true_iff in H as [_ H]. auto.
Qed.

End Runs.

Section Blocked.
Context {U : Unicode}.

(** A match of the tail does not run into text that starts with a word
    character and has a word character after its leading digits. *)
Lemma match_tail_blocked (a b : text) w0 b0 c' b1 (num rest : text) :
  b = w0 :: b0 -> isword w0 = true ->
  drop_while isdigit b = c' :: b1 -> isword c' = true ->
  match_tail (a ++ b) = Some (num, rest) ->
  exists a2, match_tail a = Some (num, a2) /\ rest = a2 ++ b.
Proof.
  intros Hb Hw0 Hd Hc'.
  assert (Hsb : drop_while isspace b = b).
  { rewrite Hb. simpl. now rewrite (isword_not_isspace w0 Hw0). }
  assert (Hc_semi : (c' =? SEMI) = false).
  { apply N.eqb_neq. apply (isword_punct _ Hc'). }
  assert (Hc_space : isspace c' = false) by now apply isword_not_isspace.
  unfold match_tail. rewrite drop_while_app.
  destruct (forallb isspace a) eqn:Ea.
  { rewrite Hsb, Hb. destruct (N.eqb_spec w0 EQUALS) as [->|]; [|discriminate].
    discriminate Hw0. }
  destruct (forallb_false_drop _ _ Ea) as (c & s2 & -> & _). cbn [app].
  destruct (c =? EQUALS); [|discriminate]. cbv zeta.
  rewrite drop_while_app.
  destruct (forallb isspace s2) eqn:E2.
  { rewrite Hsb, Hd. destruct (take_while isdigit b); [discriminate|].
    cbn [drop_while]. rewrite Hc_space, Hc_semi. discriminate. }
  destruct (forallb_false_drop _ _ E2) as (c2 & t2 & -> & Hc2).
  rewrite take_while_app, drop_while_app.
  destruct (forallb isdigit (c2 :: t2)) eqn:E3.
  { rewrite Hd. cbn [app drop_while]. rewrite Hc_space, Hc_semi. discriminate. }
  destruct (take_while isdigit (c2 :: t2)) as [|d n]; [discriminate|].
  destruct (forallb_false_drop _ _ E3) as (c3 & t3 & -> & Hc3).
  rewrite drop_while_app.
  destruct (forallb isspace (c3 :: t3)) eqn:E4.
  { rewrite Hsb, Hb. destruct (N.eqb_spec w0 SEMI) as [->|]; [|discriminate].
    discriminate Hw0. }
  destruct (forallb_false_drop _ _ E4) as (c4 & t4 & -> & Hc4). cbn [app].
  destruct (c4 =? SEMI); [|discriminate].
  intros H. injection H as <- <-. eauto.
Qed.

End Blocked.

Section Rewritten.
Context {U : Unicode}.

Lemma fragment_app (v value z : text) :
  fragment v value ++ z = v ++ SPACE :: EQUALS :: SPACE :: value ++ SEMI :: z.
Proof. unfold fragment. now rewrite <- !app_assoc. Qed.

Lemma contains_spr_not_digits (v : text) :
  contains (str "spr") v = true -> forallb isdigit v = false.
Proof.
  induction v as [|c v IH]; [discriminate|]. cbn [contains forallb].
  intros H. apply orb_true_iff in H as [H|H].
  - apply startswith_spec in H as [t Ht]. injection Ht as -> _. reflexivity.
  - rewrite (IH H). apply andb_false_r.
Qed.

Lemma var_shape_not_digits var (v : text) :
  var_shape var v = true -> forallb isdigit v = false.
Proof.
  destruct var; cbn [var_shape]; intros H.
  - apply text_eqb_spec in H as ->. reflexivity.
  - apply andb_true_iff in H as [_ H]. now apply contains_spr_not_digits.
Qed.

Lemma var_shape_any var (v : text) :
  var_shape var v = true -> var_shape AnySpr v = true.
Proof.
  destruct var; [|auto]. cbn [var_shape]. intros H.
  apply text_eqb_spec in H as ->. reflexivity.
Qed.

(** Where [sprite_index] matches, [\w*spr\w*] matches too, the same text. *)
Lemma match_at_any var (s v num rest : text) :
  match_at var s = Some (v, num, rest) ->
  match_at AnySpr s = Some (v, num, rest).
Proof.
  intros H.
  apply match_at_elim in H as (ws1 & ws2 & ws3 & -> & Hv & H1 & H2 & Hn & Hne & H3).
  apply match_at_intro; try assumption. eapply var_shape_any; eauto.
Qed.

Lemma inactive_any sprite_map var (s : text) :
  inactive sprite_map AnySpr s -> inactive sprite_map var s.
Proof. intros H i v num rest Hm. eapply H, match_at_any; eauto. Qed.

(** After [= ] and an identifier no digits follow. *)
Lemma match_tail_fragment (value z : text) :
  identifier value ->
  match_tail (SPACE :: EQUALS :: SPACE :: value ++ SEMI :: z) = None.
Proof.
  intros [Hw Hd]. unfold match_tail. cbn [drop_while].
  rewrite isspace_SPACE. cbn [drop_while].
  change (isspace EQUALS) with false. cbv iota. rewrite N.eqb_refl. cbv zeta.
  cbn [drop_while]. rewrite isspace_SPACE.
  destruct value as [|c value]; [reflexivity|].
  cbn [forallb] in Hw. apply andb_true_iff in Hw as [Hc _].
  cbn [app drop_while take_while]. cbn in Hd.
  rewrite (isword_not_isspace c Hc). cbn [take_while]. now rewrite Hd.
Qed.

(** A match of [\w*spr\w*] does not run into a replacement. *)
Lemma match_at_blocked var (v value a z v' num' rest' : text) :
  var_shape var v = true -> identifier value ->
  match_at AnySpr (a ++ fragment v value ++ z) = Some (v', num', rest') ->
  exists a2,
    match_at AnySpr a = Some (v', num', a2)
    /\ rest' = a2 ++ fragment v value ++ z.
Proof.
  intros Hv Hid. rewrite fragment_app.
  set (t := SPACE :: EQUALS :: SPACE :: value ++ SEMI :: z).
  pose proof (var_shape_word _ _ Hv) as Hw.
  pose proof (var_shape_nonempty _ _ Hv) as Hne.
  pose proof (var_shape_not_digits _ _ Hv) as Hnd.
  unfold match_at, match_var. rewrite take_while_app, drop_while_app.
  destruct (forallb isword a) eqn:Ea.
  - destruct (run_app isword v t Hw eq_refl) as [-> ->].
    destruct (contains (str "spr") (a ++ v)); [|discriminate].
    unfold t. now rewrite match_tail_fragment.
  - destruct (contains (str "spr") (take_while isword a)); [|discriminate].
    destruct (match_tail (drop_while isword a ++ v ++ t))
      as [[n r]|] eqn:Et; [|discriminate].
    intros H. injection H as <- <- <-.
    destruct v as [|w0 v0] eqn:Ev; [congruence|]. rewrite <- Ev in *.
    destruct (forallb_false_drop _ _ Hnd) as (c' & t' & Hd & _).
    eapply (match_tail_blocked _ (v ++ t) w0 (v0 ++ t) c' (t' ++ t)) in Et.
    + destruct Et as (a2 & -> & ->). eauto.
    + now rewrite Ev.
    + rewrite Ev in Hw. cbn in Hw. now apply andb_true_iff in Hw as [Hw _].
    + now rewrite drop_while_app, Hnd, Hd.
    + pose proof (forallb_drop_while isword isdigit v Hw) as H.
      rewrite Hd in H. cbn in H. now apply andb_true_iff in H as [H _].
Qed.

End Rewritten.

(** ** A second pass finds nothing to do *)

Section SecondPass.
Context {U : Unicode}.
Variable sprite_map : gmap text text.
Variable filename : text.
Hypothesis Hids : identifiers sprite_map.

(** A match in text that a pass returned is a match in the text the pass
    was given. *)
Lemma match_at_sub var idx orig_line (x a v' num' rest' : text) :
  match_at AnySpr (a ++ fst (re_sub sprite_map filename var idx orig_line x))
  = Some (v', num', rest') ->
  exists rest'', match_at AnySpr (a ++ x) = Some (v', num', rest'').
Proof.
  revert a rest'.
  induction x as [|c x Hno IH|x v num rest Hm IH] using (re_sub_ind var);
    intros a rest'.
  - rewrite re_sub_nil. cbn [fst]. eauto.
  - rewrite re_sub_nomatch by assumption. cbn [fst].
    change (a ++ c :: fst (re_sub sprite_map filename var idx orig_line x))
      with (a ++ [c] ++ fst (re_sub sprite_map filename var idx orig_line x)).
    change (a ++ c :: x) with (a ++ [c] ++ x). rewrite !app_assoc. apply IH.
  - rewrite (re_sub_match _ _ _ _ _ _ _ _ _ Hm). cbn [fst].
    destruct (match_at_length _ _ _ _ _ Hm) as (m & -> & _).
    rewrite captured_app.
    destruct (sprite_map !! num) as [value|] eqn:Hk.
    + rewrite (repl_key _ _ _ _ _ _ _ _ Hk). cbn [fst]. intros H.
      apply match_at_elim in Hm as (_ & _ & _ & _ & Hv & _).
      apply (match_at_blocked var v value a _ v' num' rest' Hv
               (Hids _ _ Hk)) in H as (a2 & H & _).
      exists (a2 ++ m ++ rest). now apply match_at_app.
    + rewrite repl_no_key by assumption. cbn [fst].
      rewrite !app_assoc. apply IH.
Qed.

Lemma inactive_app var (m y : text) :
  (forall i v num rest,
     (i < length m)%nat ->
     match_at var (drop i m ++ y) = Some (v, num, rest) ->
     sprite_map !! num = None) ->
  inactive sprite_map var y -> inactive sprite_map var (m ++ y).
Proof.
  intros Hm Hy i v num rest H.
  destruct (Nat.lt_ge_cases i (length m)) as [Hi|Hi].
  - rewrite drop_app_le in H by lia. eauto.
  - rewrite drop_app_ge in H by assumption. eapply Hy; eauto.
Qed.

Lemma digits_run (u : text) :
  forallb (fun c => negb (isword c) || isdigit c) u = true ->
  forallb isdigit (take_while isword u) = true.
Proof.
  induction u as [|c u IH]; [reflexivity|]. cbn [forallb take_while].
  intros H. apply andb_true_iff in H as [Hc Hu].
  destruct (isword c); [|reflexivity]. cbn in Hc |- *. now rewrite Hc, IH.
Qed.

(** Text without a word character that is no digit, up to a semicolon, holds
    no match. *)
Lemma no_match_digits (u r : text) :
  forallb (fun c => negb (isword c) || isdigit c) u = true ->
  match_at AnySpr (u ++ SEMI :: r) = None.
Proof.
  intros Hu. unfold match_at, match_var.
  assert (E : take_while isword (u ++ SEMI :: r) = take_while isword u).
  { rewrite take_while_app. destruct (forallb isword u) eqn:Ew; [|reflexivity].
    cbn [take_while]. rewrite isword_SEMI, app_nil_r.
    destruct (run_app isword u [] Ew I) as [H _].
    now rewrite app_nil_r in H. }
  rewrite E.
  destruct (contains (str "spr") (take_while isword u)) eqn:Ec; [|reflexivity].
  apply contains_spr_not_digits in Ec. now rewrite digits_run in Ec.
Qed.

(** A match that starts inside the span of a match has its digits. *)
Lemma match_inside_span (v ws1 ws2 num ws3 r : text) i (v' num' rest' : text) :
  forallb isword v = true ->
  forallb isspace ws1 = true -> forallb isspace ws2 = true ->
  forallb isdigit num = true -> num <> [] ->
  forallb isspace ws3 = true ->
  (i < length (v ++ ws1 ++ EQUALS :: ws2 ++ num ++ ws3 ++ [SEMI]))%nat ->
  match_at AnySpr
    (drop i (v ++ ws1 ++ EQUALS :: ws2 ++ num ++ ws3 ++ [SEMI]) ++ r)
  = Some (v', num', rest') ->
  num' = num.
Proof.
  intros Hv H1 H2 Hn Hne H3 Hi H.
  destruct (Nat.lt_ge_cases i (length v)) as [Hiv|Hiv].
  - rewrite drop_app_le in H by lia.
    repeat (rewrite <- app_assoc in H; cbn [app] in H).
    apply match_at_elim in H
      as (ws1' & ws2' & ws3' & E & Hv' & H1' & H2' & Hn' & Hne' & H3').
    apply var_shape_word in Hv'.
    assert (Hs : forall (w : text) t, forallb isspace w = true ->
              stops isword (w ++ EQUALS :: t))
      by (intros; now apply stops_word_tail).
    apply (f_equal (drop_while isword)) in E.
    destruct (run_app isword (drop i v) _ (forallb_drop _ _ i Hv)
                (Hs ws1 (ws2 ++ num ++ ws3 ++ SEMI :: r) H1)) as [_ E1].
    destruct (run_app isword v' _ Hv'
                (Hs ws1' (ws2' ++ num' ++ ws3' ++ SEMI :: rest') H1'))
      as [_ E1'].
    rewrite E1, E1' in E.
    assert (Ht : match_tail (ws1 ++ EQUALS :: ws2 ++ num ++ ws3 ++ SEMI :: r)
                 = Some (num, r)) by now apply match_tail_intro.
    rewrite E, match_tail_intro in Ht by assumption. congruence.
  - exfalso. rewrite drop_app_ge in H by assumption.
    set (j := (i - length v)%nat) in *.
    assert (Hj : (j <= length (ws1 ++ EQUALS :: ws2 ++ num ++ ws3))%nat).
    { rewrite !length_app in Hi. cbn [length] in Hi.
      rewrite !length_app in Hi. cbn [length] in Hi.
      rewrite !length_app. cbn [length]. rewrite !length_app. unfold j. lia. }
    assert (E : ws1 ++ EQUALS :: ws2 ++ num ++ ws3 ++ [SEMI]
                = (ws1 ++ EQUALS :: ws2 ++ num ++ ws3) ++ [SEMI])
      by (repeat (rewrite <- app_assoc; cbn [app]); reflexivity).
    rewrite E, drop_app_le, <- app_assoc in H by assumption.
    change ([SEMI] ++ r) with (SEMI :: r) in H.
    rewrite no_match_digits in H; [discriminate|].
    apply forallb_drop.
    assert (Hsp : forall w : text, forallb isspace w = true ->
              forallb (fun c => negb (isword c) || isdigit c) w = true).
    { intros w Hw. apply forallb_forall. intros c Hc.
      rewrite forallb_forall in Hw.
      now rewrite (isspace_not_isword c (Hw c Hc)). }
    rewrite forallb_app, (Hsp ws1 H1). cbn [forallb andb].
    change (negb (isword EQUALS) || isdigit EQUALS) with true. cbn [andb].
    rewrite !forallb_app, (Hsp ws2 H2), (Hsp ws3 H3). cbn [andb].
    rewrite andb_true_r. apply forallb_forall. intros c Hc.
    rewrite forallb_forall in Hn. rewrite (Hn c Hc). apply orb_true_r.
Qed.

(** No match starts inside a replacement. *)
Lemma no_match_in_fragment var (v value r : text) i :
  var_shape var v = true -> identifier value ->
  (i < length (fragment v value))%nat ->
  match_at AnySpr (drop i (fragment v value) ++ r) = None.
Proof.
  intros Hv Hid. pose proof (var_shape_word _ _ Hv) as Hw.
  assert (E : fragment v value = v ++ SPACE :: EQUALS :: SPACE :: value ++ [SEMI])
    by (rewrite <- (app_nil_r (fragment v value)); apply fragment_app).
  rewrite E. clear E. rewrite length_app. cbn [length]. rewrite length_app.
  cbn [length]. intros Hi.
  destruct (Nat.lt_ge_cases i (length v)) as [Hiv|Hiv].
  - rewrite drop_app_le by lia. rewrite <- app_assoc. cbn [app].
    rewrite <- app_assoc. cbn [app].
    unfold match_at, match_var.
    destruct (run_app isword (drop i v)
                (SPACE :: EQUALS :: SPACE :: value ++ SEMI :: r)
                (forallb_drop _ _ i Hw) eq_refl) as [-> ->].
    destruct (contains (str "spr") (drop i v)); [|reflexivity].
    now rewrite match_tail_fragment.
  - rewrite drop_app_ge by assumption.
    destruct (i - length v)%nat as [|[|[|j]]] eqn:Ej; cbn [drop app];
      try (apply match_at_not_word; reflexivity).
    destruct Hid as [Hval _].
    rewrite drop_app_le, <- app_assoc by lia. cbn [app].
    unfold match_at, match_var.
    destruct (run_app isword (drop j value) (SEMI :: r)
                (forallb_drop _ _ j Hval) eq_refl) as [-> ->].
    now destruct (contains (str "spr") (drop j value)).
Qed.

End SecondPass.

(** ** A line that is one assignment with a key *)

Section KeyLine.
Context {U : Unicode}.
Variable sprite_map : gmap text text.
Variable filename : text.

Lemma forallb_rev (f : N -> bool) (a : text) :
  forallb f a = true -> forallb f (rev a) = true.
Proof.
  rewrite !forallb_forall. intros H x Hx. apply H. now apply in_rev.
Qed.

Lemma match_at_nil var : match_at var [] = None.
Proof. now destruct var. Qed.

Lemma inactive_spaces var (a : text) :
  forallb isspace a = true -> inactive sprite_map var a.
Proof.
  intros Ha i v num rest H.
  pose proof (forallb_drop isspace a i Ha) as Hd.
  destruct (drop i a) as [|c t]; [now rewrite match_at_nil in H|].
  simpl in Hd. apply andb_true_iff in Hd as [Hc _].
  rewrite match_at_not_word in H by now apply isspace_not_isword.
  discriminate.
Qed.

(** The line an accepted substitution leaves holds no further match. *)
Lemma fragment_line_inactive var' var (v value indent eol : text) :
  var_shape var v = true -> identifier value ->
  forallb isspace indent = true -> forallb isspace eol = true ->
  inactive sprite_map var' (indent ++ fragment v value ++ eol).
Proof.
  intros Hv Hid Hi He. apply inactive_any.
  apply inactive_app.
  - intros i v' num rest Hlt H.
    pose proof (forallb_drop isspace indent i Hi) as Hd.
    destruct (drop i indent) as [|c t] eqn:E.
    + apply (f_equal length) in E. rewrite length_drop in E. simpl in E. lia.
    + simpl in Hd. apply andb_true_iff in Hd as [Hc _]. cbn [app] in H.
      rewrite match_at_not_word in H by now apply isspace_not_isword.
      discriminate.
  - apply inactive_app; [|now apply inactive_spaces].
    intros i v' num rest Hlt H.
    now rewrite (no_match_in_fragment var v value eol i Hv Hid Hlt) in H.
Qed.

(** A run of word characters between white space that has [sprite_index]
    before the white space ends with it. *)
Lemma word_run_end (indent v ws1 t ws1' : text) :
  forallb isspace indent = true -> forallb isword v = true -> v <> [] ->
  forallb isspace ws1 = true -> forallb isspace ws1' = true ->
  indent ++ v ++ ws1 = t ++ str "sprite_index" ++ ws1' ->
  endswith (str "sprite_index") v = true.
Proof.
  intros Hi Hv Hne H1 H1' E.
  apply (f_equal (@rev N)) in E. rewrite !rev_app_distr, <- !app_assoc in E.
  assert (Hs : stops isspace (rev v ++ rev indent)).
  { pose proof (forallb_rev isword v Hv) as Hr.
    destruct (rev v) as [|c r] eqn:Er.
    - apply (f_equal (@rev N)) in Er. rewrite rev_involutive in Er.
      simpl in Er. congruence.
    - simpl in Hr |- *. apply andb_true_iff in Hr as [Hc _].
      now apply isword_not_isspace. }
  apply (f_equal (drop_while isspace)) in E.
  destruct (run_app isspace (rev ws1) _ (forallb_rev _ _ H1) Hs) as [_ E1].
  assert (Hs' : stops isspace (rev (str "sprite_index") ++ rev t))
    by reflexivity.
  destruct (run_app isspace (rev ws1') _ (forallb_rev _ _ H1') Hs')
    as [_ E1'].
  rewrite E1, E1' in E.
  apply (f_equal (take_while isword)) in E.
  assert (Hw : stops isword (rev indent)).
  { pose proof (forallb_rev isspace indent Hi) as Hr.
    destruct (rev indent) as [|c r]; [exact I|].
    simpl in Hr |- *. apply andb_true_iff in Hr as [Hc _].
    now apply isspace_not_isword. }
  destruct (run_app isword (rev v) _ (forallb_rev _ _ Hv) Hw) as [E2 _].
  rewrite E2, take_while_app in E.
  change (forallb isword (rev (str "sprite_index"))) with true in E.
  cbv iota in E. unfold endswith. apply startswith_spec. eauto.
Qed.

(** When the name does not end with [sprite_index], the pass for
    [sprite_index] finds no match in the line. *)
Lemma no_sprite_index_match (v ws1 ws2 digits ws3 indent eol : text) i :
  var_shape AnySpr v = true ->
  endswith (str "sprite_index") v = false ->
  forallb isspace ws1 = true -> forallb isspace ws2 = true ->
  forallb isdigit digits = true -> digits <> [] ->
  forallb isspace ws3 = true ->
  forallb isspace indent = true -> forallb isspace eol = true ->
  match_at SpriteIndex
    (drop i (indent ++ assignment v ws1 ws2 digits ws3 ++ eol)) = None.
Proof.
  intros Hv Hend H1 H2 Hn Hne H3 Hi He.
  destruct (match_at SpriteIndex _) as [[[v' num] rest]|] eqn:Hm;
    [exfalso|reflexivity].
  apply match_at_elim in Hm
    as (ws1' & ws2' & ws3' & E & Hv' & H1' & H2' & Hn' & Hne' & H3').
  set (line := indent ++ assignment v ws1 ws2 digits ws3 ++ eol) in *.
  assert (El : line = (indent ++ v ++ ws1)
                 ++ EQUALS :: (ws2 ++ digits ++ ws3 ++ SEMI :: eol)).
  { unfold line, assignment. repeat (rewrite <- app_assoc; simpl). reflexivity. }
  assert (El' : line = (take i line ++ v' ++ ws1')
                  ++ EQUALS :: (ws2' ++ num ++ ws3' ++ SEMI :: rest)).
  { rewrite <- (take_drop i line) at 1. rewrite E.
    repeat (rewrite <- app_assoc; simpl). reflexivity. }
  rewrite El in El'.
  pose proof (var_shape_word _ _ Hv) as Hw.
  pose proof (var_shape_nonempty _ _ Hv) as Hnev.
  simpl in Hv'. apply text_eqb_spec in Hv' as ->.
  apply split_unique in El' as [Ea _].
  - apply word_run_end in Ea; congruence.
  - rewrite !not_elem_of_app. repeat split.
    + apply (class_not_elem isspace); [assumption|reflexivity].
    + apply (class_not_elem isword); [assumption|reflexivity].
    + apply (class_not_elem isspace); [assumption|reflexivity].
  - rewrite !not_elem_of_app, not_elem_of_cons. repeat split.
    + apply (class_not_elem isspace); [assumption|reflexivity].
    + apply (class_not_elem isdigit); [assumption|reflexivity].
    + apply (class_not_elem isspace); [assumption|reflexivity].
    + discriminate.
    + apply (class_not_elem isspace); [assumption|reflexivity].
Qed.

(** The loop body on a line that is one assignment whose digits are a key
    with an identifier for value: the assignment is rewritten once, by
    the pass for [sprite_index] when the name ends with it, by the pass
    for [\w*spr\w*] otherwise. *)
Lemma key_line var (v ws1 ws2 digits ws3 indent eol value : text) idx :
  var_shape var v = true ->
  forallb isspace ws1 = true -> forallb isspace ws2 = true ->
  forallb isdigit digits = true -> digits <> [] ->
  forallb isspace ws3 = true ->
  forallb isspace indent = true -> forallb isspace eol = true ->
  sprite_map !! digits = Some value -> identifier value ->
  let line := indent ++ assignment v ws1 ws2 digits ws3 ++ eol in
  let name :=
    if endswith (str "sprite_index") v then str "sprite_index" else v in
  sub_line sprite_map filename idx line
  = (indent ++ fragment v value ++ eol,
     [(message filename idx line (fragment name value),
       (line, fragment name value, idx))]).
Proof.
  intros Hv H1 H2 Hn Hne H3 Hi He Hk Hid line name.
  pose proof (fragment_line_inactive AnySpr var v value indent eol
                Hv Hid Hi He) as Hin.
  assert (Heol : forall var',
            re_sub sprite_map filename var' idx line eol = (eol, []))
    by (intros var'; apply re_sub_inactive; now apply inactive_spaces).
  unfold sub_line, SPRITE_VARS. cbn [sub_vars].
  destruct (endswith (str "sprite_index") v) eqn:Hend.
  - apply endswith_spec in Hend as [q Hq].
    assert (Hwq : forallb isword q = true).
    { pose proof (var_shape_word _ _ Hv) as Hw. rewrite Hq in Hw.
      now apply forallb_app_true in Hw as [Hw _]. }
    assert (El : line = indent
                 ++ (q ++ assignment (str "sprite_index") ws1 ws2 digits ws3
                       ++ eol)).
    { unfold line, assignment. rewrite Hq.
      now repeat (rewrite <- app_assoc; simpl). }
    assert (Ef : indent ++ fragment v value ++ eol
                 = indent ++ q ++ fragment (str "sprite_index") value ++ eol).
    { unfold fragment. rewrite Hq.
      now repeat (rewrite <- app_assoc; simpl). }
    rewrite El at 2. rewrite re_sub_skip by now apply spaces_not_word.
    rewrite (re_sub_inside_identifier sprite_map filename idx line
               q ws1 ws2 digits ws3 eol value)
      by (assumption || reflexivity).
    rewrite Heol. cbn [fst snd]. rewrite <- Ef.
    rewrite re_sub_inactive by exact Hin. reflexivity.
  - assert (Hv' : var_shape AnySpr v = true).
    { destruct var; [|exact Hv]. simpl in Hv.
      apply text_eqb_spec in Hv. subst v. discriminate. }
    rewrite (re_sub_inactive sprite_map filename SpriteIndex idx line line).
    + unfold line at 2.
      rewrite re_sub_skip by now apply spaces_not_word.
      rewrite re_sub_assignment by assumption.
      rewrite (repl_key _ _ _ _ _ _ _ _ Hk), Heol. reflexivity.
    + intros i v' num rest Hm. unfold line in Hm.
      rewrite no_sprite_index_match in Hm by assumption. discriminate.
Qed.

End KeyLine.





Section Stable.
Context {U : Unicode}.
Variable sprite_map : gmap text text.
Variable filename : text.
Hypothesis Hids : identifiers sprite_map.

(** What the pass for [\w*spr\w*] returns holds no match with a key. *)
Lemma sub_inactive idx orig_line (x : text) :
  inactive sprite_map AnySpr
    (fst (re_sub sprite_map filename AnySpr idx orig_line x)).
Proof.
  induction x as [|c x Hno IH|x v num rest Hm IH] using (re_sub_ind AnySpr).
  - intros i v num rest H. rewrite re_sub_nil in H. cbn [fst] in H.
    rewrite drop_nil in H. discriminate.
  - rewrite re_sub_nomatch by assumption. cbn [fst].
    apply (inactive_app _ _ [c]); [|assumption].
    intros [|i] v num rest Hi H; [|cbn in Hi; lia]. cbn [drop] in H.
    apply (match_at_sub sprite_map filename Hids) in H as [r H].
    cbn [app] in H. congruence.
  - rewrite (re_sub_match _ _ _ _ _ _ _ _ _ Hm). cbn [fst].
    apply match_at_elim in Hm
      as (ws1 & ws2 & ws3 & -> & Hv & H1 & H2 & Hn & Hne & H3).
    set (span := v ++ ws1 ++ EQUALS :: ws2 ++ num ++ ws3 ++ [SEMI]).
    assert (E : v ++ ws1 ++ EQUALS :: ws2 ++ num ++ ws3 ++ SEMI :: rest
                = span ++ rest)
      by (unfold span; repeat (rewrite <- app_assoc; cbn [app]); reflexivity).
    rewrite E, captured_app.
    destruct (sprite_map !! num) as [value|] eqn:Hk.
    + rewrite (repl_key _ _ _ _ _ _ _ _ Hk). cbn [fst].
      apply inactive_app; [|assumption].
      intros i v' num' rest' Hi H.
      rewrite (no_match_in_fragment AnySpr) in H; eauto. discriminate.
    + rewrite repl_no_key by assumption. cbn [fst].
      apply inactive_app; [|assumption].
      intros i v' num' rest' Hi H.
      apply (match_at_sub sprite_map filename Hids) in H as [r H].
      apply match_inside_span in H; try assumption.
      * now subst num'.
      * now apply (var_shape_word AnySpr).
Qed.

(** A line that came out of the passes goes through them unchanged. *)
Lemma sub_line_stable idx idx' (line : text) :
  sub_line sprite_map filename idx'
    (fst (sub_line sprite_map filename idx line))
  = (fst (sub_line sprite_map filename idx line), []).
Proof.
  unfold sub_line at 2 3. unfold SPRITE_VARS. cbn [sub_vars].
  destruct (re_sub sprite_map filename SpriteIndex idx line line) as [l1 e1].
  pose proof (sub_inactive idx line l1) as Hin.
  destruct (re_sub sprite_map filename AnySpr idx line l1) as [l2 e2].
  cbn [fst] in *. unfold sub_line, SPRITE_VARS. cbn [sub_vars].
  rewrite (re_sub_inactive _ _ SpriteIndex) by now apply inactive_any.
  now rewrite re_sub_inactive.
Qed.

End Stable.

(** ** Lines written and read back *)

Lemma readlines_app_LF (body s : text) :
  LF ∉ body -> readlines (body ++ LF :: s) = (body ++ [LF]) :: readlines s.
Proof.
  induction body as [|c body IH]; intros H; [reflexivity|].
  apply not_elem_of_cons in H as [Hc H]. cbn [app readlines].
  destruct (N.eqb_spec c LF); [congruence|]. now rewrite (IH H).
Qed.

Lemma readlines_body (body : text) :
  LF ∉ body -> body <> [] -> readlines body = [body].
Proof.
  induction body as [|c body IH]; intros H Hne; [congruence|].
  apply not_elem_of_cons in H as [Hc H]. cbn [readlines].
  destruct (N.eqb_spec c LF); [congruence|].
  destruct body as [|d body]; [reflexivity|].
  now rewrite (IH H).
Qed.

Lemma readlines_wf (s : text) : lines_wf (readlines s).
Proof.
  induction s as [|c s IH]; [constructor|]. cbn [readlines].
  destruct (N.eqb_spec c LF) as [->|Hc].
  - apply (wf_cons []); [set_solver|assumption].
  - inversion IH as [|body Hb Hne|body ls Hb Hls].
    + apply wf_last; [set_solver|discriminate].
    + apply wf_last; [set_solver|discriminate].
    + apply (wf_cons (c :: body)); [set_solver|assumption].
Qed.

Lemma readlines_concat (ls : list text) :
  lines_wf ls -> readlines (concat ls) = ls.
Proof.
  induction 1 as [|body Hb Hne|body ls Hb Hls IH].
  - reflexivity.
  - cbn. rewrite app_nil_r. now apply readlines_body.
  - cbn [concat]. rewrite <- app_assoc. cbn [app].
    now rewrite readlines_app_LF, IH.
Qed.

Lemma concat_readlines (s : text) : concat (readlines s) = s.
Proof.
  induction s as [|c s IH]; [reflexivity|]. cbn [readlines].
  destruct (c =? LF); [cbn; now rewrite IH|].
  destruct (readlines s) as [|l ls]; cbn in *; now rewrite <- IH.
Qed.

Lemma universal_newlines_id (s : text) : CR ∉ s -> universal_newlines s = s.
Proof.
  induction s as [|c s IH]; intros H; [reflexivity|].
  apply not_elem_of_cons in H as [Hc H]. cbn [universal_newlines].
  destruct (N.eqb_spec c CR); [congruence|]. now rewrite (IH H).
Qed.

Lemma universal_newlines_no_CR (s : text) : CR ∉ universal_newlines s.
Proof.
  induction s as [s IH] using (induction_ltof1 _ (@length N)).
  unfold ltof in IH. destruct s as [|c s]; [set_solver|].
  cbn [universal_newlines]. destruct (N.eqb_spec c CR) as [->|Hc].
  - apply not_elem_of_cons. split; [discriminate|].
    destruct s as [|d s]; [set_solver|].
    destruct (d =? LF); apply IH; cbn; lia.
  - apply not_elem_of_cons. split; [congruence|]. apply IH. cbn. lia.
Qed.

Lemma not_elem_of_concat x (ls : list text) :
  x ∉ concat ls <-> Forall (fun l => x ∉ l) ls.
Proof.
  induction ls as [|l ls IH]; cbn [concat].
  - split; [constructor|set_solver].
  - rewrite not_elem_of_app, Forall_cons, IH. tauto.
Qed.

Section LineShape.
Context {U : Unicode}.
Variable sprite_map : gmap text text.
Variable filename : text.
Hypothesis Hids : identifiers sprite_map.

(** A character after the end of the text takes part in no match. *)
Lemma match_at_snoc var (t : text) x (v num rest : text) :
  x <> SEMI ->
  match_at var (t ++ [x]) = Some (v, num, rest) ->
  exists rest0, match_at var t = Some (v, num, rest0) /\ rest = rest0 ++ [x].
Proof.
  intros Hx H.
  apply match_at_elim in H
    as (ws1 & ws2 & ws3 & E & Hv & H1 & H2 & Hn & Hne & H3).
  destruct (decide (rest = [])) as [->|Hr];
    [|destruct (exists_last Hr) as (rest0 & y & ->)].
  - exfalso.
    replace (v ++ ws1 ++ EQUALS :: ws2 ++ num ++ ws3 ++ [SEMI])
      with ((v ++ ws1 ++ EQUALS :: ws2 ++ num ++ ws3) ++ [SEMI]) in E
      by (repeat (rewrite <- app_assoc; cbn [app]); reflexivity).
    apply app_inj_tail in E as [_ E]. congruence.
  - replace (v ++ ws1 ++ EQUALS :: ws2 ++ num ++ ws3 ++ SEMI :: rest0 ++ [y])
      with ((v ++ ws1 ++ EQUALS :: ws2 ++ num ++ ws3 ++ SEMI :: rest0) ++ [y])
      in E by (repeat (rewrite <- app_assoc; cbn [app]); reflexivity).
    apply app_inj_tail in E as [-> ->].
    exists rest0. split; [|reflexivity]. now apply match_at_intro.
Qed.

Lemma re_sub_snoc var idx orig_line (t : text) x :
  isword x = false -> x <> SEMI ->
  re_sub sprite_map filename var idx orig_line (t ++ [x])
  = (fst (re_sub sprite_map filename var idx orig_line t) ++ [x],
     snd (re_sub sprite_map filename var idx orig_line t)).
Proof.
  intros Hw Hx.
  induction t as [|c t Hno IH|t v num rest Hm IH] using (re_sub_ind var).
  - cbn [app]. rewrite re_sub_nomatch by now apply match_at_not_word.
    reflexivity.
  - cbn [app]. rewrite !re_sub_nomatch, IH; try assumption; [reflexivity|].
    destruct (match_at var (c :: t ++ [x])) as [[[v num] rest]|] eqn:E;
      [|reflexivity].
    apply (match_at_snoc var (c :: t)) in E as (r0 & E & _); congruence.
  - rewrite (re_sub_match _ _ _ _ _ _ _ _ _ (match_at_app _ _ _ _ _ [x] Hm)).
    rewrite (re_sub_match _ _ _ _ _ _ _ _ _ Hm), IH. cbn [fst snd].
    destruct (match_at_length _ _ _ _ _ Hm) as (m & -> & _).
    rewrite <- app_assoc, !captured_app. now rewrite app_assoc.
Qed.

(** A character that is in no word and is none of the characters of a
    replacement does not come into the text. *)
Lemma re_sub_avoid var idx orig_line (s : text) x :
  isword x = false -> x <> SPACE -> x <> EQUALS -> x <> SEMI ->
  x ∉ s -> x ∉ fst (re_sub sprite_map filename var idx orig_line s).
Proof.
  intros Hw H1 H2 H3.
  induction s as [|c s Hno IH|s v num rest Hm IH] using (re_sub_ind var);
    intros Hs.
  - rewrite re_sub_nil. set_solver.
  - rewrite re_sub_nomatch by assumption. cbn [fst]. set_solver.
  - rewrite (re_sub_match _ _ _ _ _ _ _ _ _ Hm). cbn [fst].
    destruct (match_at_length _ _ _ _ _ Hm) as (m & -> & _).
    apply not_elem_of_app in Hs as [Hm' Hr]. rewrite captured_app.
    apply not_elem_of_app. split; [|auto].
    destruct (sprite_map !! num) as [value|] eqn:Hk.
    + rewrite (repl_key _ _ _ _ _ _ _ _ Hk). cbn [fst].
      apply match_at_elim in Hm as (_ & _ & _ & _ & Hv & _).
      apply var_shape_word in Hv. destruct (Hids _ _ Hk) as [Hval _].
      unfold fragment. rewrite !not_elem_of_app. repeat split.
      * now apply (class_not_elem isword).
      * cbn. set_solver.
      * now apply (class_not_elem isword).
      * cbn. set_solver.
    + now rewrite repl_no_key.
Qed.

Lemma re_sub_nonempty var idx orig_line (s : text) :
  s <> [] -> fst (re_sub sprite_map filename var idx orig_line s) <> [].
Proof.
  destruct (match_at var s) as [[[v num] rest]|] eqn:E.
  - intros _. rewrite (re_sub_match _ _ _ _ _ _ _ _ _ E). cbn [fst].
    destruct (match_at_length _ _ _ _ _ E) as (m & -> & Hm).
    rewrite captured_app.
    destruct (sprite_map !! num) as [value|] eqn:Hk.
    + rewrite (repl_key _ _ _ _ _ _ _ _ Hk). cbn [fst]. unfold fragment.
      intros H. apply app_eq_nil in H as [H _].
      apply app_eq_nil in H as [_ H]. apply app_eq_nil in H as [H _].
      discriminate.
    + rewrite repl_no_key by assumption. cbn [fst]. intros H.
      apply app_eq_nil in H as [H _]. contradiction.
  - destruct s as [|c s]; [congruence|]. intros _.
    now rewrite re_sub_nomatch.
Qed.

(** The passes over a line keep its shape. *)
Lemma sub_vars_shape vars idx orig_line (body : text) :
  LF ∉ body ->
  (LF ∉ fst (sub_vars sprite_map filename vars idx orig_line body))
  /\ (body <> [] ->
      fst (sub_vars sprite_map filename vars idx orig_line body) <> [])
  /\ fst (sub_vars sprite_map filename vars idx orig_line (body ++ [LF]))
     = fst (sub_vars sprite_map filename vars idx orig_line body) ++ [LF].
Proof.
  revert body. induction vars as [|var vars IH]; intros body Hb;
    cbn [sub_vars]; [auto|].
  pose proof (re_sub_avoid var idx orig_line body LF eq_refl) as Ha.
  pose proof (re_sub_nonempty var idx orig_line body) as Hn.
  rewrite re_sub_snoc by (reflexivity || discriminate).
  destruct (re_sub sprite_map filename var idx orig_line body) as [l1 e1].
  cbn [fst snd] in *.
  specialize (IH l1 ltac:(apply Ha; (discriminate || assumption))).
  destruct IH as (I1 & I2 & I3).
  destruct (sub_vars sprite_map filename vars idx orig_line l1) as [l2 e2].
  destruct (sub_vars sprite_map filename vars idx orig_line (l1 ++ [LF]))
    as [l3 e3].
  cbn [fst] in *. auto.
Qed.

Lemma sub_vars_avoid vars idx orig_line (s : text) x :
  isword x = false -> x <> SPACE -> x <> EQUALS -> x <> SEMI ->
  x ∉ s -> x ∉ fst (sub_vars sprite_map filename vars idx orig_line s).
Proof.
  intros Hw H1 H2 H3. revert s.
  induction vars as [|var vars IH]; intros s Hs; cbn [sub_vars]; [assumption|].
  pose proof (re_sub_avoid var idx orig_line s x Hw H1 H2 H3 Hs) as Ha.
  destruct (re_sub sprite_map filename var idx orig_line s) as [l1 e1].
  specialize (IH l1 Ha).
  now destruct (sub_vars sprite_map filename vars idx orig_line l1).
Qed.

Lemma new_lines_wf idx (ls : list text) :
  lines_wf ls -> lines_wf (new_lines_of sprite_map filename idx ls).
Proof.
  intros H. revert idx.
  induction H as [|body Hb Hne|body ls Hb Hls IH]; intros idx;
    cbn [new_lines_of].
  - constructor.
  - destruct (sub_vars_shape SPRITE_VARS idx body body Hb) as (H1 & H2 & _).
    apply wf_last; [exact H1|exact (H2 Hne)].
  - destruct (sub_vars_shape SPRITE_VARS idx (body ++ [LF]) body Hb)
      as (H1 & _ & H3).
    unfold sub_line. rewrite H3. apply wf_cons; [assumption|apply IH].
Qed.

Lemma new_lines_no_CR idx (ls : list text) :
  Forall (fun l => CR ∉ l) ls ->
  Forall (fun l => CR ∉ l) (new_lines_of sprite_map filename idx ls).
Proof.
  intros H. revert idx. induction H as [|l ls Hl Hls IH]; intros idx;
    cbn [new_lines_of]; constructor; [|apply IH].
  apply sub_vars_avoid; (reflexivity || discriminate || assumption).
Qed.

Lemma new_lines_stable idx idx' (ls : list text) :
  lines_changed sprite_map filename idx'
    (new_lines_of sprite_map filename idx ls) = false.
Proof.
  revert idx idx'. induction ls as [|l ls IH]; intros idx idx';
    [reflexivity|].
  cbn [new_lines_of lines_changed].
  now rewrite sub_line_stable, IH, text_eqb_refl.
Qed.

(** The file [replace_in_file] writes is one the pass leaves as it is. *)
Lemma rewritten_stable (f : file) r w :
  file_changed sprite_map filename
    (File (rewritten sprite_map filename f) r w) = false.
Proof.
  unfold file_changed, file_lines, rewritten. cbn [content].
  assert (Hcr : Forall (fun l => CR ∉ l) (file_lines f)).
  { apply not_elem_of_concat. unfold file_lines. rewrite concat_readlines.
    apply universal_newlines_no_CR. }
  rewrite universal_newlines_id
    by (apply not_elem_of_concat, new_lines_no_CR; assumption).
  rewrite readlines_concat by (apply new_lines_wf, readlines_wf).
  apply new_lines_stable.
Qed.

End LineShape.

(** ** A second run *)

Section SecondRun.
Context {U : Unicode}.
Variable sprite_map : gmap text text.
Hypothesis Hids : identifiers sprite_map.

Lemma stable_step (m : gmap text file) (p q : text) :
  eligible p = true -> stable sprite_map m p ->
  stable sprite_map (fs_step sprite_map q m) p.
Proof.
  intros Hp (f & Hf & Hr & Hc). destruct (decide (q = p)) as [->|Hne].
  - unfold fs_step. rewrite Hf, Hc, andb_false_r. exists f. auto.
  - exists f. rewrite fs_step_eligible_other by auto. auto.
Qed.

Lemma stable_ext (m m' : gmap text file) (p : text) :
  m' !! p = m !! p -> stable sprite_map m p -> stable sprite_map m' p.
Proof. unfold stable. now intros ->. Qed.

(** After its step a file is stable. *)
Lemma scan_path_stable g s acc (p : text) (st st' : state) acc' :
  scan_path sprite_map g s acc p st = (st', Ok acc') ->
  stable sprite_map (fs st') p.
Proof.
  rewrite scan_path_spec. cbv zeta.
  destruct (fs st !! p) as [f|] eqn:Hf; [|discriminate].
  destruct (readable f) eqn:Hr; [|discriminate].
  destruct (file_changed sprite_map p f) eqn:Hc.
  - destruct (writable f); [|discriminate]. intros H. injection H as <- _.
    eexists. cbn [fs with_fs]. rewrite lookup_insert_eq.
    split; [reflexivity|]. split; [reflexivity|].
    now apply rewritten_stable.
  - intros H. injection H as <- _. exists f. auto.
Qed.

Lemma fold_stable g s (paths : list text) acc (st st' : state) acc' :
  (forall p, p ∈ paths -> eligible p = true) ->
  foldM (scan_path sprite_map g s) acc paths st = (st', Ok acc') ->
  forall p, p ∈ paths -> stable sprite_map (fs st') p.
Proof.
  revert acc st. induction paths as [|q paths IH]; intros acc st Hel H p Hp.
  - inversion Hp.
  - cbn [foldM] in H. unfold bind in H.
    destruct (scan_path sprite_map g s acc q st) as [st1 [acc1|e]] eqn:E;
      [|discriminate].
    assert (Hq : stable sprite_map (fs st') q).
    { pose proof (foldM_state_inv (scan_path sprite_map g s)
                    (fun x => stable sprite_map (fs x) q) paths) as Hinv.
      specialize (Hinv ltac:(intros a x y Hx Hy; cbv beta in *;
                             rewrite scan_path_fs; apply stable_step;
                             [apply Hel; set_solver|assumption])
                    acc1 st1 ltac:(eapply scan_path_stable; eauto)).
      cbv beta in Hinv. now rewrite H in Hinv. }
    apply elem_of_cons in Hp as [->|Hp]; [assumption|].
    eapply IH; eauto. intros. apply Hel. set_solver.
Qed.

(** A walk over stable files returns what it was given and writes to no
    file. *)
Lemma fold_second g s (paths : list text) acc (st : state) :
  (forall p, p ∈ paths -> stable sprite_map (fs st) p) ->
  exists st',
    foldM (scan_path sprite_map g s) acc paths st = (st', Ok acc)
    /\ fs st' = fs st.
Proof.
  revert st. induction paths as [|q paths IH]; intros st Hst.
  - exists st. auto.
  - cbn [foldM]. unfold bind. rewrite scan_path_spec. cbv zeta.
    destruct (Hst q ltac:(set_solver)) as (f & Hf & Hr & Hc).
    rewrite Hf, Hr, Hc.
    destruct (IH (emit g true (file_events sprite_map q f) (announce g s q st)))
      as (st' & -> & Hfs).
    + intros p Hp. apply Hst. set_solver.
    + exists st'. auto.
Qed.

End SecondRun.

(** C2, as the code has it: when every value of the mapping is an
    identifier (word characters, the first no digit), a second run after a
    successful first one, with the same mapping over the same tree,
    reports no file as changed, returns no replacement and leaves every
    file but the session log as the first run left it. *)
Theorem C2_second_run_changes_nothing {U : Unicode}
    (sprite_map : gmap text text) (argv0 : text)
    (tree tree' : dir) (project_dir project_dir' : text)
    (mapping_file mapping_file' : text)
    (gui_log_callback status_callback gui_log_callback' status_callback' : bool)
    (st st1 : state) (replaced_files : list text)
    (all_replacements : list file_replacement) (log_path : text) :
  identifiers sprite_map ->
  load_sprite_map mapping_file st = (st, Ok sprite_map) ->
  scan_and_replace argv0 tree project_dir mapping_file
    gui_log_callback status_callback st
  = (st1, Ok (replaced_files, all_replacements, log_path)) ->
  load_sprite_map mapping_file' st1 = (st1, Ok sprite_map) ->
  (forall p, p ∈ walk_paths (os_walk project_dir' tree') ->
             p ∈ walk_paths (os_walk project_dir tree)) ->
  exists st2,
    scan_and_replace argv0 tree' project_dir' mapping_file'
      gui_log_callback' status_callback' st1
    = (st2, Ok ([], [], log_path))
    /\ forall p, p <> log_path -> fs st2 !! p = fs st1 !! p.
Proof.
  intros Hids Hload Hrun Hload' Hsub.
  rewrite (scan_and_replace_with_loaded sprite_map) in Hrun by assumption.
  rewrite (scan_and_replace_with_loaded sprite_map) by assumption.
  clear Hload Hload'.
  rewrite scan_and_replace_with_spec in Hrun.
  cbv zeta in Hrun.
  destruct (log_openable (log_path_of argv0) (fs st)); [|discriminate].
  pose proof (foldM_state_inv
                (scan_path sprite_map gui_log_callback status_callback)
                (fun x => exists lf, fs x !! log_path_of argv0 = Some lf
                                     /\ writable lf = true)
                (walk_paths (os_walk project_dir tree))) as Hlog.
  specialize (Hlog ltac:(intros a x y Hx Hy; cbv beta in *;
                         rewrite scan_path_fs, fs_step_other;
                         [assumption
                         |symmetry; apply eligible_not_log;
                          eapply walk_paths_eligible; eauto
                         |apply log_path_not_bak])
                ([], []) (open_log (log_path_of argv0) st)).
  cbv beta in Hlog.
  destruct (foldM _ _ _ (open_log (log_path_of argv0) st))
    as [st' [acc|e]] eqn:E; [|discriminate].
  cbn [fst] in Hlog. destruct Hlog as (lf & Hlf & Hw).
  { cbn. rewrite lookup_insert_eq. destruct (fs st !! log_path_of argv0);
      eexists; split; reflexivity. }
  injection Hrun as <- _ _ <-.
  pose proof (fold_stable sprite_map Hids _ _ _ _ _ _ _
                (walk_paths_eligible _) E) as Hst.
  rewrite scan_and_replace_with_spec. cbv zeta.
  set (lp := log_path_of argv0) in *.
  set (st1 := close_log lp (finish gui_log_callback status_callback
                              (fst acc) lp st')).
  assert (Hlp : log_openable lp (fs st1) = true).
  { unfold log_openable, st1. cbn. now rewrite lookup_alter_eq, Hlf. }
  rewrite Hlp.
  destruct (fold_second sprite_map Hids gui_log_callback' status_callback'
              (walk_paths (os_walk project_dir' tree')) ([], [])
              (open_log lp st1)) as (st2 & -> & Hfs).
  - intros p Hp. pose proof (walk_paths_eligible _ _ Hp) as Hel.
    apply (stable_ext _ (fs st')); [|now apply Hst, Hsub].
    cbn. rewrite lookup_insert_ne
      by (intros Eq; symmetry in Eq; now apply eligible_not_log in Eq).
    apply lookup_alter_ne. intros Eq. symmetry in Eq.
    now apply eligible_not_log in Eq.
  - eexists. split; [reflexivity|]. intros p Hp. cbn [fs close_log finish].
    rewrite lookup_alter_ne by congruence. rewrite Hfs. cbn.
    now rewrite lookup_insert_ne by congruence.
Qed.

Lemma C2_witness :
  exists st2,
    scan_and_replace (U := ascii_only) (str "/tool/gui.py")
      (Dir [str "a.gml"; str "a.gml.bak"] []) (str "/p") (str "/m/map.txt")
      false false
      (fst (scan_and_replace (U := ascii_only) (str "/tool/gui.py")
              (Dir [str "a.gml"] []) (str "/p") (str "/m/map.txt") true true
              (ex_project [(str "/p/a.gml", str "sprite_index = 12;")])))
    = (st2, Ok ([], [], str "/tool/spritereplacement_log.txt"))
    /\ forall p, p <> str "/tool/spritereplacement_log.txt" ->
         fs st2 !! p
         = fs (fst (scan_and_replace (U := ascii_only) (str "/tool/gui.py")
                      (Dir [str "a.gml"] []) (str "/p") (str "/m/map.txt")
                      true true
                      (ex_project [(str "/p/a.gml", str "sprite_index = 12;")])))
             !! p.
Proof.
  apply (C2_second_run_changes_nothing (U := ascii_only) ex_map
           (str "/tool/gui.py") (Dir [str "a.gml"] [])
           (Dir [str "a.gml"; str "a.gml.bak"] []) (str "/p") (str "/p")
           (str "/m/map.txt") (str "/m/map.txt")
           true true false false
           (ex_project [(str "/p/a.gml", str "sprite_index = 12;")]) _
           [str "/p/a.gml"]
           [(str "/p/a.gml", str "sprite_index = 12;",
             str "sprite_index = spr_player_idle;", 1%nat)]).
  - intros key value H. unfold ex_map in H.
    apply lookup_singleton_Some in H as [_ <-]. split; reflexivity.
  - now vm_compute.
  - now vm_compute.
  - now vm_compute.
  - intros p Hp. exact Hp.
Defined.

(** Against C2 as stated: with the mapping [1] to [2] and [2] to [1], the
    first run turns the line [x_spr = 1;] into [x_spr = 2;], and a second
    run over the same tree turns it back and reports the file as changed
    again. *)
Lemma C2_counterexample :
  (exists recs,
     snd (scan_and_replace (U := ascii_only) (str "/tool/gui.py")
            (Dir [str "a.gml"] []) (str "/p") (str "/m/map.txt") true true
            (ex_swapped [(str "/p/a.gml", str "x_spr = 1;")]))
     = Ok ([str "/p/a.gml"], recs, str "/tool/spritereplacement_log.txt"))
  /\ (exists recs,
        snd (scan_and_replace (U := ascii_only) (str "/tool/gui.py")
               (Dir [str "a.gml"; str "a.gml.bak"] []) (str "/p")
               (str "/m/map.txt") true true
               (fst (scan_and_replace (U := ascii_only) (str "/tool/gui.py")
                       (Dir [str "a.gml"] []) (str "/p") (str "/m/map.txt")
                       true true
                       (ex_swapped [(str "/p/a.gml", str "x_spr = 1;")]))))
        = Ok ([str "/p/a.gml"], recs, str "/tool/spritereplacement_log.txt")).
Proof. vm_compute. split; eexists; reflexivity. Qed.

(** ** The mapping loader in the words of the specification *)

Section Trimming.
Context {U : Unicode}.

Lemma elem_of_rev x (s : text) : x ∈ rev s -> x ∈ s.
Proof. rewrite !list_elem_of_In. apply in_rev. Qed.

Lemma drop_while_elem f x (s : text) : x ∈ drop_while f s -> x ∈ s.
Proof.
  induction s as [|c s IH]; [auto|]. cbn [drop_while].
  destruct (f c); set_solver.
Qed.

Lemma drop_while_stopped f (s : text) : stops f (drop_while f s).
Proof.
  destruct (drop_while f s) as [|c t] eqn:E; [exact I|].
  cbn. eapply drop_while_head; eauto.
Qed.

Lemma drop_while_stops f (s : text) : stops f s -> drop_while f s = s.
Proof. destruct s as [|c s]; [auto|]. cbn. now intros ->. Qed.

Lemma strip_elem x (s : text) : x ∈ strip s -> x ∈ s.
Proof.
  unfold strip, rstrip, lstrip. intros H.
  apply elem_of_rev, drop_while_elem, elem_of_rev, drop_while_elem in H.
  exact H.
Qed.

Lemma rstrip_stops (t : text) : stops isspace t -> stops isspace (rstrip t).
Proof.
  intros H. unfold rstrip.
  pose proof (take_drop_while isspace (rev t)) as E.
  apply (f_equal (@rev N)) in E.
  rewrite rev_app_distr, rev_involutive in E.
  destruct (rev (drop_while isspace (rev t))) as [|c u]; [exact I|].
  rewrite <- E in H. exact H.
Qed.

Lemma strip_strip (s : text) : strip (strip s) = strip s.
Proof.
  unfold strip at 1.
  assert (H1 : stops isspace (strip s))
    by apply rstrip_stops, drop_while_stopped.
  assert (H2 : stops isspace (rev (strip s))).
  { unfold strip, rstrip. rewrite rev_involutive. apply drop_while_stopped. }
  unfold lstrip. rewrite (drop_while_stops _ _ H1).
  unfold rstrip. rewrite (drop_while_stops _ _ H2). apply rev_involutive.
Qed.

Lemma isspace_DASH : isspace DASH = false.
Proof. reflexivity. Qed.

Lemma isspace_HASH : isspace HASH = false.
Proof. reflexivity. Qed.

Lemma drop_while_all f (ws s : text) :
  forallb f ws = true -> drop_while f (ws ++ s) = drop_while f s.
Proof. intros H. now rewrite drop_while_app, H. Qed.

Lemma trimmed_strip (s t : text) : trimmed s t -> strip s = t.
Proof.
  intros (ws1 & ws2 & -> & H1 & H2 & Ht & Hr).
  unfold strip, lstrip, rstrip. rewrite (drop_while_all _ _ _ H1).
  destruct t as [|c t'] eqn:Et.
  - cbn [app]. rewrite <- (app_nil_r ws2), (drop_while_all _ _ _ H2).
    reflexivity.
  - rewrite <- Et in *. 
    assert (E : drop_while isspace (t ++ ws2) = t ++ ws2).
    { apply drop_while_stops. subst t. exact Ht. }
    rewrite E, rev_app_distr, (drop_while_all _ _ _ (forallb_rev _ _ H2)).
    rewrite (drop_while_stops _ _ Hr). apply rev_involutive.
Qed.

Lemma strip_trimmed (s : text) : trimmed s (strip s).
Proof.
  exists (take_while isspace s),
         (rev (take_while isspace (rev (lstrip s)))).
  repeat apply conj.
  - pose proof (take_drop_while isspace (rev (lstrip s))) as E.
    apply (f_equal (@rev N)) in E.
    rewrite rev_app_distr, rev_involutive in E.
    unfold strip, rstrip. rewrite E. symmetry. apply take_drop_while.
  - apply take_while_all.
  - apply forallb_rev, take_while_all.
  - apply rstrip_stops, drop_while_stopped.
  - unfold strip, rstrip. rewrite rev_involutive. apply drop_while_stopped.
Qed.

Lemma trimmed_pad (s t ws1 ws2 : text) :
  trimmed s t -> forallb isspace ws1 = true -> forallb isspace ws2 = true ->
  trimmed (ws1 ++ s ++ ws2) t.
Proof.
  intros (w1 & w2 & -> & H1 & H2 & Ht & Hr) Hw1 Hw2.
  exists (ws1 ++ w1), (w2 ++ ws2). repeat apply conj; try assumption.
  - now rewrite <- !app_assoc.
  - rewrite forallb_app, Hw1, H1. reflexivity.
  - rewrite forallb_app, Hw2, H2. reflexivity.
Qed.

Lemma strip_nil_iff (s : text) : strip s = [] <-> forallb isspace s = true.
Proof.
  split.
  - intros E. destruct (strip_trimmed s) as (w1 & w2 & Hs & H1 & H2 & _).
    rewrite E in Hs. rewrite Hs. cbn [app]. rewrite forallb_app, H1, H2.
    reflexivity.
  - intros H. apply trimmed_strip. exists s, []. cbn [app rev stops].
    rewrite app_nil_r. auto.
Qed.

Lemma strip_comment_iff (s : text) :
  (exists t, strip s = HASH :: t) <-> comment_line s.
Proof.
  split.
  - intros [t E]. destruct (strip_trimmed s) as (w1 & w2 & Hs & H1 & _).
    rewrite E in Hs. exists w1, (t ++ w2). split; [assumption|].
    rewrite Hs. reflexivity.
  - intros (ws & t & Hws & ->).
    destruct (strip_trimmed (HASH :: t)) as (w1 & w2 & Hs & H1 & H2 & Ht & Hr).
    destruct w1 as [|c w1].
    2:{ injection Hs as <- _. cbn [forallb] in H1.
        rewrite isspace_HASH in H1. discriminate. }
    cbn [app] in Hs.
    destruct (strip (HASH :: t)) as [|c r] eqn:E.
    { cbn [app] in Hs. rewrite <- Hs in H2. cbn [forallb] in H2.
      rewrite isspace_HASH in H2. discriminate. }
    injection Hs as <- Hs. exists r. apply trimmed_strip.
    rewrite <- E.
    replace (ws ++ HASH :: t) with (ws ++ (HASH :: t) ++ [])
      by now rewrite app_nil_r.
    apply trimmed_pad; [apply strip_trimmed|assumption|reflexivity].
Qed.

Lemma strip_dash_iff (s : text) : DASH ∈ strip s <-> DASH ∈ s.
Proof.
  split; [apply strip_elem|]. intros H.
  destruct (strip_trimmed s) as (w1 & w2 & Hs & H1 & H2 & _).
  rewrite Hs in H. apply elem_of_app in H as [H|H].
  - now apply (class_not_elem _ _ _ H1 isspace_DASH) in H.
  - apply elem_of_app in H as [H|H]; [assumption|].
    now apply (class_not_elem _ _ _ H2 isspace_DASH) in H.
Qed.

Lemma skipped_line_iff (line : text) : skipped_line line <-> is_skipped line.
Proof.
  unfold skipped_line, is_skipped.
  rewrite strip_nil_iff, strip_comment_iff, strip_dash_iff. reflexivity.
Qed.

Lemma strip_lstrip (s : text) : strip (lstrip s) = strip s.
Proof.
  symmetry. apply trimmed_strip.
  rewrite <- (take_drop_while isspace s) at 1.
  rewrite <- (app_nil_r (drop_while isspace s)).
  apply trimmed_pad; [apply strip_trimmed|apply take_while_all|reflexivity].
Qed.

Lemma rstrip_split (s : text) :
  s = rstrip s ++ rev (take_while isspace (rev s)).
Proof.
  pose proof (take_drop_while isspace (rev s)) as E.
  apply (f_equal (@rev N)) in E.
  now rewrite rev_app_distr, rev_involutive in E.
Qed.

Lemma strip_rstrip (s : text) : strip (rstrip s) = strip s.
Proof.
  symmetry. apply trimmed_strip.
  rewrite (rstrip_split s) at 1.
  apply (trimmed_pad _ _ []);
    [apply strip_trimmed|reflexivity|apply forallb_rev, take_while_all].
Qed.

(** Trimming a line with a dash leaves the dash and what is between the
    first character and the last one that are no white space. *)
Lemma strip_around_dash (a b : text) :
  strip (a ++ DASH :: b) = lstrip a ++ DASH :: rstrip b.
Proof.
  apply trimmed_strip.
  exists (take_while isspace a), (rev (take_while isspace (rev b))).
  repeat apply conj.
  - rewrite <- (take_drop_while isspace a) at 1.
    rewrite (rstrip_split b) at 1. unfold lstrip.
    rewrite <- !app_assoc. reflexivity.
  - apply take_while_all.
  - apply forallb_rev, take_while_all.
  - pose proof (drop_while_stopped isspace a) as H. unfold lstrip.
    destruct (drop_while isspace a); [apply isspace_DASH|exact H].
  - rewrite rev_app_distr. cbn [rev]. unfold rstrip.
    rewrite rev_involutive, <- !app_assoc.
    pose proof (drop_while_stopped isspace (rev b)) as H.
    destruct (drop_while isspace (rev b)); [apply isspace_DASH|exact H].
Qed.

Lemma entry_line_iff (line key value : text) :
  entry_line line key value <-> is_entry line key value.
Proof.
  split.
  - intros (a & b & -> & Ha & Hc & Hk & Hv).
    exists (lstrip a), (rstrip b). repeat apply conj.
    + apply strip_around_dash.
    + intros H. apply Ha. eapply drop_while_elem, H.
    + intros t E. apply Hc, strip_comment_iff. eauto.
    + rewrite strip_lstrip. symmetry. now apply trimmed_strip.
    + rewrite strip_rstrip. symmetry. now apply trimmed_strip.
  - intros (k & v & Hs & Hk & Hh & -> & ->).
    destruct (strip_trimmed line) as (w1 & w2 & Hl & H1 & H2 & _).
    rewrite Hs in Hl. exists (w1 ++ k), (v ++ w2). repeat apply conj.
    + rewrite Hl, <- !app_assoc. reflexivity.
    + intros H. apply elem_of_app in H as [H|H]; [|contradiction].
      now apply (class_not_elem _ _ _ H1 isspace_DASH) in H.
    + intros H. apply strip_comment_iff in H as [t E]. now apply (Hh t).
    + rewrite <- (app_nil_r k) at 1.
      apply trimmed_pad; [apply strip_trimmed|assumption|reflexivity].
    + apply (trimmed_pad _ _ []);
        [apply strip_trimmed|reflexivity|assumption].
Qed.

End Trimming.

(** C7: the loader passes over a line that is all white space (empty once
    trimmed), a line whose first character that is no white space is [#],
    and a line without [-]; any other line [a-b], where [a] has no [-], gives
    the key that is [a] without the white space at its ends the value that
    is [b] without the white space at its ends; a text has exactly one such
    trimmed form; every line is of one of the two kinds; of the lines that
    give a key a value the last one decides, the map has no other keys, and
    no key or value in it starts or ends with white space.  A file with
    [# comment], an empty line and [7-spr_x] loads to the map with the one
    entry ["7"] to ["spr_x"], and so does the one line [  7 -  spr_x ]
    with its line feed. *)
Theorem C7_mapping_loader {U : Unicode} :
  (forall mapping line, skipped_line line -> load_line mapping line = mapping)
  /\ (forall mapping a b key value,
        DASH ∉ a -> ~ comment_line (a ++ DASH :: b) ->
        trimmed a key -> trimmed b value ->
        load_line mapping (a ++ DASH :: b) = <[key := value]> mapping)
  /\ (forall s, exists t, trimmed s t /\ forall t', trimmed s t' -> t' = t)
  /\ (forall line,
        skipped_line line \/ exists key value, entry_line line key value)
  /\ (forall lines line lines' key value,
        entry_line line key value ->
        (forall l key' value',
           l ∈ lines' -> entry_line l key' value' -> key' <> key) ->
        load_lines (lines ++ line :: lines') !! key = Some value)
  /\ (forall lines key value,
        load_lines lines !! key = Some value ->
        (exists line, line ∈ lines /\ entry_line line key value)
        /\ stops isspace key /\ stops isspace (rev key)
        /\ stops isspace value /\ stops isspace (rev value))
  /\ (forall st mapping_file f,
        fs st !! mapping_file = Some f -> readable f = true ->
        load_sprite_map mapping_file st = (st, Ok (load_lines (file_lines f))))
  /\ load_lines (readlines (str "# comment" ++ [LF; LF] ++ str "7-spr_x" ++ [LF]))
     = {[ str "7" := str "spr_x" ]}
  /\ load_lines (readlines (str "  7 -  spr_x " ++ [LF]))
     = {[ str "7" := str "spr_x" ]}.
Proof.
  repeat apply conj.
  - intros mapping line H. now apply load_line_skipped, skipped_line_iff.
  - intros mapping a b key value Ha Hc Hk Hv.
    apply load_line_entry, entry_line_iff. exists a, b. auto.
  - intros s. exists (strip s). split; [apply strip_trimmed|].
    intros t' H. symmetry. now apply trimmed_strip.
  - intros line. destruct (line_cases line) as [H|(key & value & H)].
    + left. now apply skipped_line_iff.
    + right. exists key, value. now apply entry_line_iff.
  - intros lines line lines' key value He Hl.
    apply entry_line_iff in He.
    rewrite load_lines_app. cbn [fold_left].
    rewrite fold_load_line_keep
      by (intros l k' v' Hin H'; eapply Hl; [|apply entry_line_iff]; eauto).
    rewrite (load_line_entry _ _ _ _ He). apply lookup_insert_eq.
  - intros lines key value H. unfold load_lines in H.
    apply fold_load_line_from in H as [H|(line & Hin & He)];
      [now rewrite lookup_empty in H|].
    apply entry_line_iff in He. split; [eauto|].
    destruct He as (a & b & _ & _ & _ & Hk & Hv).
    destruct Hk as (? & ? & _ & _ & _ & ? & ?).
    destruct Hv as (? & ? & _ & _ & _ & ? & ?). auto.
  - intros st mapping_file f Hf Hr.
    unfold load_sprite_map, bind, read_text. now rewrite Hf, Hr.
  - now vm_compute.
  - now vm_compute.
Qed.

Lemma C7_witness :
  load_lines (U := ascii_only)
    ([str " 7 - old"; str "nodash"]
       ++ (str "  7 -  spr - x " ++ [LF]) :: [str "# 7-c"; str "8-y"])
    !! str "7"
  = Some (str "spr - x").
Proof.
  apply (proj1 (proj2 (proj2 (proj2 (proj2
           (C7_mapping_loader (U := ascii_only))))))).
  - exists (str "  7 "), (str "  spr - x " ++ [LF]). repeat apply conj.
    + reflexivity.
    + intros H. apply contains1_spec in H. discriminate.
    + intros H. apply strip_comment_iff in H as [t H]. discriminate.
    + exists (str "  "), (str " "). now vm_compute.
    + exists (str "  "), (str " " ++ [LF]). now vm_compute.
  - intros l key' value' Hl He E. apply entry_line_iff in He.
    destruct He as (k & v & Hs & Hk & Hh & -> & ->).
    apply elem_of_cons in Hl as [->|Hl].
    + apply (Hh (str " 7-c")). reflexivity.
    + apply list_elem_of_singleton in Hl as ->.
      assert (Hkv : split_dash (strip (str "8-y")) = (k, v))
        by (rewrite Hs; now apply split_dash_spec).
      injection Hkv as <- <-. discriminate.
Defined.

(** * Further properties of the code *)

(** ** Failures before the walk *)

Section BeforeWalk.
Context {U : Unicode}.

Lemma load_sprite_map_cases (mapping_file : text) (st : state) :
  load_sprite_map mapping_file st
  = if can_read (fs st) mapping_file
    then (st, Ok (load_lines (readlines
                    (universal_newlines
                       (match fs st !! mapping_file with
                        | Some f => content f
                        | None => []
                        end)))))
    else (st, Raise (IOError mapping_file)).
Proof.
  unfold load_sprite_map, bind, read_text, can_read, ret.
  destruct (fs st !! mapping_file) as [f|]; [|reflexivity].
  now destruct (readable f).
Qed.

End BeforeWalk.

(** X1: the mapping is loaded and the session log opened before anything
    else is done.  When the mapping file is missing or unreadable, or the
    log cannot be opened for writing, [scan_and_replace] raises [IOError]
    (for the mapping file if that fails, else for the log) and leaves the
    state as it was: no file is touched, the log is not created or
    truncated, and no callback is called. *)
Theorem X1_failure_before_the_walk {U : Unicode}
    (argv0 : text) (tree : dir) (project_dir mapping_file : text)
    (gui_log_callback status_callback : bool) (st : state) :
  can_read (fs st) mapping_file
    && log_openable (log_path_of argv0) (fs st) = false ->
  scan_and_replace argv0 tree project_dir mapping_file
    gui_log_callback status_callback st
  = (st, Raise (IOError (if can_read (fs st) mapping_file
                         then log_path_of argv0 else mapping_file))).
Proof.
  intros H. unfold scan_and_replace, bind.
  rewrite load_sprite_map_cases.
  destruct (can_read (fs st) mapping_file); [|reflexivity].
  rewrite scan_and_replace_with_spec. cbv zeta.
  cbn [andb] in H. now rewrite H.
Qed.

Lemma X1_witness :
  scan_and_replace (U := ascii_only) (str "/tool/gui.py")
    (Dir [str "a.gml"] []) (str "/p") (str "/p/map.txt") true true
    (ex_state [(str "/p/a.gml", str "sprite_index = 12;")])
  = (ex_state [(str "/p/a.gml", str "sprite_index = 12;")],
     Raise (IOError (str "/p/map.txt"))).
Proof.
  exact (X1_failure_before_the_walk (str "/tool/gui.py")
           (Dir [str "a.gml"] []) (str "/p") (str "/p/map.txt") true true
           (ex_state [(str "/p/a.gml", str "sprite_index = 12;")])
           eq_refl).
Defined.

(** ** What a run can touch *)

(** X2: whether the run completes or raises, it changes no path but the
    session log, the eligible files the walk lists and the backups of
    these: every other path holds afterwards what it held before. *)
Theorem X2_only_walked_files_change {U : Unicode}
    (argv0 : text) (tree : dir) (project_dir mapping_file : text)
    (gui_log_callback status_callback : bool) (st : state) (k : text) :
  k <> log_path_of argv0 ->
  k ∉ walk_paths (os_walk project_dir tree) ->
  (forall p, p ∈ walk_paths (os_walk project_dir tree) -> k <> bak p) ->
  fs (fst (scan_and_replace argv0 tree project_dir mapping_file
             gui_log_callback status_callback st)) !! k
  = fs st !! k.
Proof.
  intros Hlog Hk Hbak. unfold scan_and_replace, bind.
  rewrite load_sprite_map_cases.
  destruct (can_read (fs st) mapping_file); [|reflexivity].
  rewrite scan_and_replace_with_spec. cbv zeta.
  destruct (log_openable (log_path_of argv0) (fs st)); [|reflexivity].
  set (sm := load_lines _).
  set (paths := walk_paths (os_walk project_dir tree)) in *.
  assert (Hinv : fs (fst (foldM (scan_path sm gui_log_callback status_callback)
                            ([], []) paths (open_log (log_path_of argv0) st)))
                   !! k = fs st !! k).
  { apply (foldM_state_inv _ (fun st' => fs st' !! k = fs st !! k)).
    - intros acc p st1 Hp HI. rewrite scan_path_fs, fs_step_other; auto.
      intros ->. contradiction.
    - unfold open_log. cbn [fs]. now rewrite lookup_insert_ne. }
  destruct (foldM _ _ _ _) as [st' [acc|e]]; cbn [fst] in *;
    unfold close_log, finish; cbn [fs]; now rewrite lookup_alter_ne.
Qed.

Lemma X2_witness :
  fs (fst (scan_and_replace (U := ascii_only) (str "/tool/gui.py")
             (Dir [str "a.gml"] []) (str "/p") (str "/m/map.txt") true true
             (ex_project [(str "/p/a.gml", str "sprite_index = 12;");
                          (str "/p/notes.txt", str "sprite_index = 12;")])))
    !! str "/p/notes.txt"
  = fs (ex_project [(str "/p/a.gml", str "sprite_index = 12;");
                    (str "/p/notes.txt", str "sprite_index = 12;")])
      !! str "/p/notes.txt".
Proof.
  apply (X2_only_walked_files_change (str "/tool/gui.py")
           (Dir [str "a.gml"] []) (str "/p") (str "/m/map.txt") true true).
  - discriminate.
  - vm_compute. intros H. apply list_elem_of_singleton in H. discriminate.
  - intros p Hp. vm_compute in Hp. apply list_elem_of_singleton in Hp.
    subst p. discriminate.
Defined.

(** ** A run that raises *)

Section RunErrors.
Context {U : Unicode}.
Variable sprite_map : gmap text text.
Variables gui_log_callback status_callback : bool.

Local Abbreviation step :=
  (scan_path sprite_map gui_log_callback status_callback).

Lemma scan_path_status acc (filepath : text) (st : state) :
  status_log (fst (step acc filepath st))
  = status_log st ++ (if status_callback then [scanning filepath] else []).
Proof.
  rewrite scan_path_spec. cbv zeta.
  destruct (fs st !! filepath) as [f|]; [|reflexivity].
  destruct (readable f); [|reflexivity].
  destruct (file_changed sprite_map filepath f); [|reflexivity].
  now destruct (writable f).
Qed.

Lemma scan_path_raise acc (filepath : text) (st st' : state) e :
  step acc filepath st = (st', Raise e) -> e = IOError filepath.
Proof.
  rewrite scan_path_spec. cbv zeta.
  destruct (fs st !! filepath) as [f|]; [|congruence].
  destruct (readable f); [|congruence].
  destruct (file_changed sprite_map filepath f); [|congruence].
  destruct (writable f); congruence.
Qed.

Lemma fold_raise (paths : list text) acc (st st' : state) e :
  foldM step acc paths st = (st', Raise e) ->
  exists pre p post,
    paths = pre ++ p :: post /\ e = IOError p
    /\ status_log st'
       = status_log st
           ++ (if status_callback then map scanning (pre ++ [p]) else []).
Proof.
  revert acc st. induction paths as [|p ps IH]; intros acc st H;
    [discriminate|].
  cbn [foldM] in H. unfold bind in H.
  pose proof (scan_path_status acc p st) as Hs.
  destruct (step acc p st) as [st1 [acc1|e1]] eqn:E; cbn [fst] in Hs.
  - apply IH in H as (pre & q & post & -> & -> & H).
    exists (p :: pre), q, post. repeat split. rewrite H, Hs, <- app_assoc.
    now destruct status_callback.
  - injection H as <- <-. apply scan_path_raise in E as ->.
    exists [], p, ps. repeat split. exact Hs.
Qed.

End RunErrors.

(** ** What the callbacks are told *)

Section Feed.
Context {U : Unicode}.
Variable sprite_map : gmap text text.
Variables gui_log_callback status_callback : bool.

Lemma fold_feed (paths : list text) acc (st : state) acc' (st' : state) :
  NoDup paths -> (forall p, p ∈ paths -> eligible p = true) ->
  foldM (scan_path sprite_map gui_log_callback status_callback) acc paths st
  = (st', Ok acc') ->
  gui_log st'
  = gui_log st
      ++ (if gui_log_callback then feed sprite_map (fs st) paths else [])
  /\ status_log st'
     = status_log st ++ (if status_callback then map scanning paths else []).
Proof.
  revert acc st. induction paths as [|p paths IH]; intros acc st Hnd Hel H.
  - cbn in H. unfold ret in H. injection H as <- <-. cbn.
    destruct gui_log_callback, status_callback; now rewrite !app_nil_r.
  - cbn [foldM] in H. unfold bind in H.
    pose proof (scan_path_fs sprite_map gui_log_callback status_callback
                  acc p st) as Hfs.
    destruct (scan_path _ _ _ acc p st) as [st1 [acc1|e]] eqn:E;
      [|discriminate].
    cbn [fst] in Hfs. apply NoDup_cons in Hnd as [Hp Hnd].
    assert (Hsame : forall q, q ∈ paths -> fs st1 !! q = fs st !! q).
    { intros q Hq. rewrite Hfs. apply fs_step_eligible_other.
      - apply Hel. set_solver.
      - intros ->. contradiction. }
    apply IH in H as (H1 & H2); [|assumption|intros; apply Hel; set_solver].
    assert (He : feed sprite_map (fs st1) paths
                 = feed sprite_map (fs st) paths).
    { apply flat_map_ext_in. intros q Hq. unfold events_at.
      now rewrite Hsame by now apply list_elem_of_In. }
    rewrite He in H1. clear He. rewrite H1, H2.
    rewrite scan_path_spec in E. cbv zeta in E.
    unfold feed. cbn [flat_map map].
    destruct (fs st !! p) as [f|] eqn:Ef; [|discriminate].
    assert (Hep : events_at sprite_map (fs st) p = file_events sprite_map p f)
      by (unfold events_at; now rewrite Ef).
    rewrite Hep. clear Hep.
    destruct (readable f); [|discriminate].
    assert (Hst : gui_log st1
                  = gui_log st
                      ++ (if gui_log_callback
                          then checking p
                                 :: map fst (file_events sprite_map p f)
                          else [])
                  /\ status_log st1
                     = status_log st
                         ++ (if status_callback then [scanning p] else [])).
    { destruct (file_changed sprite_map p f).
      - destruct (writable f); [|discriminate]. injection E as <- <-.
        cbn [gui_log status_log with_fs emit announce].
        destruct gui_log_callback; rewrite <- ?app_assoc, ?app_nil_r; auto.
      - injection E as <- <-. cbn [gui_log status_log emit announce].
        destruct gui_log_callback; rewrite <- ?app_assoc, ?app_nil_r; auto. }
    destruct Hst as [-> ->].
    destruct gui_log_callback, status_callback;
      rewrite <- ?app_assoc, ?app_nil_r; auto.
Qed.

End Feed.

Lemma run_feed {U : Unicode}
    (sprite_map : gmap text text) (argv0 : text) (tree : dir)
    (project_dir mapping_file : text) (gui_log_callback status_callback : bool)
    (st st' : state) (replaced_files : list text)
    (all_replacements : list file_replacement) (log_path : text) :
  NoDup (walk_paths (os_walk project_dir tree)) ->
  load_sprite_map mapping_file st = (st, Ok sprite_map) ->
  scan_and_replace argv0 tree project_dir mapping_file
    gui_log_callback status_callback st
  = (st', Ok (replaced_files, all_replacements, log_path)) ->
  status_log st'
  = status_log st
      ++ (if status_callback
          then map scanning (walk_paths (os_walk project_dir tree))
                 ++ [str "Done."]
          else [])
  /\ gui_log st'
     = gui_log st
         ++ (if gui_log_callback
             then feed sprite_map (fs st)
                    (walk_paths (os_walk project_dir tree))
                    ++ [summary replaced_files log_path]
             else []).
Proof.
  intros Hnd Hload.
  rewrite (scan_and_replace_with_loaded sprite_map gui_log_callback
             status_callback argv0 tree project_dir mapping_file st Hload).
  rewrite scan_and_replace_with_spec. cbv zeta.
  destruct (log_openable (log_path_of argv0) (fs st)); [|discriminate].
  destruct (foldM _ _ _ (open_log (log_path_of argv0) st))
    as [st1 [acc|e]] eqn:E; [|discriminate].
  intros H. injection H as <- <- <- <-.
  apply fold_feed in E as (H1 & H2);
    [|assumption|apply walk_paths_eligible].
  cbn [gui_log status_log open_log] in H1, H2.
  assert (He : feed sprite_map (fs (open_log (log_path_of argv0) st))
                 (walk_paths (os_walk project_dir tree))
               = feed sprite_map (fs st)
                   (walk_paths (os_walk project_dir tree))).
  { apply flat_map_ext_in. intros q Hq. unfold events_at. cbn [fs open_log].
    rewrite lookup_insert_ne; [reflexivity|].
    intros Eq. symmetry in Eq. revert Eq. apply eligible_not_log.
    eapply walk_paths_eligible. apply list_elem_of_In. eauto. }
  rewrite He in H1. clear He.
  cbn [gui_log status_log close_log finish]. rewrite H1, H2.
  destruct gui_log_callback, status_callback;
    rewrite <- ?app_assoc, ?app_nil_r; auto.
Qed.

(** X5: in a run that completes, the status callback is called with
    [Scanning: <path>] for each eligible file, in the order of the walk,
    and last with [Done.]; the log callback is called, for each of these
    files in turn, with [Checking: <path>] and then with the message of
    each substitution accepted in it, and last with the summary.  A
    callback that is not given is not called. *)
Theorem X5_what_the_callbacks_are_told {U : Unicode}
    (sprite_map : gmap text text) (argv0 : text) (tree : dir)
    (project_dir mapping_file : text) (gui_log_callback status_callback : bool)
    (st st' : state) (replaced_files : list text)
    (all_replacements : list file_replacement) (log_path : text) :
  NoDup (walk_paths (os_walk project_dir tree)) ->
  load_sprite_map mapping_file st = (st, Ok sprite_map) ->
  scan_and_replace argv0 tree project_dir mapping_file
    gui_log_callback status_callback st
  = (st', Ok (replaced_files, all_replacements, log_path)) ->
  let paths := walk_paths (os_walk project_dir tree) in
  status_log st'
  = status_log st
      ++ (if status_callback
          then map (fun p => str "Scanning: " ++ p) paths ++ [str "Done."]
          else [])
  /\ gui_log st'
     = gui_log st
         ++ (if gui_log_callback
             then flat_map
                    (fun p => (str "Checking: " ++ p)
                                :: map fst (events_at sprite_map (fs st) p))
                    paths
                    ++ [summary replaced_files log_path]
             else []).
Proof.
  intros Hnd Hload Hrun paths.
  destruct (run_feed sprite_map argv0 tree project_dir mapping_file
              gui_log_callback status_callback st st' replaced_files
              all_replacements log_path Hnd Hload Hrun) as [Hs Hg].
  unfold feed, scanning, checking in *. split; assumption.
Qed.

Lemma X5_witness :
  status_log
    (fst (scan_and_replace (U := ascii_only) (str "/tool/gui.py")
            (Dir [str "a.gml"; str "b.gml"] []) (str "/p")
            (str "/m/map.txt") true true
            (ex_project [(str "/p/a.gml", str "sprite_index = 12;");
                         (str "/p/b.gml", str "x = 12;")])))
  = [str "Scanning: /p/a.gml"; str "Scanning: /p/b.gml"; str "Done."]
  /\ gui_log
       (fst (scan_and_replace (U := ascii_only) (str "/tool/gui.py")
               (Dir [str "a.gml"; str "b.gml"] []) (str "/p")
               (str "/m/map.txt") true true
               (ex_project [(str "/p/a.gml", str "sprite_index = 12;");
                            (str "/p/b.gml", str "x = 12;")])))
     = [str "Checking: /p/a.gml";
        str "[a.gml:1] sprite_index = 12; " ++ [ARROW]
          ++ str " sprite_index = spr_player_idle;";
        str "Checking: /p/b.gml";
        summary [str "/p/a.gml"] (str "/tool/spritereplacement_log.txt")].
Proof.
  apply (X5_what_the_callbacks_are_told ex_map (str "/tool/gui.py")
           (Dir [str "a.gml"; str "b.gml"] []) (str "/p") (str "/m/map.txt")
           true true
           (ex_project [(str "/p/a.gml", str "sprite_index = 12;");
                        (str "/p/b.gml", str "x = 12;")])
           _ [str "/p/a.gml"]
           [(str "/p/a.gml", str "sprite_index = 12;",
             str "sprite_index = spr_player_idle;", 1%nat)]
           (str "/tool/spritereplacement_log.txt")).
  - vm_compute. repeat constructor; set_solver.
  - reflexivity.
  - now vm_compute.
Defined.

(** ** Callbacks only observe *)

Section Observers.
Context {U : Unicode}.
Variable sprite_map : gmap text text.

(** Two states with the same files and the same text in the open log. *)
Local Abbreviation alike st1 st2 :=
  (fs st1 = fs st2 /\ log_f st1 = log_f st2).

Lemma scan_path_alike g s g' s' acc (p : text) (st1 st2 : state) :
  alike st1 st2 ->
  snd (scan_path sprite_map g s acc p st1)
  = snd (scan_path sprite_map g' s' acc p st2)
  /\ alike (fst (scan_path sprite_map g s acc p st1))
           (fst (scan_path sprite_map g' s' acc p st2)).
Proof.
  intros [Hfs Hlog]. rewrite !scan_path_spec. cbv zeta. rewrite Hfs.
  destruct (fs st2 !! p) as [f|]; [|cbn; auto].
  destruct (readable f); [|cbn; auto].
  destruct (file_changed sprite_map p f); [destruct (writable f)|];
    cbn [fst snd fs log_f with_fs emit announce]; rewrite Hlog; auto.
Qed.

Lemma fold_alike g s g' s' (paths : list text) acc (st1 st2 : state) :
  alike st1 st2 ->
  snd (foldM (scan_path sprite_map g s) acc paths st1)
  = snd (foldM (scan_path sprite_map g' s') acc paths st2)
  /\ alike (fst (foldM (scan_path sprite_map g s) acc paths st1))
           (fst (foldM (scan_path sprite_map g' s') acc paths st2)).
Proof.
  revert acc st1 st2. induction paths as [|p ps IH]; intros acc st1 st2 H;
    [cbn; auto|].
  cbn [foldM]. unfold bind.
  destruct (scan_path_alike g s g' s' acc p st1 st2 H) as (Hr & Ha).
  destruct (scan_path sprite_map g s acc p st1) as [q1 r1].
  destruct (scan_path sprite_map g' s' acc p st2) as [q2 r2].
  cbn [fst snd] in Hr, Ha. subst r2. destruct r1 as [acc1|e]; [|auto].
  now apply IH.
Qed.

Lemma scan_path_quiet s acc (p : text) (st : state) :
  gui_log (fst (scan_path sprite_map false s acc p st)) = gui_log st.
Proof.
  rewrite scan_path_spec. cbv zeta.
  destruct (fs st !! p) as [f|]; [|cbn; apply app_nil_r].
  destruct (readable f); [|cbn; apply app_nil_r].
  destruct (file_changed sprite_map p f); [destruct (writable f)|];
    cbn [fst gui_log with_fs emit announce]; now rewrite !app_nil_r.
Qed.

Lemma scan_path_silent g acc (p : text) (st : state) :
  status_log (fst (scan_path sprite_map g false acc p st)) = status_log st.
Proof.
  rewrite scan_path_spec. cbv zeta.
  destruct (fs st !! p) as [f|]; [|cbn; apply app_nil_r].
  destruct (readable f); [|cbn; apply app_nil_r].
  destruct (file_changed sprite_map p f); [destruct (writable f)|];
    cbn [fst status_log with_fs emit announce]; now rewrite !app_nil_r.
Qed.

End Observers.

(** X6: the callbacks only observe.  Whether they are given or not, a run
    from the same state returns the same result or raises the same
    exception, and leaves the same files, the session log included; and a
    callback that is not given leaves its sink as it was. *)
Theorem X6_callbacks_only_observe {U : Unicode}
    (argv0 : text) (tree : dir) (project_dir mapping_file : text)
    (st : state) :
  (forall g s g' s',
     snd (scan_and_replace argv0 tree project_dir mapping_file g s st)
     = snd (scan_and_replace argv0 tree project_dir mapping_file g' s' st)
     /\ fs (fst (scan_and_replace argv0 tree project_dir mapping_file g s st))
        = fs (fst (scan_and_replace argv0 tree project_dir mapping_file
                     g' s' st)))
  /\ (forall s,
        gui_log (fst (scan_and_replace argv0 tree project_dir mapping_file
                        false s st))
        = gui_log st)
  /\ (forall g,
        status_log (fst (scan_and_replace argv0 tree project_dir mapping_file
                           g false st))
        = status_log st).
Proof.
  unfold scan_and_replace, bind. rewrite load_sprite_map_cases.
  destruct (can_read (fs st) mapping_file); [|auto].
  set (sm := load_lines _).
  split; [|split].
  - intros g s g' s'. rewrite !scan_and_replace_with_spec. cbv zeta.
    destruct (log_openable (log_path_of argv0) (fs st)); [|auto].
    destruct (fold_alike sm g s g' s'
                (walk_paths (os_walk project_dir tree)) ([], [])
                (open_log (log_path_of argv0) st)
                (open_log (log_path_of argv0) st) (conj eq_refl eq_refl))
      as (Hr & Hfs & Hlog).
    destruct (foldM (scan_path sm g s) _ _ _) as [q1 r1].
    destruct (foldM (scan_path sm g' s') _ _ _) as [q2 r2].
    cbn [fst snd] in Hr, Hfs, Hlog. subst r2.
    destruct r1 as [acc|e]; cbn [fst snd fs log_f close_log finish];
      now rewrite Hfs, Hlog.
  - intros s. rewrite scan_and_replace_with_spec. cbv zeta.
    destruct (log_openable (log_path_of argv0) (fs st)); [|reflexivity].
    pose proof (foldM_state_inv (scan_path sm false s)
                  (fun q => gui_log q = gui_log st)
                  (walk_paths (os_walk project_dir tree))
                  ltac:(intros acc p q _ Hq; cbv beta;
                        now rewrite scan_path_quiet)
                  ([], []) (open_log (log_path_of argv0) st) eq_refl) as H.
    cbv beta in H.
    destruct (foldM _ _ _ _) as [q [acc|e]];
      cbn [fst gui_log close_log finish] in *; now rewrite ?app_nil_r.
  - intros g. rewrite scan_and_replace_with_spec. cbv zeta.
    destruct (log_openable (log_path_of argv0) (fs st)); [|reflexivity].
    pose proof (foldM_state_inv (scan_path sm g false)
                  (fun q => status_log q = status_log st)
                  (walk_paths (os_walk project_dir tree))
                  ltac:(intros acc p q _ Hq; cbv beta;
                        now rewrite scan_path_silent)
                  ([], []) (open_log (log_path_of argv0) st) eq_refl) as H.
    cbv beta in H.
    destruct (foldM _ _ _ _) as [q [acc|e]];
      cbn [fst status_log close_log finish] in *; now rewrite ?app_nil_r.
Qed.

(** ** Text the pattern cannot match *)

Section CannotMatch.
Context {U : Unicode}.

Lemma startswith_app_l (p a b : text) :
  startswith p a = true -> startswith p (a ++ b) = true.
Proof.
  rewrite !startswith_spec. intros [t ->]. exists (t ++ b).
  now rewrite app_assoc.
Qed.

Lemma contains_app_l (p a b : text) :
  contains p a = true -> contains p (a ++ b) = true.
Proof.
  induction a as [|c a IH]; [discriminate|]. cbn [contains app].
  intros H. apply orb_true_iff in H as [H|H]; apply orb_true_iff.
  - left. now apply (startswith_app_l p (c :: a) b).
  - right. auto.
Qed.

Lemma contains_app_r (p a b : text) :
  contains p b = true -> contains p (a ++ b) = true.
Proof.
  intros H. induction a as [|c a IH]; [assumption|].
  cbn [contains app]. rewrite IH. apply orb_true_r.
Qed.

Lemma contains_concat (p l : text) (ls : list text) :
  l ∈ ls -> contains p l = true -> contains p (concat ls) = true.
Proof.
  intros Hl Hp. induction ls as [|l' ls IH]; [inversion Hl|].
  cbn [concat]. apply elem_of_cons in Hl as [->|Hl].
  - now apply contains_app_l.
  - apply contains_app_r. auto.
Qed.

Lemma elem_of_concat_line x (l : text) (ls : list text) :
  l ∈ ls -> x ∈ l -> x ∈ concat ls.
Proof.
  intros Hl Hx. induction ls as [|l' ls IH]; [inversion Hl|].
  cbn [concat]. apply elem_of_cons in Hl as [->|Hl]; set_solver.
Qed.

Lemma universal_newlines_elem x (s : text) :
  x ∈ universal_newlines s -> x ∈ s \/ x = LF.
Proof.
  induction s as [s IH] using (induction_ltof1 _ (@length N)).
  unfold ltof in IH. destruct s as [|c s]; [set_solver|].
  cbn [universal_newlines]. destruct (N.eqb_spec c CR) as [->|Hc].
  - intros H. apply elem_of_cons in H as [->|H]; [auto|].
    destruct s as [|d s]; [set_solver|].
    destruct (d =? LF).
    + apply IH in H; [|cbn; lia]. set_solver.
    + apply IH in H; [|cbn; lia]. set_solver.
  - intros H. apply elem_of_cons in H as [->|H]; [set_solver|].
    apply IH in H; [|cbn; lia]. set_solver.
Qed.

Lemma universal_newlines_cons c (s : text) :
  c <> CR -> universal_newlines (c :: s) = c :: universal_newlines s.
Proof. intros H. cbn. now destruct (N.eqb_spec c CR). Qed.

Lemma universal_newlines_head c (s t : text) :
  universal_newlines s = c :: t -> c <> LF ->
  exists s', s = c :: s' /\ universal_newlines s' = t.
Proof.
  destruct s as [|d s]; [discriminate|]. cbn [universal_newlines].
  destruct (N.eqb_spec d CR) as [->|Hd]; intros H Hc.
  - exfalso. apply Hc. now injection H.
  - injection H as -> H. eauto.
Qed.

Lemma universal_newlines_spr (s : text) :
  contains (str "spr") (universal_newlines s) = true ->
  contains (str "spr") s = true.
Proof.
  induction s as [s IH] using (induction_ltof1 _ (@length N)).
  unfold ltof in IH. destruct s as [|c s]; [discriminate|].
  intros H.
  destruct (universal_newlines (c :: s)) as [|x t] eqn:E; [discriminate|].
  cbn [contains] in H. apply orb_true_iff in H as [H|H].
  - apply startswith_spec in H as [r H].
    rewrite H in E. cbn [str map list_ascii_of_string app] in E.
    apply universal_newlines_head in E as (s1 & E1 & E); [|discriminate].
    apply universal_newlines_head in E as (s2 & -> & E); [|discriminate].
    apply universal_newlines_head in E as (s3 & -> & E); [|discriminate].
    rewrite E1. reflexivity.
  - cbn [contains]. apply orb_true_iff. right.
    cbn [universal_newlines] in E.
    destruct (N.eqb_spec c CR) as [->|Hc]; injection E as <- <-.
    + destruct s as [|d s]; [discriminate|].
      destruct (d =? LF).
      * cbn [contains]. apply orb_true_iff. right. apply IH; [cbn; lia|auto].
      * apply IH; [cbn; lia|auto].
    + apply IH; [cbn; lia|auto].
Qed.

(** What a match needs of the text it is in. *)
Lemma match_needs var (s : text) i (v num rest : text) :
  match_at var (drop i s) = Some (v, num, rest) ->
  contains (str "spr") s = true /\ SEMI ∈ s /\ EQUALS ∈ s
  /\ exists c, c ∈ s /\ isdigit c = true.
Proof.
  intros H. apply match_at_elim in H
    as (ws1 & ws2 & ws3 & E & Hv & _ & _ & Hn & Hne & _).
  rewrite <- (take_drop i s), E. clear E.
  apply var_shape_any in Hv. cbn [var_shape] in Hv.
  apply andb_true_iff in Hv as [_ Hv].
  repeat split.
  - apply contains_app_r. now apply contains_app_l.
  - set_solver.
  - set_solver.
  - destruct num as [|d num]; [congruence|]. cbn in Hn.
    apply andb_true_iff in Hn as [Hd _]. exists d. split; [set_solver|auto].
Qed.

Lemma cannot_match_inactive sprite_map var (s : text) :
  cannot_match s -> inactive sprite_map var s.
Proof.
  intros H i v num rest Hm.
  apply match_needs in Hm as (H1 & H2 & H3 & c & Hc & Hd).
  destruct H as [H|[H|[H|H]]]; [congruence|contradiction|contradiction|].
  rewrite (H c Hc) in Hd. discriminate.
Qed.

Lemma sub_line_inactive sprite_map filename idx (line : text) :
  (forall var, inactive sprite_map var line) ->
  sub_line sprite_map filename idx line = (line, []).
Proof.
  intros H. unfold sub_line, SPRITE_VARS. cbn [sub_vars].
  now rewrite !re_sub_inactive by apply H.
Qed.

Lemma cannot_match_line (s : text) (line : text) :
  cannot_match s -> line ∈ readlines (universal_newlines s) ->
  cannot_match line.
Proof.
  intros H Hl.
  assert (Hin : forall x, x ∈ line -> x ∈ s \/ x = LF).
  { intros x Hx. apply universal_newlines_elem.
    rewrite <- concat_readlines. eapply elem_of_concat_line; eauto. }
  destruct H as [H|[H|[H|H]]].
  - left. destruct (contains (str "spr") line) eqn:E; [|reflexivity].
    rewrite <- H. symmetry. apply universal_newlines_spr.
    rewrite <- (concat_readlines (universal_newlines s)).
    eapply contains_concat; eauto.
  - right. left. intros Hx. apply Hin in Hx as [Hx|Hx];
      [contradiction|discriminate].
  - right. right. left. intros Hx. apply Hin in Hx as [Hx|Hx];
      [contradiction|discriminate].
  - right. right. right. intros c Hc. apply Hin in Hc as [Hc| ->];
      [auto|reflexivity].
Qed.

Lemma line_events_nil sprite_map filename idx (lines : list text) :
  (forall line, line ∈ lines ->
     forall idx', sub_line sprite_map filename idx' line = (line, [])) ->
  line_events sprite_map filename idx lines = []
  /\ lines_changed sprite_map filename idx lines = false.
Proof.
  revert idx. induction lines as [|l ls IH]; intros idx H; [auto|].
  cbn [line_events lines_changed]. rewrite (H l) by left.
  cbn [fst snd]. rewrite text_eqb_refl.
  destruct (IH (S idx)) as [-> ->]; [|auto].
  intros line Hl. apply H. now right.
Qed.

End CannotMatch.

(** X7: text in which the pattern can match nowhere is left alone.  A line
    that lacks the letters [spr], the semicolon, the equals sign or any
    digit comes out of the passes as it is, whatever the mapping; and a
    readable file whose text lacks one of these is not written or backed
    up, nothing is logged, and [replace_in_file] returns [False] and no
    record. *)
Theorem X7_text_that_cannot_match {U : Unicode}
    (sprite_map : gmap text text) (filename : text) :
  (forall idx line,
     cannot_match line ->
     sub_line sprite_map filename idx line = (line, []))
  /\ (forall gui_log_callback file_log_callback st f,
        fs st !! filename = Some f -> readable f = true ->
        cannot_match (content f) ->
        replace_in_file filename sprite_map gui_log_callback
          file_log_callback st
        = (st, Ok (false, []))).
Proof.
  split.
  - intros idx line H. apply sub_line_inactive. intros var.
    now apply cannot_match_inactive.
  - intros g l st f Hf Hr H. rewrite replace_in_file_spec, Hf, Hr. cbv zeta.
    destruct (line_events_nil sprite_map filename 1 (file_lines f))
      as [He Hc].
    { intros line Hl idx'. apply sub_line_inactive. intros var.
      apply cannot_match_inactive. eapply cannot_match_line; eauto. }
    unfold file_changed, file_events. rewrite Hc, He.
    now rewrite emit_nil.
Qed.

Lemma X7_witness :
  replace_in_file (U := ascii_only) (str "/p/a.gml") ex_swap true true
    (ex_state [(str "/p/a.gml", str "Sprite_Index = 1;" ++ [CR; LF]
                                  ++ str "image_index = 2;")])
  = (ex_state [(str "/p/a.gml", str "Sprite_Index = 1;" ++ [CR; LF]
                                  ++ str "image_index = 2;")],
     Ok (false, [])).
Proof.
  refine (proj2 (X7_text_that_cannot_match ex_swap (str "/p/a.gml"))
            true true
            (ex_state [(str "/p/a.gml", str "Sprite_Index = 1;" ++ [CR; LF]
                                          ++ str "image_index = 2;")])
            (File (str "Sprite_Index = 1;" ++ [CR; LF]
                     ++ str "image_index = 2;") true true)
            eq_refl eq_refl _).
  left. reflexivity.
Defined.

(** ** The two passes, one after the other *)

(** X8: the pass for [\w*spr\w*] works on what the pass for [sprite_index]
    left.  On a line that is one assignment to a name ending with
    [sprite_index], whose digits are a key with a value that is again
    digits and a key, the first pass writes the first value and the second
    pass replaces it by the second: the line ends with the second value,
    and two replacements are recorded.  On such a line with a name of the
    shape [\w*spr\w*] that does not end with [sprite_index] only the
    second pass matches: the value of the digits is written, whatever it
    is, and one replacement is recorded. *)
Theorem X8_second_pass_sees_the_first {U : Unicode}
    (sprite_map : gmap text text) (filename : text) (idx : nat)
    (ws1 ws2 digits ws3 indent eol value : text) :
  forallb isspace ws1 = true -> forallb isspace ws2 = true ->
  forallb isdigit digits = true -> digits <> [] ->
  forallb isspace ws3 = true ->
  forallb isspace indent = true -> forallb isspace eol = true ->
  sprite_map !! digits = Some value ->
  (forall prefix value',
     forallb isword prefix = true ->
     forallb isdigit value = true -> value <> [] ->
     sprite_map !! value = Some value' ->
     let varname := prefix ++ str "sprite_index" in
     let line := indent ++ assignment varname ws1 ws2 digits ws3 ++ eol in
     sub_line sprite_map filename idx line
     = (indent ++ fragment varname value' ++ eol,
        [(message filename idx line (fragment (str "sprite_index") value),
          (line, fragment (str "sprite_index") value, idx));
         (message filename idx line (fragment varname value'),
          (line, fragment varname value', idx))]))
  /\ (forall varname,
        var_shape AnySpr varname = true ->
        endswith (str "sprite_index") varname = false ->
        let line := indent ++ assignment varname ws1 ws2 digits ws3 ++ eol in
        sub_line sprite_map filename idx line
        = (indent ++ fragment varname value ++ eol,
           [(message filename idx line (fragment varname value),
             (line, fragment varname value, idx))])).
Proof.
  intros H1 H2 Hn Hne H3 Hi He Hk.
  assert (Heol : forall var orig_line,
            re_sub sprite_map filename var idx orig_line eol = (eol, []))
    by (intros; apply re_sub_inactive; now apply inactive_spaces).
  split.
  - intros q value' Hq Hd Hdne Hk' varname line.
    unfold sub_line, SPRITE_VARS. cbn [sub_vars].
    assert (El : line = indent
                 ++ (q ++ assignment (str "sprite_index") ws1 ws2 digits ws3
                       ++ eol)).
    { unfold line, varname, assignment.
      now repeat (rewrite <- app_assoc; simpl). }
    rewrite El at 2. rewrite re_sub_skip by now apply spaces_not_word.
    rewrite (re_sub_inside_identifier sprite_map filename idx line
               q ws1 ws2 digits ws3 eol value)
      by (assumption || reflexivity).
    rewrite Heol. cbn [fst snd].
    replace (indent ++ q ++ fragment (str "sprite_index") value ++ eol)
      with (indent ++ assignment varname [SPACE] [SPACE] value [] ++ eol)
      by (unfold varname, assignment, fragment;
          now repeat (rewrite <- app_assoc; simpl)).
    rewrite re_sub_skip by now apply spaces_not_word.
    rewrite re_sub_assignment; try (assumption || reflexivity).
    + rewrite (repl_key _ _ _ _ _ _ _ _ Hk'), Heol. reflexivity.
    + unfold varname. cbn [var_shape]. apply andb_true_iff. split.
      * apply forallb_app_true. split; [assumption|reflexivity].
      * now apply contains_app_r.
  - intros varname Hv Hend line.
    unfold sub_line, SPRITE_VARS. cbn [sub_vars].
    rewrite (re_sub_inactive sprite_map filename SpriteIndex idx line line).
    + unfold line at 2.
      rewrite re_sub_skip by now apply spaces_not_word.
      rewrite re_sub_assignment by assumption.
      rewrite (repl_key _ _ _ _ _ _ _ _ Hk), Heol. reflexivity.
    + intros i v' num rest Hm. unfold line in Hm.
      rewrite no_sprite_index_match in Hm by assumption. discriminate.
Qed.

Lemma X8_witness :
  sub_line (U := ascii_only) {[ str "1" := str "2"; str "2" := str "3" ]}
    (str "/p/a.gml") 1 (str "sprite_index = 1;" ++ [LF])
  = (str "sprite_index = 3;" ++ [LF],
     [(message (str "/p/a.gml") 1 (str "sprite_index = 1;" ++ [LF])
         (str "sprite_index = 2;"),
       (str "sprite_index = 1;" ++ [LF], str "sprite_index = 2;", 1%nat));
      (message (str "/p/a.gml") 1 (str "sprite_index = 1;" ++ [LF])
         (str "sprite_index = 3;"),
       (str "sprite_index = 1;" ++ [LF], str "sprite_index = 3;", 1%nat))])
  /\ sub_line (U := ascii_only) {[ str "1" := str "2"; str "2" := str "3" ]}
       (str "/p/a.gml") 1 (str "my_spr = 1;" ++ [LF])
     = (str "my_spr = 2;" ++ [LF],
        [(message (str "/p/a.gml") 1 (str "my_spr = 1;" ++ [LF])
            (str "my_spr = 2;"),
          (str "my_spr = 1;" ++ [LF], str "my_spr = 2;", 1%nat))]).
Proof.
  pose proof (X8_second_pass_sees_the_first (U := ascii_only)
                {[ str "1" := str "2"; str "2" := str "3" ]}
                (str "/p/a.gml") 1 [SPACE] [SPACE] (str "1") [] [] [LF]
                (str "2") eq_refl eq_refl eq_refl ltac:(discriminate)
                eq_refl eq_refl eq_refl eq_refl) as [Ha Hb].
  split.
  - exact (Ha [] (str "3") eq_refl eq_refl ltac:(discriminate) eq_refl).
  - exact (Hb (str "my_spr") eq_refl eq_refl).
Defined.

(** ** A mapping without numbers *)

Section NoDigitKey.
Context {U : Unicode}.
Variable sprite_map : gmap text text.
Hypothesis Hkeys : no_digit_key sprite_map.

Lemma no_digit_key_inactive var (s : text) : inactive sprite_map var s.
Proof.
  intros i v num rest Hm.
  apply match_at_elim in Hm as (_ & _ & _ & _ & _ & _ & _ & Hn & Hne & _).
  destruct (sprite_map !! num) as [value|] eqn:E; [|reflexivity].
  exfalso. apply Hne. eapply Hkeys; eauto.
Qed.

Lemma no_digit_key_file (filepath : text) (f : file) :
  file_events sprite_map filepath f = []
  /\ file_changed sprite_map filepath f = false.
Proof.
  apply line_events_nil. intros line _ idx. apply sub_line_inactive.
  intros var. apply no_digit_key_inactive.
Qed.

Lemma fold_no_digit_key g s (paths : list text) acc (st : state) :
  (forall p, p ∈ paths -> can_read (fs st) p = true) ->
  exists st',
    foldM (scan_path sprite_map g s) acc paths st = (st', Ok acc)
    /\ fs st' = fs st /\ log_f st' = log_f st.
Proof.
  revert st. induction paths as [|p ps IH]; intros st H; [now exists st|].
  cbn [foldM]. unfold bind. rewrite scan_path_spec. cbv zeta.
  pose proof (H p ltac:(left)) as Hp. unfold can_read in Hp.
  destruct (fs st !! p) as [f|]; [|discriminate]. rewrite Hp.
  destruct (no_digit_key_file p f) as [-> ->]. rewrite emit_nil.
  destruct (IH (announce g s p st)) as (st' & -> & Hfs & Hlog).
  - intros q Hq. apply H. now right.
  - exists st'. auto.
Qed.

End NoDigitKey.



(** ** The shape of a loaded mapping *)

Section Strip.
Context {U : Unicode}.

Lemma strip_line_feed (body : text) x :
  x ∈ strip (body ++ [LF]) -> x ∈ body.
Proof.
  unfold strip, lstrip. rewrite drop_while_app.
  destruct (forallb isspace body).
  - cbn. set_solver.
  - unfold rstrip. rewrite rev_app_distr. cbn [rev app drop_while].
    change (isspace LF) with true. cbv iota. intros H.
    apply elem_of_rev, drop_while_elem, elem_of_rev, drop_while_elem in H.
    exact H.
Qed.

Lemma lines_wf_line (ls : list text) (l : text) :
  lines_wf ls -> l ∈ ls ->
  exists body, (LF ∉ body) /\ (l = body ++ [LF] \/ l = body).
Proof.
  induction 1 as [|body Hb Hne|body ls Hb Hls IH]; intros Hl.
  - inversion Hl.
  - apply list_elem_of_singleton in Hl as ->. eauto.
  - apply elem_of_cons in Hl as [->|Hl]; eauto.
Qed.

Lemma strip_read_line (s : text) (line : text) x :
  line ∈ readlines (universal_newlines s) -> x ∈ strip line ->
  x <> LF /\ x <> CR.
Proof.
  intros Hl Hx. split.
  - destruct (lines_wf_line _ _ (readlines_wf _) Hl) as (body & Hb & [->| ->]).
    + apply strip_line_feed in Hx. intros ->. contradiction.
    + apply strip_elem in Hx. intros ->. contradiction.
  - intros ->. apply strip_elem in Hx.
    apply (universal_newlines_no_CR s).
    rewrite <- (concat_readlines (universal_newlines s)).
    eapply elem_of_concat_line; eauto.
Qed.

End Strip.



(** ** Lines and line ends of a rewritten file *)

Section LineBreaks.
Context {U : Unicode}.
Variable sprite_map : gmap text text.
Variable filename : text.

(** A character that is in no word, in no value of the map, and is none of
    the characters a replacement adds, does not come into the text. *)
Lemma re_sub_keeps_out var idx orig_line (s : text) x :
  (forall key value, sprite_map !! key = Some value -> x ∉ value) ->
  isword x = false -> x <> SPACE -> x <> EQUALS -> x <> SEMI ->
  x ∉ s -> x ∉ fst (re_sub sprite_map filename var idx orig_line s).
Proof.
  intros Hval Hw H1 H2 H3.
  induction s as [|c s Hno IH|s v num rest Hm IH] using (re_sub_ind var);
    intros Hs.
  - rewrite re_sub_nil. set_solver.
  - rewrite re_sub_nomatch by assumption. cbn [fst]. set_solver.
  - rewrite (re_sub_match _ _ _ _ _ _ _ _ _ Hm). cbn [fst].
    destruct (match_at_length _ _ _ _ _ Hm) as (m & -> & _).
    apply not_elem_of_app in Hs as [Hm' Hr]. rewrite captured_app.
    apply not_elem_of_app. split; [|auto].
    destruct (sprite_map !! num) as [value|] eqn:Hk.
    + rewrite (repl_key _ _ _ _ _ _ _ _ Hk). cbn [fst].
      apply match_at_elim in Hm as (_ & _ & _ & _ & Hv & _).
      apply var_shape_word in Hv.
      unfold fragment. rewrite !not_elem_of_app. repeat split.
      * now apply (class_not_elem isword).
      * cbn. set_solver.
      * eapply Hval; eauto.
      * cbn. set_solver.
    + now rewrite repl_no_key.
Qed.

Lemma sub_vars_keeps_out vars idx orig_line (s : text) x :
  (forall key value, sprite_map !! key = Some value -> x ∉ value) ->
  isword x = false -> x <> SPACE -> x <> EQUALS -> x <> SEMI ->
  x ∉ s -> x ∉ fst (sub_vars sprite_map filename vars idx orig_line s).
Proof.
  intros Hval Hw H1 H2 H3. revert s.
  induction vars as [|var vars IH]; intros s Hs; cbn [sub_vars]; [assumption|].
  pose proof (re_sub_keeps_out var idx orig_line s x Hval Hw H1 H2 H3 Hs)
    as Ha.
  destruct (re_sub sprite_map filename var idx orig_line s) as [l1 e1].
  specialize (IH l1 Ha).
  now destruct (sub_vars sprite_map filename vars idx orig_line l1).
Qed.

Hypothesis Hfree : line_break_free sprite_map.

Lemma sub_vars_line vars idx orig_line (body : text) :
  LF ∉ body ->
  (LF ∉ fst (sub_vars sprite_map filename vars idx orig_line body))
  /\ (body <> [] ->
      fst (sub_vars sprite_map filename vars idx orig_line body) <> [])
  /\ fst (sub_vars sprite_map filename vars idx orig_line (body ++ [LF]))
     = fst (sub_vars sprite_map filename vars idx orig_line body) ++ [LF].
Proof.
  revert body. induction vars as [|var vars IH]; intros body Hb;
    cbn [sub_vars]; [auto|].
  pose proof (re_sub_keeps_out var idx orig_line body LF
                (fun k v H => proj1 (Hfree k v H)) eq_refl) as Ha.
  pose proof (re_sub_nonempty sprite_map filename var idx orig_line body)
    as Hn.
  rewrite re_sub_snoc by (reflexivity || discriminate).
  destruct (re_sub sprite_map filename var idx orig_line body) as [l1 e1].
  cbn [fst snd] in *.
  specialize (IH l1 ltac:(apply Ha; (discriminate || assumption))).
  destruct IH as (I1 & I2 & I3).
  destruct (sub_vars sprite_map filename vars idx orig_line l1) as [l2 e2].
  destruct (sub_vars sprite_map filename vars idx orig_line (l1 ++ [LF]))
    as [l3 e3].
  cbn [fst] in *. auto.
Qed.

Lemma new_lines_shape idx (ls : list text) :
  lines_wf ls -> lines_wf (new_lines_of sprite_map filename idx ls).
Proof.
  intros H. revert idx.
  induction H as [|body Hb Hne|body ls Hb Hls IH]; intros idx;
    cbn [new_lines_of].
  - constructor.
  - destruct (sub_vars_line SPRITE_VARS idx body body Hb) as (H1 & H2 & _).
    apply wf_last; [exact H1|exact (H2 Hne)].
  - destruct (sub_vars_line SPRITE_VARS idx (body ++ [LF]) body Hb)
      as (H1 & _ & H3).
    unfold sub_line. rewrite H3. apply wf_cons; [assumption|apply IH].
Qed.

Lemma new_lines_without_CR idx (ls : list text) :
  Forall (fun l => CR ∉ l) ls ->
  Forall (fun l => CR ∉ l) (new_lines_of sprite_map filename idx ls).
Proof.
  intros H. revert idx. induction H as [|l ls Hl Hls IH]; intros idx;
    cbn [new_lines_of]; constructor; [|apply IH].
  apply sub_vars_keeps_out;
    try (reflexivity || discriminate || assumption).
  intros k v Hk. exact (proj2 (Hfree k v Hk)).
Qed.

Lemma rewritten_without_CR (f : file) : CR ∉ rewritten sprite_map filename f.
Proof.
  unfold rewritten. apply not_elem_of_concat, new_lines_without_CR.
  apply not_elem_of_concat. unfold file_lines. rewrite concat_readlines.
  apply universal_newlines_no_CR.
Qed.

Lemma rewritten_lines (f : file) r w :
  file_lines (File (rewritten sprite_map filename f) r w)
  = new_lines_of sprite_map filename 1 (file_lines f).
Proof.
  unfold file_lines at 1. cbn [content].
  rewrite universal_newlines_id by apply rewritten_without_CR.
  unfold rewritten. apply readlines_concat, new_lines_shape, readlines_wf.
Qed.

Lemma new_lines_lookup idx (ls : list text) i :
  new_lines_of sprite_map filename idx ls !! i
  = (fun line => fst (sub_line sprite_map filename (idx + i) line))
      <$> ls !! i.
Proof.
  revert idx i. induction ls as [|l ls IH]; intros idx i; [reflexivity|].
  destruct i as [|i]; cbn [new_lines_of].
  - cbn. now rewrite Nat.add_0_r.
  - cbn [lookup list_lookup]. rewrite IH. now rewrite Nat.add_succ_r.
Qed.

End LineBreaks.

Lemma loaded_line_break_free {U : Unicode} (mapping_file : text)
    (st st' : state) (sprite_map : gmap text text) :
  load_sprite_map mapping_file st = (st', Ok sprite_map) ->
  line_break_free sprite_map.
Proof.
  rewrite load_sprite_map_cases.
  destruct (can_read (fs st) mapping_file); [|discriminate].
  intros H. injection H as <- <-. intros key value Hk.
  set (data := match fs st !! mapping_file with
               | Some f => content f
               | None => []
               end) in *.
  apply fold_load_line_from in Hk as [Hk|(l & Hl & k & v & E & _ & _ & -> & ->)];
    [rewrite lookup_empty in Hk; discriminate|].
  assert (Hx : forall x, x ∈ strip v -> x <> LF /\ x <> CR).
  { intros x Hx. apply (strip_read_line data l x Hl). rewrite E.
    apply strip_elem in Hx. set_solver. }
  split; intros H; now destruct (Hx _ H).
Qed.





(** ** A file that cannot be written *)

(** X13: when [replace_in_file] raises [IOError] for a file that it could
    read, it is the write that failed, after the substitutions were
    reported and the backup was made: there were substitutions, their
    messages are in both sinks, the backup holds the file if there was none
    before, the file itself and every other path are as they were. *)
Theorem X13_write_fails_after_backup_and_log {U : Unicode}
    (sprite_map : gmap text text) (filename : text)
    (gui_log_callback file_log_callback : bool) (st st' : state) (f : file) :
  fs st !! filename = Some f -> readable f = true ->
  replace_in_file filename sprite_map gui_log_callback file_log_callback st
  = (st', Raise (IOError filename)) ->
  file_events sprite_map filename f <> []
  /\ fs st' !! (filename ++ str ".bak")
     = Some (match fs st !! (filename ++ str ".bak") with
             | Some b => b
             | None => f
             end)
  /\ (forall k, k <> filename ++ str ".bak" -> fs st' !! k = fs st !! k)
  /\ gui_log st'
     = gui_log st
         ++ (if gui_log_callback
             then map fst (file_events sprite_map filename f) else [])
  /\ log_f st'
     = log_f st
         ++ (if file_log_callback
             then concat (map (fun e : event => fst e ++ [LF])
                            (file_events sprite_map filename f))
             else []).
Proof.
  intros Hf Hr. rewrite replace_in_file_spec, Hf, Hr. cbv zeta.
  destruct (file_changed sprite_map filename f) eqn:Hc; [|discriminate].
  destruct (writable f); [discriminate|].
  intros H. injection H as <-.
  cbn [fs with_fs gui_log log_f emit].
  repeat split.
  - apply lines_changed_events. exact Hc.
  - unfold with_backup, bak.
    destruct (fs st !! (filename ++ str ".bak")) as [b|] eqn:E;
      [exact E|apply lookup_insert_eq].
  - intros k Hk. now apply with_backup_other.
Qed.

Lemma X13_witness :
  let st := ex_files [(str "/p/a.gml",
                       File (str "sprite_index = 12;") true false)] in
  let st' := fst (replace_in_file (U := ascii_only) (str "/p/a.gml") ex_map
                    true true st) in
  file_events ex_map (str "/p/a.gml")
    (File (str "sprite_index = 12;") true false) <> []
  /\ fs st' !! (str "/p/a.gml" ++ str ".bak")
     = Some (File (str "sprite_index = 12;") true false)
  /\ (forall k, k <> str "/p/a.gml" ++ str ".bak" ->
        fs st' !! k = fs st !! k)
  /\ gui_log st'
     = [] ++ map fst (file_events ex_map (str "/p/a.gml")
                        (File (str "sprite_index = 12;") true false))
  /\ log_f st'
     = [] ++ concat (map (fun e : event => fst e ++ [LF])
                       (file_events ex_map (str "/p/a.gml")
                          (File (str "sprite_index = 12;") true false))).
Proof.
  apply (X13_write_fails_after_backup_and_log (U := ascii_only) ex_map
           (str "/p/a.gml") true true
           (ex_files [(str "/p/a.gml",
                       File (str "sprite_index = 12;") true false)])
           (fst (replace_in_file (U := ascii_only) (str "/p/a.gml") ex_map
                   true true
                   (ex_files [(str "/p/a.gml",
                               File (str "sprite_index = 12;") true false)])))
           (File (str "sprite_index = 12;") true false));
    now vm_compute.
Defined.

(** ** Paths *)

Section Paths.

Lemma basename_after (file root : text) :
  SLASH ∉ file ->
  (root = [] \/ exists q, root = q ++ [SLASH]) ->
  basename (root ++ file) = file.
Proof.
  intros Hf Hroot. unfold basename. rewrite rev_app_distr.
  assert (Hall : forallb (fun c => negb (c =? SLASH)) (rev file) = true).
  { apply forallb_forall. intros c Hc. apply in_rev, list_elem_of_In in Hc.
    apply negb_true_iff, N.eqb_neq. intros ->. contradiction. }
  assert (Hs : stops (fun c => negb (c =? SLASH)) (rev root)).
  { destruct Hroot as [->|[q ->]]; [exact I|].
    rewrite rev_app_distr. reflexivity. }
  destruct (run_app _ _ _ Hall Hs) as [-> _]. apply rev_involutive.
Qed.

Lemma basename_join (root file : text) :
  SLASH ∉ file -> basename (join root file) = file.
Proof.
  intros Hf. unfold join.
  destruct (startswith [SLASH] file) eqn:Es.
  - apply startswith_spec in Es as [t ->]. exfalso. apply Hf. set_solver.
  - destruct (text_eqb root [] || endswith [SLASH] root) eqn:Er.
    + apply basename_after; [assumption|].
      apply orb_true_iff in Er as [Er|Er].
      * left. now apply text_eqb_spec.
      * right. now apply endswith_spec.
    + change (root ++ SLASH :: file) with (root ++ [SLASH] ++ file).
      rewrite app_assoc. apply basename_after; eauto.
Qed.

End Paths.

(** X14: for a file the walk lists (a name without a slash), the base name
    of the path it is scanned under is the name itself, so a substitution
    line in the log starts with [[<name>:<line number>]]; the directory
    does not appear in it, and files of the same name in different
    directories are logged alike. *)
Theorem X14_log_lines_name_the_file {U : Unicode} (root file : text) :
  SLASH ∉ file ->
  basename (join root file) = file
  /\ (forall idx orig_line new_line,
        message (join root file) idx orig_line new_line
        = str "[" ++ file ++ str ":" ++ str_of_nat idx ++ str "] "
            ++ strip orig_line ++ [SPACE; ARROW; SPACE] ++ new_line)
  /\ (forall root' sprite_map idx line,
        map fst (snd (sub_line sprite_map (join root' file) idx line))
        = map fst (snd (sub_line sprite_map (join root file) idx line))).
Proof.
  intros Hf. pose proof (basename_join root file Hf) as Hb.
  split; [exact Hb|]. split.
  - intros idx orig_line new_line. unfold message. now rewrite Hb.
  - intros root' sprite_map idx line.
    pose proof (basename_join root' file Hf) as Hb'.
    assert (Hre : forall filename filename' var idx orig_line s,
              basename filename = basename filename' ->
              re_sub sprite_map filename var idx orig_line s
              = re_sub sprite_map filename' var idx orig_line s).
    { intros fn fn' var i o s Hbb.
      induction s as [|c s Hno IH|s v num rest Hm IH] using (re_sub_ind var).
      - reflexivity.
      - now rewrite !re_sub_nomatch, IH.
      - rewrite !(re_sub_match _ _ _ _ _ _ _ _ _ Hm), IH.
        unfold repl. now rewrite Hbb. }
    unfold sub_line, SPRITE_VARS. cbn [sub_vars].
    rewrite (Hre (join root' file) (join root file)) by congruence.
    destruct (re_sub sprite_map (join root file) SpriteIndex idx line line)
      as [l1 e1].
    rewrite (Hre (join root' file) (join root file)) by congruence.
    reflexivity.
Qed.

Lemma X14_witness :
  basename (join (str "/p/objects/obj_player") (str "Create_0.gml"))
  = str "Create_0.gml"
  /\ (forall idx orig_line new_line,
        message (U := ascii_only)
          (join (str "/p/objects/obj_player") (str "Create_0.gml"))
          idx orig_line new_line
        = str "[" ++ str "Create_0.gml" ++ str ":" ++ str_of_nat idx
            ++ str "] " ++ strip orig_line ++ [SPACE; ARROW; SPACE]
            ++ new_line)
  /\ (forall root' sprite_map idx line,
        map fst (snd (sub_line (U := ascii_only) sprite_map
                        (join root' (str "Create_0.gml")) idx line))
        = map fst (snd (sub_line sprite_map
                          (join (str "/p/objects/obj_player")
                             (str "Create_0.gml")) idx line))).
Proof.
  apply (X14_log_lines_name_the_file (U := ascii_only)
           (str "/p/objects/obj_player") (str "Create_0.gml")).
  vm_compute. set_solver.
Defined.

(** ** [backup_file] *)

(** ** The window *)

Section Window.
Import SpriteReplacerGUI.

Lemma printed_app (l1 l2 : list text) :
  printed (l1 ++ l2) = printed l1 ++ printed l2.
Proof. unfold printed. now rewrite map_app, concat_app. Qed.

Lemma fold_log (msgs : list text) (self : window) :
  fold_left (fun w msg => log msg w) msgs self
  = Window (project_dir self) (mapping_file self) (status self)
      (match msgs with
       | [] => output self
       | _ => Scrolled false (shown (output self) ++ printed msgs)
       end)
      (boxes self).
Proof.
  revert self. induction msgs as [|msg msgs IH]; intros self;
    [now destruct self|].
  cbn [fold_left]. rewrite IH. unfold log at 2 3 4 5.
  cbn [project_dir mapping_file status output boxes]. f_equal.
  unfold config_state, insert_end. cbn [normal shown].
  destruct msgs as [|m' msgs].
  - cbn. now rewrite app_nil_r.
  - cbn [shown]. f_equal. unfold printed. cbn [map concat].
    now rewrite <- !app_assoc.
Qed.

Lemma fold_set_status (msgs : list text) (self : window) :
  fold_left (fun w msg => set_status msg w) msgs self
  = Window (project_dir self) (mapping_file self)
      (match last msgs with
       | Some msg => str "Status: " ++ msg
       | None => status self
       end)
      (output self) (boxes self).
Proof.
  revert self. induction msgs as [|msg msgs IH]; intros self;
    [now destruct self|].
  cbn [fold_left]. rewrite IH.
  cbn [set_status project_dir mapping_file status output boxes].
  f_equal. destruct msgs as [|m' msgs]; [reflexivity|].
  rewrite last_cons_cons.
  destruct (last (m' :: msgs)) eqn:E; [reflexivity|].
  apply last_None in E. discriminate.
Qed.

Lemma called_spec (st : state) (self : window) :
  called st self
  = Window (project_dir self) (mapping_file self)
      (match last (status_log st) with
       | Some msg => str "Status: " ++ msg
       | None => status self
       end)
      (match gui_log st with
       | [] => output self
       | _ => Scrolled false (shown (output self) ++ printed (gui_log st))
       end)
      (boxes self).
Proof. unfold called. now rewrite fold_set_status, fold_log. Qed.

End Window.

Section Handler.
Import SpriteReplacerGUI.
Context {U : Unicode}.

Lemma log_on_disabled (msgs : list text) (o : scrolled) :
  normal o = false ->
  match msgs with
  | [] => o
  | _ => Scrolled false (shown o ++ printed msgs)
  end
  = Scrolled false (shown o ++ printed msgs).
Proof.
  intros H. destruct msgs; [|reflexivity].
  destruct o as [b t]. cbn in *. subst b. now rewrite app_nil_r.
Qed.

Lemma isfile_can_read (path : text) (m : gmap text file) :
  can_read m path = true -> isfile path m = true.
Proof.
  unfold can_read, isfile. destruct (m !! path); [|discriminate].
  intros _. apply bool_decide_eq_true_2. eauto.
Qed.

End Handler.

(** X16: the window after the button started a run that completed.  The
    output widget holds the messages of this run and nothing of what it
    held before: for each eligible file of the walk the line
    [Checking: <path>] and then a line for each substitution accepted in
    it, and last the summary; the widget is left disabled, the status
    reads [Status: Ready], and no error box is shown. *)
Theorem X16_window_after_a_run {U : Unicode}
    (sprite_map : gmap text text) (argv0 : text) (tree : dir)
    (exn_text : exn -> text) (self : SpriteReplacerGUI.window)
    (m : gmap text file) (st' : state) (replaced_files : list text)
    (all_replacements : list file_replacement) (log_path : text) :
  NoDup (walk_paths (os_walk (SpriteReplacerGUI.project_dir self) tree)) ->
  load_sprite_map (SpriteReplacerGUI.mapping_file self) (State m [] [] [])
  = (State m [] [] [], Ok sprite_map) ->
  scan_and_replace argv0 tree (SpriteReplacerGUI.project_dir self)
    (SpriteReplacerGUI.mapping_file self) true true (State m [] [] [])
  = (st', Ok (replaced_files, all_replacements, log_path)) ->
  SpriteReplacerGUI.run_replacement_thread argv0 (Some tree) exn_text self m
  = (SpriteReplacerGUI.Window
       (SpriteReplacerGUI.project_dir self)
       (SpriteReplacerGUI.mapping_file self)
       (str "Status: Ready")
       (SpriteReplacerGUI.Scrolled false
          (printed
             (flat_map
                (fun p => (str "Checking: " ++ p)
                            :: map fst (events_at sprite_map m p))
                (walk_paths
                   (os_walk (SpriteReplacerGUI.project_dir self) tree))
                ++ [summary replaced_files log_path])))
       (SpriteReplacerGUI.boxes self),
     fs st').
Proof.
  intros Hnd Hload Hrun.
  destruct (run_feed sprite_map argv0 tree _ _ true true _ _ _ _ _
              Hnd Hload Hrun) as [Hs Hg].
  cbn [gui_log status_log app fs] in Hs, Hg.
  assert (Hfile : SpriteReplacerGUI.isfile
                    (SpriteReplacerGUI.mapping_file self) m = true).
  { apply isfile_can_read. rewrite load_sprite_map_cases in Hload.
    cbn [fs] in Hload.
    destruct (can_read m (SpriteReplacerGUI.mapping_file self));
      [reflexivity|discriminate]. }
  unfold SpriteReplacerGUI.run_replacement_thread,
    SpriteReplacerGUI.run_replacement.
  cbn [SpriteReplacerGUI.set_status SpriteReplacerGUI.project_dir
       SpriteReplacerGUI.mapping_file].
  rewrite Hfile. cbn [negb]. rewrite Hrun, called_spec.
  cbn [SpriteReplacerGUI.set_status SpriteReplacerGUI.project_dir
       SpriteReplacerGUI.mapping_file SpriteReplacerGUI.output
       SpriteReplacerGUI.boxes SpriteReplacerGUI.status].
  rewrite log_on_disabled by reflexivity.
  rewrite Hg. unfold feed, checking.
  unfold SpriteReplacerGUI.delete_all, SpriteReplacerGUI.config_state.
  cbn [SpriteReplacerGUI.normal SpriteReplacerGUI.shown app].
  reflexivity.
Qed.

Lemma X16_witness :
  SpriteReplacerGUI.run_replacement_thread (U := ascii_only)
    (str "/tool/gui.py") (Some (Dir [str "a.gml"; str "b.gml"] []))
    (fun _ => str "error")
    (SpriteReplacerGUI.Window (str "/p") (str "/m/map.txt")
       (str "Status: Ready")
       (SpriteReplacerGUI.Scrolled false (str "old output")) [])
    (fs (ex_project [(str "/p/a.gml", str "sprite_index = 12;");
                     (str "/p/b.gml", str "x = 12;")]))
  = (SpriteReplacerGUI.Window (str "/p") (str "/m/map.txt")
       (str "Status: Ready")
       (SpriteReplacerGUI.Scrolled false
          (str "Checking: /p/a.gml" ++ [LF]
             ++ str "[a.gml:1] sprite_index = 12; " ++ [ARROW]
             ++ str " sprite_index = spr_player_idle;" ++ [LF]
             ++ str "Checking: /p/b.gml" ++ [LF; LF]
             ++ str "Replacements done in 1 files." ++ [LF]
             ++ str "Log saved to /tool/spritereplacement_log.txt"
             ++ [LF; LF]))
       [],
     fs (fst (scan_and_replace (U := ascii_only) (str "/tool/gui.py")
                (Dir [str "a.gml"; str "b.gml"] []) (str "/p")
                (str "/m/map.txt") true true
                (ex_project [(str "/p/a.gml", str "sprite_index = 12;");
                             (str "/p/b.gml", str "x = 12;")])))).
Proof.
  apply (X16_window_after_a_run (U := ascii_only) ex_map (str "/tool/gui.py")
           (Dir [str "a.gml"; str "b.gml"] []) (fun _ => str "error")
           (SpriteReplacerGUI.Window (str "/p") (str "/m/map.txt")
              (str "Status: Ready")
              (SpriteReplacerGUI.Scrolled false (str "old output")) [])
           (fs (ex_project [(str "/p/a.gml", str "sprite_index = 12;");
                            (str "/p/b.gml", str "x = 12;")]))
           (fst (scan_and_replace (U := ascii_only) (str "/tool/gui.py")
                   (Dir [str "a.gml"; str "b.gml"] []) (str "/p")
                   (str "/m/map.txt") true true
                   (ex_project [(str "/p/a.gml", str "sprite_index = 12;");
                                (str "/p/b.gml", str "x = 12;")])))
           [str "/p/a.gml"]
           [(str "/p/a.gml", str "sprite_index = 12;",
             str "sprite_index = spr_player_idle;", 1%nat)]
           (str "/tool/spritereplacement_log.txt")).
  - vm_compute. repeat constructor; set_solver.
  - reflexivity.
  - now vm_compute.
Defined.

(** X17: what the button does in every case.  When its run is over the
    status reads [Status: Ready], the output widget is disabled and holds
    the messages of this run only, and the two fields are as they were.
    When the folder field names no directory, or else the mapping field no
    file, nothing is run: the files are as they were, the output is empty,
    and one error box asks for a valid folder, or else a valid mapping
    file.  Otherwise [scan_and_replace] runs with both callbacks; if it
    returns, no box is shown; if it raises, the exception goes no further:
    one error box shows its text, and the files are as the run left
    them. *)
Theorem X17_what_the_button_does {U : Unicode}
    (argv0 : text) (tree : option dir) (exn_text : exn -> text)
    (self : SpriteReplacerGUI.window) (m : gmap text file) :
  let r := SpriteReplacerGUI.run_replacement_thread argv0 tree exn_text
             self m in
  SpriteReplacerGUI.status (fst r) = str "Status: Ready"
  /\ SpriteReplacerGUI.normal (SpriteReplacerGUI.output (fst r)) = false
  /\ SpriteReplacerGUI.project_dir (fst r) = SpriteReplacerGUI.project_dir self
  /\ SpriteReplacerGUI.mapping_file (fst r)
     = SpriteReplacerGUI.mapping_file self
  /\ match tree with
     | None =>
         snd r = m
         /\ SpriteReplacerGUI.shown (SpriteReplacerGUI.output (fst r)) = []
         /\ SpriteReplacerGUI.boxes (fst r)
            = SpriteReplacerGUI.boxes self
                ++ [(str "Error",
                     str "Please select a valid GameMaker project folder.")]
     | Some d =>
         if SpriteReplacerGUI.isfile (SpriteReplacerGUI.mapping_file self) m
         then
           let run :=
             scan_and_replace argv0 d (SpriteReplacerGUI.project_dir self)
               (SpriteReplacerGUI.mapping_file self) true true
               (State m [] [] []) in
           snd r = fs (fst run)
           /\ SpriteReplacerGUI.shown (SpriteReplacerGUI.output (fst r))
              = printed (gui_log (fst run))
           /\ SpriteReplacerGUI.boxes (fst r)
              = SpriteReplacerGUI.boxes self
                  ++ match snd run with
                     | Ok _ => []
                     | Raise e =>
                         [(str "Error",
                           str "An error occurred:" ++ [LF] ++ exn_text e)]
                     end
         else
           snd r = m
           /\ SpriteReplacerGUI.shown (SpriteReplacerGUI.output (fst r)) = []
           /\ SpriteReplacerGUI.boxes (fst r)
              = SpriteReplacerGUI.boxes self
                  ++ [(str "Error", str "Please select a valid mapping file.")]
     end.
Proof.
  intros r. unfold r, SpriteReplacerGUI.run_replacement_thread,
    SpriteReplacerGUI.run_replacement.
  cbn [SpriteReplacerGUI.set_status SpriteReplacerGUI.project_dir
       SpriteReplacerGUI.mapping_file].
  assert (Hclear : forall o,
            SpriteReplacerGUI.config_state false
              (SpriteReplacerGUI.delete_all
                 (SpriteReplacerGUI.config_state true o))
            = SpriteReplacerGUI.Scrolled false []) by reflexivity.
  rewrite Hclear.
  destruct tree as [d|]; [|cbn; auto 10].
  destruct (SpriteReplacerGUI.isfile (SpriteReplacerGUI.mapping_file self) m);
    [|cbn; auto 10].
  cbn [negb]. cbv zeta.
  destruct (scan_and_replace argv0 d _ _ true true (State m [] [] []))
    as [st res].
  rewrite called_spec.
  cbn [SpriteReplacerGUI.project_dir SpriteReplacerGUI.mapping_file
       SpriteReplacerGUI.output SpriteReplacerGUI.boxes
       SpriteReplacerGUI.status].
  rewrite log_on_disabled by reflexivity.
  destruct res as [res|e]; cbn; rewrite ?app_nil_r; auto 10.
Qed.

(** ** The flag and the records of a file *)

Section FlagAndRecords.
Context {U : Unicode}.
Variable sprite_map : gmap text text.
Variable filename : text.

Lemma new_lines_same idx (ls : list text) :
  new_lines_of sprite_map filename idx ls = ls ->
  lines_changed sprite_map filename idx ls = false.
Proof.
  revert idx. induction ls as [|l ls IH]; intros idx H; [reflexivity|].
  cbn [new_lines_of lines_changed] in *. injection H as Hl Hls.
  now rewrite Hl, text_eqb_refl, IH.
Qed.

Lemma sub_line_idx idx (line : text) e :
  e ∈ snd (sub_line sprite_map filename idx line) -> snd (snd e) = idx.
Proof.
  intros H. apply sub_vars_events in H as (v & num & value & _ & ->).
  reflexivity.
Qed.

Lemma line_events_from idx (lines : list text) e :
  e ∈ line_events sprite_map filename idx lines -> (idx <= snd (snd e))%nat.
Proof.
  revert idx. induction lines as [|l ls IH]; intros idx H; [inversion H|].
  cbn [line_events] in H. apply elem_of_app in H as [H|H].
  - apply sub_line_idx in H. lia.
  - apply IH in H. lia.
Qed.

Lemma line_events_ordered idx (lines : list text) i j e1 e2 :
  line_events sprite_map filename idx lines !! i = Some e1 ->
  line_events sprite_map filename idx lines !! j = Some e2 ->
  (i <= j)%nat -> (snd (snd e1) <= snd (snd e2))%nat.
Proof.
  revert idx i j. induction lines as [|l ls IH]; intros idx i j H1 H2 Hij;
    [discriminate|].
  cbn [line_events] in H1, H2.
  apply lookup_app_Some in H1 as [H1|[Hi H1]];
    apply lookup_app_Some in H2 as [H2|[Hj H2]].
  - apply list_elem_of_lookup_2, sub_line_idx in H1.
    apply list_elem_of_lookup_2, sub_line_idx in H2. lia.
  - apply list_elem_of_lookup_2, sub_line_idx in H1.
    apply list_elem_of_lookup_2, line_events_from in H2. lia.
  - apply lookup_lt_Some in H2. lia.
  - eapply IH; eauto. lia.
Qed.

End FlagAndRecords.

(** X18: the flag [replace_in_file] returns tells whether the file's text
    changed.  With a mapping loaded from a file: when it returns [True]
    the text of the file differs from the text it had, and when it returns
    [False] the file system is as it was. *)
Theorem X18_changed_flag_is_right {U : Unicode}
    (mapping_file filename : text) (st0 st0' st st' : state)
    (sprite_map : gmap text text)
    (gui_log_callback file_log_callback : bool) (f : file)
    (changed : bool) (replacements : list replacement) :
  load_sprite_map mapping_file st0 = (st0', Ok sprite_map) ->
  fs st !! filename = Some f ->
  replace_in_file filename sprite_map gui_log_callback file_log_callback st
  = (st', Ok (changed, replacements)) ->
  if changed
  then exists f', fs st' !! filename = Some f' /\ content f' <> content f
  else fs st' = fs st.
Proof.
  intros Hload Hf.
  pose proof (loaded_line_break_free _ _ _ _ Hload) as Hfree.
  rewrite replace_in_file_spec, Hf. cbv zeta.
  destruct (readable f); [|discriminate].
  destruct (file_changed sprite_map filename f) eqn:Hc.
  - destruct (writable f); [|discriminate].
    intros H. injection H as <- <- <-. cbn [fs with_fs].
    rewrite lookup_insert_eq. eexists. split; [reflexivity|].
    cbn [content]. intros E.
    pose proof (rewritten_lines sprite_map filename Hfree f true true) as Hl.
    unfold file_lines at 1 in Hl. cbn [content] in Hl. rewrite E in Hl.
    fold (file_lines f) in Hl. symmetry in Hl.
    apply new_lines_same in Hl. unfold file_changed in Hc. congruence.
  - intros H. injection H as <- <- <-. reflexivity.
Qed.

Lemma X18_witness :
  exists f',
    fs (fst (replace_in_file (U := ascii_only) (str "/p/a.gml") ex_map
               true true
               (ex_state [(str "/p/a.gml", str "sprite_index = 12;")])))
      !! str "/p/a.gml" = Some f'
    /\ content f' <> content (File (str "sprite_index = 12;") true true).
Proof.
  apply (X18_changed_flag_is_right (U := ascii_only) (str "/m/map.txt")
           (str "/p/a.gml") (ex_project []) (ex_project [])
           (ex_state [(str "/p/a.gml", str "sprite_index = 12;")])
           (fst (replace_in_file (U := ascii_only) (str "/p/a.gml") ex_map
                   true true
                   (ex_state [(str "/p/a.gml", str "sprite_index = 12;")])))
           ex_map true true (File (str "sprite_index = 12;") true true)
           true
           [(str "sprite_index = 12;", str "sprite_index = spr_player_idle;",
             1%nat)]).
  - reflexivity.
  - reflexivity.
  - now vm_compute.
Defined.

(** X19: the records [replace_in_file] returns are in the order of the
    lines: a record never has a smaller line number than one before it in
    the list. *)
Theorem X19_records_follow_the_lines {U : Unicode}
    (sprite_map : gmap text text) (filename : text)
    (gui_log_callback file_log_callback : bool) (st st' : state)
    (changed : bool) (replacements : list replacement)
    (i j : nat) (r1 r2 : replacement) :
  replace_in_file filename sprite_map gui_log_callback file_log_callback st
  = (st', Ok (changed, replacements)) ->
  replacements !! i = Some r1 -> replacements !! j = Some r2 ->
  (i <= j)%nat ->
  (snd r1 <= snd r2)%nat.
Proof.
  rewrite replace_in_file_spec.
  destruct (fs st !! filename) as [f|]; [|discriminate]. cbv zeta.
  destruct (readable f); [|discriminate].
  assert (H : replacements = map snd (file_events sprite_map filename f) ->
              replacements !! i = Some r1 -> replacements !! j = Some r2 ->
              (i <= j)%nat -> (snd r1 <= snd r2)%nat).
  { intros -> H1 H2 Hij. rewrite list_lookup_fmap in H1, H2.
    destruct (file_events sprite_map filename f !! i) as [e1|] eqn:E1;
      [|discriminate].
    destruct (file_events sprite_map filename f !! j) as [e2|] eqn:E2;
      [|discriminate].
    injection H1 as <-. injection H2 as <-.
    exact (line_events_ordered sprite_map filename 1 (file_lines f)
             i j e1 e2 E1 E2 Hij). }
  destruct (file_changed sprite_map filename f).
  - destruct (writable f); [|discriminate].
    intros E. injection E as _ _ E. auto.
  - intros E. injection E as _ _ E. auto.
Qed.

Lemma X19_witness :
  (snd (str "sprite_index = 12;" ++ [LF],
        str "sprite_index = spr_player_idle;", 1%nat)
   <= snd (str "my_spr = 12;", str "my_spr = spr_player_idle;", 2%nat))%nat.
Proof.
  apply (X19_records_follow_the_lines (U := ascii_only) ex_map
           (str "/p/a.gml") true true
           (ex_state [(str "/p/a.gml",
                       str "sprite_index = 12;" ++ [LF]
                         ++ str "my_spr = 12;")])
           (fst (replace_in_file (U := ascii_only) (str "/p/a.gml") ex_map
                   true true
                   (ex_state [(str "/p/a.gml",
                               str "sprite_index = 12;" ++ [LF]
                                 ++ str "my_spr = 12;")])))
           true
           [(str "sprite_index = 12;" ++ [LF],
             str "sprite_index = spr_player_idle;", 1%nat);
            (str "my_spr = 12;", str "my_spr = spr_player_idle;", 2%nat)]
           0 1
           (str "sprite_index = 12;" ++ [LF],
            str "sprite_index = spr_player_idle;", 1%nat)
           (str "my_spr = 12;", str "my_spr = spr_player_idle;", 2%nat)).
  - now vm_compute.
  - reflexivity.
  - reflexivity.
  - lia.
Defined.

(** ** The walk lists a path once *)

Section WalkOnce.

Lemma dir_nested_ind (P : dir -> Prop) :
  (forall files subdirs,
     Forall (fun nd : text * dir => P (snd nd)) subdirs ->
     P (Dir files subdirs)) ->
  forall d, P d.
Proof.
  intros H. fix IH 1. intros [files subdirs]. apply H.
  refine ((fix aux (l : list (text * dir))
             : Forall (fun nd : text * dir => P (snd nd)) l :=
             match l with
             | [] => List.Forall_nil _
             | nd :: l' => List.Forall_cons _ nd l' (IH (snd nd)) (aux l')
             end) subdirs).
Qed.

Lemma listed_unfold (files : list text) (subdirs : list (text * dir)) :
  listed (Dir files subdirs)
  <-> NoDup files /\ NoDup (map fst subdirs)
      /\ (forall name,
            name ∈ files ++ map fst subdirs -> name <> [] /\ SLASH ∉ name)
      /\ Forall (fun nd : text * dir => listed (snd nd)) subdirs.
Proof.
  cbn [listed].
  assert (H : (fix all (l : list (text * dir)) : Prop :=
                 match l with
                 | [] => True
                 | (_, d') :: l' => listed d' /\ all l'
                 end) subdirs
              <-> Forall (fun nd : text * dir => listed (snd nd)) subdirs).
  { induction subdirs as [|[name d'] l IH].
    - split; [constructor|auto].
    - rewrite Forall_cons, <- IH. reflexivity. }
  rewrite H. reflexivity.
Qed.

Lemma os_walk_unfold (top : text) (files : list text)
    (subdirs : list (text * dir)) :
  os_walk top (Dir files subdirs)
  = (top, map fst subdirs, files)
      :: flat_map (fun nd : text * dir => os_walk (join top (fst nd)) (snd nd))
           subdirs.
Proof.
  cbn [os_walk]. f_equal.
  induction subdirs as [|[name d'] l IH]; [reflexivity|].
  cbn [flat_map fst snd]. now rewrite IH.
Qed.

Lemma walk_paths_app (a b : list (text * list text * list text)) :
  walk_paths (a ++ b) = walk_paths a ++ walk_paths b.
Proof. unfold walk_paths. now rewrite map_app, concat_app. Qed.

Lemma join_before (a name : text) :
  SLASH ∉ name -> join a name = joined_before a ++ name.
Proof.
  intros H. unfold join, joined_before.
  destruct (startswith [SLASH] name) eqn:E.
  - apply startswith_spec in E as [t ->]. exfalso. apply H. set_solver.
  - destruct (text_eqb a [] || endswith [SLASH] a); [reflexivity|].
    now rewrite <- app_assoc.
Qed.

Lemma joined_before_join (a name : text) :
  name <> [] -> SLASH ∉ name ->
  joined_before (join a name) = joined_before a ++ name ++ [SLASH].
Proof.
  intros Hne H. rewrite join_before by assumption.
  unfold joined_before at 1.
  destruct (exists_last Hne) as (n' & c & ->).
  assert (Hc : c <> SLASH) by (intros ->; apply H; set_solver).
  replace (text_eqb (joined_before a ++ n' ++ [c]) []) with false
    by (destruct (joined_before a); [destruct n'|]; reflexivity).
  destruct (endswith [SLASH] (joined_before a ++ n' ++ [c])) eqn:E.
  - apply endswith_spec in E as [q E]. rewrite !app_assoc in E.
    apply app_inj_tail in E as [_ E]. contradiction.
  - cbn [orb]. now rewrite <- !app_assoc.
Qed.

Lemma eligible_paths_elem (root : text) (files : list text) p :
  p ∈ eligible_paths root files -> exists f, f ∈ files /\ p = join root f.
Proof.
  induction files as [|f fs IH]; [inversion 1|]. cbn [eligible_paths].
  destruct (eligible f).
  - intros H. apply elem_of_cons in H as [->|H]; [exists f; split; [left|auto]|].
    destruct (IH H) as (g & Hg & ->). exists g. split; [now right|auto].
  - intros H. destruct (IH H) as (g & Hg & ->). exists g.
    split; [now right|auto].
Qed.

Lemma eligible_paths_once (root : text) (files : list text) :
  NoDup files -> (forall f, f ∈ files -> SLASH ∉ f) ->
  NoDup (eligible_paths root files).
Proof.
  induction 1 as [|f fs Hf Hfs IH]; intros Hn; [constructor|].
  cbn [eligible_paths].
  assert (IH' : NoDup (eligible_paths root fs))
    by (apply IH; intros g Hg; apply Hn; now right).
  destruct (eligible f); [|assumption].
  constructor; [|assumption]. intros H.
  apply eligible_paths_elem in H as (g & Hg & E).
  rewrite !join_before in E by (apply Hn; set_solver).
  apply app_inv_head in E. congruence.
Qed.

Lemma first_slash (a b a' b' : text) :
  SLASH ∉ a -> SLASH ∉ a' -> a ++ SLASH :: b = a' ++ SLASH :: b' -> a = a'.
Proof.
  revert a'. induction a as [|c a IH]; intros a' Ha Ha' E.
  - destruct a' as [|c' a']; [reflexivity|]. cbn in E. injection E as <- _.
    exfalso. apply Ha'. set_solver.
  - destruct a' as [|c' a']; cbn in E.
    + injection E as -> _. exfalso. apply Ha. set_solver.
    + injection E as -> E. f_equal.
      apply (IH a'); [set_solver|set_solver|assumption].
Qed.

Lemma walk_flat_map_elem (g : text * dir -> list (text * list text * list text))
    (l : list (text * dir)) p :
  p ∈ walk_paths (flat_map g l) ->
  exists nd, nd ∈ l /\ p ∈ walk_paths (g nd).
Proof.
  induction l as [|nd l IH]; [inversion 1|]. cbn [flat_map].
  rewrite walk_paths_app. intros H. apply elem_of_app in H as [H|H].
  - exists nd. split; [left|assumption].
  - destruct (IH H) as (x & Hx & Hp). exists x. split; [now right|assumption].
Qed.

(** Every path of the walk of [d] at [top] starts with what [join] puts
    before the names of [top]. *)
Lemma walk_paths_under (d : dir) :
  forall top p,
    listed d -> p ∈ walk_paths (os_walk top d) ->
    exists rel, p = joined_before top ++ rel.
Proof.
  induction d as [files subdirs IH] using dir_nested_ind.
  intros top p Hl Hp. apply listed_unfold in Hl as (_ & _ & Hn & Hsub).
  rewrite os_walk_unfold in Hp.
  change (walk_paths ((top, map fst subdirs, files) :: ?l))
    with (eligible_paths top files ++ walk_paths l) in Hp.
  apply elem_of_app in Hp as [Hp|Hp].
  - apply eligible_paths_elem in Hp as (f & Hf & ->).
    exists f. apply join_before. apply Hn. set_solver.
  - apply walk_flat_map_elem in Hp as ([name d'] & Hnd & Hp).
    cbn [fst snd] in Hp.
    rewrite Forall_forall in IH, Hsub.
    destruct (IH _ Hnd (join top name) p (Hsub _ Hnd) Hp) as [rel ->].
    assert (Hname : name <> [] /\ SLASH ∉ name).
    { apply Hn. apply elem_of_app. right.
      apply (list_elem_of_fmap_2 fst) in Hnd. exact Hnd. }
    rewrite joined_before_join by tauto.
    exists (name ++ [SLASH] ++ rel). now rewrite <- !app_assoc.
Qed.

Lemma walk_paths_below (d : dir) (top name : text) p :
  listed d -> name <> [] -> SLASH ∉ name ->
  p ∈ walk_paths (os_walk (join top name) d) ->
  exists rel, p = joined_before top ++ name ++ SLASH :: rel.
Proof.
  intros Hl Hne Hn Hp.
  destruct (walk_paths_under d _ p Hl Hp) as [rel ->].
  rewrite joined_before_join by assumption.
  exists rel. now rewrite <- !app_assoc.
Qed.

Lemma walk_paths_once (d : dir) :
  forall top, listed d -> NoDup (walk_paths (os_walk top d)).
Proof.
  induction d as [files subdirs IH] using dir_nested_ind.
  intros top Hl. apply listed_unfold in Hl as (Hf & Hd & Hn & Hsub).
  rewrite os_walk_unfold.
  change (walk_paths ((top, map fst subdirs, files) :: ?l))
    with (eligible_paths top files ++ walk_paths l).
  assert (Hnames : forall nd, nd ∈ subdirs ->
            fst nd <> [] /\ SLASH ∉ fst nd).
  { intros nd Hnd. apply Hn. apply elem_of_app. right.
    now apply (list_elem_of_fmap_2 fst). }
  assert (Hfiles : forall f, f ∈ files -> SLASH ∉ f)
    by (intros f Hin; apply Hn; set_solver).
  clear Hn. apply NoDup_app. split; [|split].
  - now apply eligible_paths_once.
  - intros p Hp Hq.
    apply eligible_paths_elem in Hp as (f & Hin & ->).
    apply walk_flat_map_elem in Hq as ([name d'] & Hnd & Hq).
    cbn [fst snd] in Hq. rewrite Forall_forall in Hsub.
    destruct (Hnames _ Hnd) as [Hne Hns]. cbn [fst] in Hne, Hns.
    apply walk_paths_below in Hq as [rel E];
      [|exact (Hsub _ Hnd)|assumption|assumption].
    rewrite join_before in E by auto. apply app_inv_head in E.
    apply (Hfiles f Hin). rewrite E. set_solver.
  - clear Hf Hfiles.
    induction subdirs as [|[name d'] l IHl]; [constructor|].
    cbn [flat_map fst snd]. rewrite walk_paths_app.
    apply Forall_cons in IH as [IHd IH].
    apply Forall_cons in Hsub as [Hd' Hsub].
    cbn [map fst] in Hd. apply NoDup_cons in Hd as [Hname Hd].
    cbn [snd] in IHd, Hd'.
    destruct (Hnames (name, d') ltac:(left)) as [Hne Hns].
    cbn [fst] in Hne, Hns.
    apply NoDup_app. split; [|split].
    + now apply IHd.
    + intros p Hp Hq.
      apply walk_paths_below in Hp as [rel E]; [|assumption..].
      apply walk_flat_map_elem in Hq as ([name' d''] & Hnd & Hq).
      cbn [fst snd] in Hq. rewrite Forall_forall in Hsub.
      destruct (Hnames (name', d'') ltac:(now right)) as [Hne' Hns'].
      cbn [fst] in Hne', Hns'.
      apply walk_paths_below in Hq as [rel' E'];
        [|exact (Hsub _ Hnd)|assumption|assumption].
      rewrite E in E'. apply app_inv_head in E'.
      apply first_slash in E'; [|assumption..]. subst name'.
      apply Hname. now apply (list_elem_of_fmap_2 fst) in Hnd.
    + apply IHl; [assumption..|].
      intros nd Hnd. apply Hnames. now right.
Qed.

End WalkOnce.

(** X20: over a directory whose listings name each entry once, with names
    that are not empty and hold no slash, the walk gives every eligible
    file one path and no path twice: each file is scanned once in a
    run. *)
Theorem X20_walk_lists_a_path_once (project_dir : text) (tree : dir) :
  listed tree -> NoDup (walk_paths (os_walk project_dir tree)).
Proof.
  intros H. destruct tree as [files subdirs].
  apply walk_paths_once. exact H.
Qed.

Lemma X20_witness :
  NoDup (walk_paths
           (os_walk (str "/p")
              (Dir [str "a.gml"; str "notes.txt"]
                 [(str "objects", Dir [str "a.gml"; str "b.yy"] []);
                  (str "rooms", Dir [str "a.gml"] [])]))).
Proof.
  apply X20_walk_lists_a_path_once. cbn [listed map fst app].
  assert (Hno : forall (x : N) (l : text),
            forallb (fun c => negb (c =? x)) l = true -> x ∉ l).
  { intros x l Hl Hx. rewrite forallb_forall in Hl.
    apply list_elem_of_In, Hl in Hx. now rewrite N.eqb_refl in Hx. }
  assert (Hnd : forall l : list text,
            (fix nodup (l : list text) : bool :=
               match l with
               | [] => true
               | x :: l' => forallb (fun y => negb (text_eqb x y)) l'
                            && nodup l'
               end) l = true -> NoDup l).
  { induction l as [|x l IH]; [constructor|]. intros H.
    apply andb_true_iff in H as [Hx Hl]. constructor; [|auto].
    intros Hin. rewrite forallb_forall in Hx.
    apply list_elem_of_In, Hx in Hin. now rewrite text_eqb_refl in Hin. }
  assert (Hall : forall l : list text,
            forallb (fun name => negb (text_eqb name [])
                                 && forallb (fun c => negb (c =? SLASH)) name)
              l = true ->
            forall name, name ∈ l -> name <> [] /\ SLASH ∉ name).
  { intros l Hl name Hin. rewrite forallb_forall in Hl.
    apply list_elem_of_In, Hl, andb_true_iff in Hin as [H1 H2].
    split; [intros ->; discriminate|now apply Hno]. }
  split; [now apply Hnd|]. split; [now apply Hnd|].
  split; [now apply Hall|].
  split; [|split; [|exact I]].
  - split; [now apply Hnd|]. split; [now apply Hnd|].
    split; [now apply Hall|exact I].
  - split; [now apply Hnd|]. split; [now apply Hnd|].
    split; [now apply Hall|exact I].
Defined.

(** ** The session log of a run that raises *)

Section LogClosed.
Context {U : Unicode}.
Variable sprite_map : gmap text text.
Variables gui_log_callback status_callback : bool.

Local Abbreviation step :=
  (scan_path sprite_map gui_log_callback status_callback).

Lemma log_lines_app (ev1 ev2 : list event) :
  log_lines (ev1 ++ ev2) = log_lines ev1 ++ log_lines ev2.
Proof. unfold log_lines. now rewrite map_app, concat_app. Qed.

Lemma fold_keeps_path (paths : list text) acc (st : state) (k : text) :
  (forall q, q ∈ paths -> k <> q /\ k <> bak q) ->
  fs (fst (foldM step acc paths st)) !! k = fs st !! k.
Proof.
  intros H.
  apply (foldM_state_inv step (fun s => fs s !! k = fs st !! k));
    [|reflexivity].
  intros a q s Hq Hs. rewrite scan_path_fs.
  destruct (H q Hq). now rewrite fs_step_other.
Qed.

Lemma scan_path_raised acc (p : text) (st st' : state) e :
  step acc p st = (st', Raise e) ->
  log_f st'
  = log_f st
      ++ log_lines (if can_read (fs st) p
                    then events_at sprite_map (fs st) p else []).
Proof.
  unfold can_read, events_at. rewrite scan_path_spec. cbv zeta.
  destruct (fs st !! p) as [f|];
    [|intros H; injection H as <- _; cbn; now rewrite app_nil_r].
  destruct (readable f);
    [|intros H; injection H as <- _; cbn; now rewrite app_nil_r].
  destruct (file_changed sprite_map p f); [|discriminate].
  destruct (writable f); [discriminate|].
  intros H. injection H as <- _. reflexivity.
Qed.

(** A fold that raises got through the paths before the one that failed. *)
Lemma fold_raise_at (paths : list text) acc (st st' : state) e :
  foldM step acc paths st = (st', Raise e) ->
  exists pre p post st1 acc1,
    paths = pre ++ p :: post
    /\ foldM step acc pre st = (st1, Ok acc1)
    /\ step acc1 p st1 = (st', Raise e).
Proof.
  revert acc st. induction paths as [|p ps IH]; intros acc st H;
    [discriminate|].
  cbn [foldM] in H. unfold bind in H.
  destruct (step acc p st) as [st1 [acc1|e1]] eqn:E.
  - apply IH in H as (pre & q & post & st2 & acc2 & -> & H1 & H2).
    exists (p :: pre), q, post, st2, acc2. repeat split; [|assumption].
    cbn [foldM]. unfold bind. now rewrite E.
  - injection H as <- <-. exists [], p, ps, st, acc. auto.
Qed.

Lemma NoDup_split_unique (pre post pre' post' : list text) (p : text) :
  NoDup (pre ++ p :: post) -> pre ++ p :: post = pre' ++ p :: post' ->
  pre = pre'.
Proof.
  revert pre'. induction pre as [|a pre IH]; intros pre' Hnd E.
  - destruct pre' as [|b pre']; [reflexivity|]. cbn in E.
    injection E as <- E. apply NoDup_cons in Hnd as [Hp _].
    exfalso. apply Hp. rewrite E. set_solver.
  - cbn in Hnd. apply NoDup_cons in Hnd as [Ha Hnd].
    destruct pre' as [|b pre']; cbn in E.
    + injection E as -> E. exfalso. apply Ha. set_solver.
    + injection E as <- E. f_equal. now apply IH.
Qed.

End LogClosed.

(** X21: the session log is closed with what was written to it also when
    the run raises.  When a run that has loaded the mapping raises
    [IOError] for the file [p] of the walk, the status callback was called
    for the files up to [p] and no further, and the log holds the lines of
    the substitutions accepted in the files the walk lists before [p], then
    those accepted in [p] if it could be read, and no summary. *)
Theorem X21_log_of_a_run_that_raises {U : Unicode}
    (sprite_map : gmap text text) (argv0 : text) (tree : dir)
    (project_dir mapping_file : text)
    (gui_log_callback status_callback : bool)
    (pre post : list text) (p : text) (st st' : state) :
  NoDup (walk_paths (os_walk project_dir tree)) ->
  walk_paths (os_walk project_dir tree) = pre ++ p :: post ->
  load_sprite_map mapping_file st = (st, Ok sprite_map) ->
  scan_and_replace argv0 tree project_dir mapping_file
    gui_log_callback status_callback st
  = (st', Raise (IOError p)) ->
  status_log st'
  = status_log st
      ++ (if status_callback then map scanning (pre ++ [p]) else [])
  /\ content <$> fs st' !! log_path_of argv0
     = Some (log_lines
               (flat_map (events_at sprite_map (fs st)) pre
                  ++ (if can_read (fs st) p
                      then events_at sprite_map (fs st) p else []))).
Proof.
  intros Hnd Hwalk Hload Hrun.
  assert (Hel : forall q, q ∈ pre ++ p :: post -> eligible q = true).
  { intros q Hq. rewrite <- Hwalk in Hq.
    now apply (walk_paths_eligible (os_walk project_dir tree)). }
  assert (Hpe : eligible p = true) by (apply Hel; set_solver).
  rewrite (scan_and_replace_with_loaded sprite_map gui_log_callback
             status_callback argv0 tree project_dir mapping_file st Hload)
    in Hrun.
  rewrite scan_and_replace_with_spec in Hrun. cbv zeta in Hrun.
  destruct (log_openable (log_path_of argv0) (fs st)).
  2:{ injection Hrun as _ E. symmetry in E.
      now apply eligible_not_log in E. }
  rewrite Hwalk in Hrun, Hnd.
  set (st0 := open_log (log_path_of argv0) st) in *.
  assert (Hsame : forall q, eligible q = true -> fs st0 !! q = fs st !! q).
  { intros q Hq. unfold st0, open_log. cbn [fs]. apply lookup_insert_ne.
    intros E. symmetry in E. now apply eligible_not_log in E. }
  pose proof (foldM_state_inv
                (scan_path sprite_map gui_log_callback status_callback)
                (fun s => is_Some (fs s !! log_path_of argv0))
                (pre ++ p :: post)
                ltac:(intros a q s Hq Hs; cbv beta in *;
                      rewrite scan_path_fs, fs_step_other;
                      [assumption
                      |symmetry; apply eligible_not_log; now apply Hel
                      |apply log_path_not_bak])
                ([], []) st0
                ltac:(unfold st0; cbn; rewrite lookup_insert_eq; eauto))
    as Hopen.
  cbv beta in Hopen.
  destruct (foldM _ _ (pre ++ p :: post) st0) as [st2 [acc|e]] eqn:E;
    [discriminate|].
  injection Hrun as <- ->. cbn [fst] in Hopen.
  pose proof (fold_raise sprite_map gui_log_callback status_callback
                _ _ _ _ _ E) as (pre0 & p0 & post0 & E0 & Ep & Hst).
  injection Ep as <-.
  apply (NoDup_split_unique _ _ _ _ _ Hnd) in E0 as <-.
  apply fold_raise_at in E as (pre1 & p1 & post1 & st1 & acc1 & E1 & Hf & Hs).
  pose proof (scan_path_raise sprite_map gui_log_callback status_callback
                _ _ _ _ _ Hs) as Ep.
  injection Ep as <-.
  apply (NoDup_split_unique _ _ _ _ _ Hnd) in E1 as <-.
  apply NoDup_app in Hnd as (Hnd & Hdis & _).
  assert (Hp : p ∉ pre) by (intros H; apply (Hdis p H); left).
  pose proof (fold_keeps_path sprite_map gui_log_callback status_callback
                pre ([], []) st0 p) as Hkeep.
  rewrite Hf in Hkeep. cbn [fst] in Hkeep.
  assert (Hfs : fs st1 !! p = fs st !! p).
  { rewrite Hkeep, Hsame; [reflexivity|assumption|].
    intros q Hq. split; [intros ->; contradiction|].
    apply eligible_not_bak. apply Hel. set_solver. }
  apply fold_report in Hf as (_ & _ & Hl);
    [|assumption|intros q Hq; apply Hel; set_solver].
  assert (He : flat_map (events_at sprite_map (fs st0)) pre
               = flat_map (events_at sprite_map (fs st)) pre).
  { apply flat_map_ext_in. intros q Hq. unfold events_at.
    rewrite Hsame; [reflexivity|]. apply Hel, elem_of_app. left.
    now apply list_elem_of_In. }
  rewrite He in Hl. clear He. cbn [log_f st0 open_log app] in Hl.
  apply scan_path_raised in Hs.
  assert (Hcan : can_read (fs st1) p = can_read (fs st) p)
    by (unfold can_read; now rewrite Hfs).
  assert (Hev : events_at sprite_map (fs st1) p
                = events_at sprite_map (fs st) p)
    by (unfold events_at; now rewrite Hfs).
  rewrite Hcan, Hev, Hl in Hs. clear Hcan Hev.
  destruct Hopen as [lf Hlf]. split.
  - exact Hst.
  - cbn [fs close_log]. rewrite lookup_alter_eq, Hlf. cbn.
    now rewrite Hs, log_lines_app.
Qed.

Lemma X21_witness :
  status_log
    (fst (scan_and_replace (U := ascii_only) (str "/tool/gui.py")
            (Dir [str "b.gml"; str "a.gml"] []) (str "/p")
            (str "/p/map.txt") true true ex_unwritable))
  = status_log ex_unwritable
      ++ map scanning ([str "/p/b.gml"] ++ [str "/p/a.gml"])
  /\ content
       <$> fs (fst (scan_and_replace (U := ascii_only) (str "/tool/gui.py")
                      (Dir [str "b.gml"; str "a.gml"] []) (str "/p")
                      (str "/p/map.txt") true true ex_unwritable))
             !! log_path_of (str "/tool/gui.py")
     = Some (log_lines
               (flat_map (events_at ex_map (fs ex_unwritable))
                  [str "/p/b.gml"]
                  ++ (if can_read (fs ex_unwritable) (str "/p/a.gml")
                      then events_at ex_map (fs ex_unwritable)
                             (str "/p/a.gml")
                      else []))).
Proof.
  apply (X21_log_of_a_run_that_raises (U := ascii_only) ex_map
           (str "/tool/gui.py") (Dir [str "b.gml"; str "a.gml"] [])
           (str "/p") (str "/p/map.txt") true true
           [str "/p/b.gml"] [] (str "/p/a.gml") ex_unwritable).
  - vm_compute. repeat constructor; set_solver.
  - reflexivity.
  - reflexivity.
  - now vm_compute.
Defined.

(** ** Nothing is deleted *)

Section Kept.
Context {U : Unicode}.
Variable sprite_map : gmap text text.

(** The path [k], which held a file with read permission [r], still holds
    one with that permission. *)
Local Abbreviation kept k r m :=
  (exists f' : file, m !! k = Some f' /\ readable f' = r).

Lemma with_backup_keeps (p : text) (f : file) (m : gmap text file) k r :
  kept k r m -> kept k r (with_backup p f m).
Proof.
  intros (f' & Hk & Hr). exists f'. split; [|assumption].
  now apply with_backup_kept.
Qed.

Lemma fs_step_keeps (p : text) (m : gmap text file) k r :
  kept k r m -> kept k r (fs_step sprite_map p m).
Proof.
  intros H. unfold fs_step.
  destruct (m !! p) as [f|] eqn:Hp; [|assumption].
  destruct (readable f && file_changed sprite_map p f); [|assumption].
  destruct (writable f); [|now apply with_backup_keeps].
  destruct (decide (k = p)) as [->|Hne].
  - destruct H as (f' & Hk & Hr). rewrite Hp in Hk. injection Hk as <-.
    eexists. rewrite lookup_insert_eq. split; [reflexivity|assumption].
  - destruct (with_backup_keeps p f m k r H) as (f' & Hk & Hr).
    exists f'. now rewrite lookup_insert_ne.
Qed.

End Kept.

(** X22: a run deletes nothing and takes no read permission away.  Whether
    it completes or raises, every path that held a file before still holds
    one after, and this one can be read if and only if that one could. *)
Theorem X22_nothing_is_deleted {U : Unicode}
    (argv0 : text) (tree : dir) (project_dir mapping_file : text)
    (gui_log_callback status_callback : bool) (st : state)
    (k : text) (f : file) :
  fs st !! k = Some f ->
  exists f',
    fs (fst (scan_and_replace argv0 tree project_dir mapping_file
               gui_log_callback status_callback st)) !! k = Some f'
    /\ readable f' = readable f.
Proof.
  intros Hk. unfold scan_and_replace, bind. rewrite load_sprite_map_cases.
  destruct (can_read (fs st) mapping_file); [|eauto].
  rewrite scan_and_replace_with_spec. cbv zeta.
  destruct (log_openable (log_path_of argv0) (fs st)); [|eauto].
  set (sm := load_lines _).
  pose proof (foldM_state_inv
                (scan_path sm gui_log_callback status_callback)
                (fun s => exists f' : file,
                   fs s !! k = Some f' /\ readable f' = readable f)
                (walk_paths (os_walk project_dir tree))
                ltac:(intros a q s _ Hs; cbv beta in *;
                      rewrite scan_path_fs; now apply fs_step_keeps)
                ([], []) (open_log (log_path_of argv0) st)) as H.
  cbv beta in H.
  destruct H as (f1 & H1 & Hr1).
  { unfold open_log. cbn [fs].
    destruct (decide (k = log_path_of argv0)) as [->|Hne].
    - rewrite lookup_insert_eq, Hk. eauto.
    - rewrite lookup_insert_ne by congruence. eauto. }
  assert (Hclose : forall s,
            fs s !! k = Some f1 ->
            exists f', fs (close_log (log_path_of argv0) s) !! k = Some f'
                       /\ readable f' = readable f).
  { intros s Hs. unfold close_log. cbn [fs].
    destruct (decide (k = log_path_of argv0)) as [->|Hne].
    - rewrite lookup_alter_eq, Hs. cbn. eauto.
    - rewrite lookup_alter_ne by congruence. eauto. }
  destruct (foldM _ _ _ _) as [s [acc|e]]; cbn [fst] in *;
    now apply Hclose.
Qed.

Lemma X22_witness :
  exists f',
    fs (fst (scan_and_replace (U := ascii_only) (str "/tool/gui.py")
               (Dir [str "a.gml"; str "b.gml"; str "map.txt"] []) (str "/p")
               (str "/p/map.txt") true true ex_unreadable))
      !! str "/p/a.gml" = Some f'
    /\ readable f' = readable (File (str "sprite_index = 12;") false true).
Proof.
  apply (X22_nothing_is_deleted (U := ascii_only) (str "/tool/gui.py")
           (Dir [str "a.gml"; str "b.gml"; str "map.txt"] []) (str "/p")
           (str "/p/map.txt") true true ex_unreadable).
  reflexivity.
Defined.
